(** * mlpack: hyper-rectangle bound (HRectBound<t_pow>) and tree traits

    A shallow embedding of
      - src/mlpack/core/tree/hrectbound_impl.hpp
      - src/mlpack/core/tree/binary_space_tree/traits.hpp
    over the real numbers.  A C++ [double] is read as a real number (exact
    arithmetic); an [arma::vec] is a list of reals; the raw array
    [math::Range* bounds] of [dim] cells is a list of ranges next to the
    field [dim].  Unchecked array reads, failed assertions and results of
    [pow] or [/] that are not real numbers are faults of a small error
    monad, so that every function of the source is a total Rocq function.
    The template parameter [t_pow] is an integer argument; the statements
    take it positive ([1 <= t_pow]), as a metric exponent is. *)

From Stdlib Require Import Reals Lra Lia List ZArith Bool Permutation.
From Stdlib Require String.
Import ListNotations.

Open Scope R_scope.

(** ** Faults and the error monad *)

Inductive fault : Type :=
| AssertionFailed   (* Log::Assert / assert on a false condition *)
| OutOfBounds       (* a read or write past the end of an array *)
| NotReal.          (* pow or division with no real value (NaN, infinity) *)

Inductive result (A : Type) : Type :=
| Ok (a : A)
| Fault (f : fault).

Arguments Ok {A} a.
Arguments Fault {A} f.

Definition bind {A B : Type} (m : result A) (k : A -> result B) : result B :=
  match m with
  | Ok a => k a
  | Fault f => Fault f
  end.

Notation "x <- m ;; k" := (bind m (fun x => k))
  (at level 61, m at next level, right associativity).
Notation "m ;;; k" := (bind m (fun _ => k))
  (at level 61, right associativity).

(** [Log::Assert(cond)] and [assert(cond)]. *)
Definition Assert (cond : bool) : result unit :=
  if cond then Ok tt else Fault AssertionFailed.

(** [a[i]] on a raw array or an [arma::vec]: no bounds check in the source. *)
Definition at_ {A : Type} (a : list A) (i : nat) : result A :=
  match nth_error a i with
  | Some v => Ok v
  | None => Fault OutOfBounds
  end.

Notation "a @[ i ]" := (at_ a i) (at level 1, format "a @[ i ]").

(** [a[i] = v]. *)
Fixpoint store {A : Type} (a : list A) (i : nat) (v : A) : result (list A) :=
  match a, i with
  | [], _ => Fault OutOfBounds
  | _ :: rest, O => Ok (v :: rest)
  | x :: rest, S j => rest' <- store rest j v ;; Ok (x :: rest')
  end.

(** [for (size_t i = start; i < start + count; i++) body], the loop state
    threaded through the iterations. *)
Fixpoint for_range {S : Type} (start count : nat)
    (body : nat -> S -> result S) (s : S) : result S :=
  match count with
  | O => Ok s
  | Datatypes.S k => s' <- body start s ;; for_range (Datatypes.S start) k body s'
  end.

(** ** <math.h> and <algorithm> on the reals *)

Module Cmath.

Definition fabs (x : R) : R := Rabs x.

(** [x / y] on doubles; a zero divisor gives an infinity or NaN. *)
Definition fdiv (x y : R) : result R :=
  if Req_dec_T y 0 then Fault NotReal else Ok (x / y).

(** [pow(x, y)] for finite [x], [y] (C99 7.12.7.4 and F.9.4.4):
    [pow(x, 0)] is 1; a positive base gives [exp (y * ln x)];
    [pow(0, y)] is 0 for [y > 0] and infinite for [y < 0]; a negative
    base has a value only at an integral exponent. *)
Definition pow (x y : R) : result R :=
  if Req_dec_T y 0 then Ok 1
  else if Rlt_dec 0 x then Ok (Rpower x y)
  else if Req_dec_T x 0 then
    (if Rlt_dec 0 y then Ok 0 else Fault NotReal)
  else if Req_dec_T y (IZR (Int_part y)) then Ok (powerRZ x (Int_part y))
  else Fault NotReal.

Definition std_max (a b : R) : R := if Rlt_dec a b then b else a.
Definition std_min (a b : R) : R := if Rlt_dec b a then b else a.

End Cmath.
Import Cmath.

(** ** Data *)

Definition vec : Type := list R.

(** [math::Range]: the two public fields of the class. *)
Record Range : Type := mkRange { lo : R; hi : R }.

(** [HRectBound<t_pow>]: the fields [dim] and [bounds]; the template
    parameter [t_pow] is the first argument of the functions below. *)
Record HRectBound : Type := mkHRectBound { dim : nat; bounds : list Range }.

(** Class invariant: [bounds] was allocated with [new math::Range[dim]]. *)
Definition allocated (B : HRectBound) : Prop := length (bounds B) = dim B.

(** Every axis interval is well-formed. *)
Definition well_formed (B : HRectBound) : Prop :=
  Forall (fun r => lo r <= hi r) (bounds B).

(** ** math::Range, from the interface description *)

(** Modelled from the spec: [math::Range::Contains(double)] (range.hpp is not
    among the sources): [Contains(x)] returns [lo <= x <= hi]. *)
Definition Range_Contains (r : Range) (x : R) : bool :=
  if Rle_dec (lo r) x then (if Rle_dec x (hi r) then true else false)
  else false.

(** Modelled from the spec: [math::Range::operator|=(double)] (range.hpp is
    not among the sources): union with a scalar grows [lo]/[hi] to include
    the given value and is a no-op if the value is already inside. *)
Definition Range_union_scalar (r : Range) (x : R) : Range :=
  mkRange (if Rlt_dec x (lo r) then x else lo r)
          (if Rlt_dec (hi r) x then x else hi r).

(** Modelled from the spec: [math::Range::operator|=(const Range&)]
    (range.hpp is not among the sources): the interval absorbs the other
    interval, growing [lo]/[hi] to include both of its ends. *)
Definition Range_union (r o : Range) : Range :=
  mkRange (if Rlt_dec (lo o) (lo r) then lo o else lo r)
          (if Rlt_dec (hi r) (hi o) then hi o else hi r).

(** ** hrectbound_impl.hpp *)

Section HRectBound.

(** The template parameter [int t_pow]. *)
Variable t_pow : Z.

(** The closing [pow(sum, 2.0 / (double) t_pow)]. *)
Definition normalize (sum : R) : result R :=
  e <- fdiv 2 (IZR t_pow) ;; pow sum e.

(** [sum += pow((lower + fabs(lower)) + (higher + fabs(higher)), t_pow)]. *)
Definition add_clamped (sum lower higher : R) : result R :=
  c <- pow ((lower + fabs lower) + (higher + fabs higher)) (IZR t_pow) ;;
  Ok (sum + c).

(** [double MinDistance(const arma::vec& point) const] *)
Definition MinDistance (B : HRectBound) (point : vec) : result R :=
  Assert (length point =? dim B)%nat ;;;
  sum <- for_range 0 (dim B) (fun d sum =>
           bd <- (bounds B)@[d] ;;
           pd <- point@[d] ;;
           let lower := lo bd - pd in
           let higher := pd - hi bd in
           add_clamped sum lower higher) 0 ;;
  r <- normalize sum ;;
  fdiv r 4.

(** [double MinDistance(const arma::vec& point,
                        const std::vector<size_t>& indices) const] *)
Definition MinDistance_filtered (B : HRectBound) (point : vec)
    (indices : list nat) : result R :=
  Assert (length point =? dim B)%nat ;;;
  sum <- for_range 0 (length indices) (fun index sum =>
           dimension <- indices@[index] ;;
           bd <- (bounds B)@[dimension] ;;
           pd <- point@[dimension] ;;
           let lower := lo bd - pd in
           let higher := pd - hi bd in
           add_clamped sum lower higher) 0 ;;
  r <- normalize sum ;;
  fdiv r 4.

(** [double MinDistance(const HRectBound& other) const]; the pointers
    [mbound] and [obound] are at cell [d] of the two arrays in
    iteration [d]. *)
Definition MinDistance_bound (B other : HRectBound) : result R :=
  Assert (dim B =? dim other)%nat ;;;
  sum <- for_range 0 (dim B) (fun d sum =>
           ob <- (bounds other)@[d] ;;
           mb <- (bounds B)@[d] ;;
           let lower := lo ob - hi mb in
           let higher := lo mb - hi ob in
           add_clamped sum lower higher) 0 ;;
  r <- normalize sum ;;
  fdiv r 4.

(** [double MinDistance(const HRectBound& other,
                        const std::vector<size_t>& indices) const] *)
Definition MinDistance_bound_filtered (B other : HRectBound)
    (indices : list nat) : result R :=
  Assert (dim B =? dim other)%nat ;;;
  sum <- for_range 0 (length indices) (fun index sum =>
           dimension <- indices@[index] ;;
           mb <- (bounds B)@[dimension] ;;
           ob <- (bounds other)@[dimension] ;;
           let lower := lo mb - hi ob in
           let higher := lo ob - hi mb in
           add_clamped sum lower higher) 0 ;;
  r <- normalize sum ;;
  fdiv r 4.

(** [double MaxDistance(const arma::vec& point) const] *)
Definition MaxDistance (B : HRectBound) (point : vec) : result R :=
  Assert (length point =? dim B)%nat ;;;
  sum <- for_range 0 (dim B) (fun d sum =>
           pd <- point@[d] ;;
           bd <- (bounds B)@[d] ;;
           let v := fabs (std_max (pd - lo bd) (hi bd - pd)) in
           c <- pow v (IZR t_pow) ;;
           Ok (sum + c)) 0 ;;
  normalize sum.

(** [double MaxDistance(const arma::vec& point,
                        const std::vector<size_t>& indices) const] *)
Definition MaxDistance_filtered (B : HRectBound) (point : vec)
    (indices : list nat) : result R :=
  Assert (length point =? dim B)%nat ;;;
  sum <- for_range 0 (length indices) (fun index sum =>
           dimension <- indices@[index] ;;
           pd <- point@[dimension] ;;
           bd <- (bounds B)@[dimension] ;;
           let lower := fabs (pd - lo bd) in
           let higher := fabs (pd - hi bd) in
           c <- pow (fabs (higher - lower) + higher + lower) (IZR t_pow) ;;
           Ok (sum + c)) 0 ;;
  r <- normalize sum ;;
  fdiv r 4.

(** [double MaxDistance(const HRectBound& other) const] *)
Definition MaxDistance_bound (B other : HRectBound) : result R :=
  Assert (dim B =? dim other)%nat ;;;
  sum <- for_range 0 (dim B) (fun d sum =>
           ob <- (bounds other)@[d] ;;
           mb <- (bounds B)@[d] ;;
           let v := fabs (std_max (hi ob - lo mb) (hi mb - lo ob)) in
           c <- pow v (IZR t_pow) ;;
           Ok (sum + c)) 0 ;;
  normalize sum.

(** [double MaxDistance(const HRectBound& other,
                        const std::vector<size_t>& indices) const] *)
Definition MaxDistance_bound_filtered (B other : HRectBound)
    (indices : list nat) : result R :=
  Assert (dim other =? dim B)%nat ;;;
  sum <- for_range 0 (length indices) (fun index sum =>
           dimension <- indices@[index] ;;
           ob <- (bounds other)@[dimension] ;;
           mb <- (bounds B)@[dimension] ;;
           let lower := fabs (hi ob - lo mb) in
           let higher := fabs (lo ob - hi mb) in
           c <- pow (fabs (higher - lower) + higher + lower) (IZR t_pow) ;;
           Ok (sum + c)) 0 ;;
  r <- normalize sum ;;
  fdiv r 4.

(** The tail of both [RangeDistance] loop bodies:
    [loSum += pow(vLo, t_pow); hiSum += pow(vHi, t_pow);]. *)
Definition add_lo_hi (sums : R * R) (vLo vHi : R) : result (R * R) :=
  cLo <- pow vLo (IZR t_pow) ;;
  cHi <- pow vHi (IZR t_pow) ;;
  Ok (fst sums + cLo, snd sums + cHi).

(** [return math::Range(pow(loSum, 2/t_pow), pow(hiSum, 2/t_pow))]. *)
Definition range_of_sums (sums : R * R) : result Range :=
  l <- normalize (fst sums) ;;
  h <- normalize (snd sums) ;;
  Ok (mkRange l h).

(** [math::Range RangeDistance(const HRectBound& other) const] *)
Definition RangeDistance_bound (B other : HRectBound) : result Range :=
  Assert (dim B =? dim other)%nat ;;;
  sums <- for_range 0 (dim B) (fun d sums =>
            ob <- (bounds other)@[d] ;;
            mb <- (bounds B)@[d] ;;
            let v1 := lo ob - hi mb in
            let v2 := lo mb - hi ob in
            if Rge_dec v1 v2
            then add_lo_hi sums (if Rgt_dec v1 0 then v1 else 0) (- v2)
            else add_lo_hi sums (if Rgt_dec v2 0 then v2 else 0) (- v1))
          (0, 0) ;;
  range_of_sums sums.

(** [math::Range RangeDistance(const arma::vec& point) const] *)
Definition RangeDistance (B : HRectBound) (point : vec) : result Range :=
  Assert (length point =? dim B)%nat ;;;
  sums <- for_range 0 (dim B) (fun d sums =>
            bd <- (bounds B)@[d] ;;
            pd <- point@[d] ;;
            let v1 := lo bd - pd in
            let v2 := pd - hi bd in
            if Rge_dec v1 0
            then add_lo_hi sums v1 (- v2)
            else if Rge_dec v2 0
                 then add_lo_hi sums v2 (- v1)
                 else add_lo_hi sums 0 (- std_min v1 v2))
          (0, 0) ;;
  range_of_sums sums.

End HRectBound.

(** [HRectBound& operator|=(const arma::vec& vector)]; the loop state is the
    array [bounds]. *)
Definition union_point (B : HRectBound) (vector : vec) : result HRectBound :=
  Assert (length vector =? dim B)%nat ;;;
  bs <- for_range 0 (dim B) (fun i bs =>
          bi <- bs@[i] ;;
          vi <- vector@[i] ;;
          store bs i (Range_union_scalar bi vi)) (bounds B) ;;
  Ok (mkHRectBound (dim B) bs).

(** [HRectBound& operator|=(const HRectBound& other)] *)
Definition union_bound (B other : HRectBound) : result HRectBound :=
  Assert (dim other =? dim B)%nat ;;;
  bs <- for_range 0 (dim B) (fun i bs =>
          bi <- bs@[i] ;;
          oi <- (bounds other)@[i] ;;
          store bs i (Range_union bi oi)) (bounds B) ;;
  Ok (mkHRectBound (dim B) bs).

(** [bool Contains(const arma::vec& point) const]: the loop from index [i]
    with [count] iterations left, leaving at the first axis that does not
    contain its coordinate. *)
Fixpoint Contains_from (B : HRectBound) (point : vec) (i count : nat)
    : result bool :=
  match count with
  | O => Ok true
  | S k =>
      bi <- (bounds B)@[i] ;;
      pi <- point@[i] ;;
      if negb (Range_Contains bi pi) then Ok false
      else Contains_from B point (S i) k
  end.

Definition Contains (B : HRectBound) (point : vec) : result bool :=
  Contains_from B point 0 (length point).

(** ** binary_space_tree/traits.hpp *)

(** The static members of a [TreeTraits] specialisation. *)
Record TreeTraits : Type := mkTreeTraits {
  HasOverlappingChildren : bool;
  FirstPointIsCentroid : bool;
  HasSelfChildren : bool;
  RearrangesDataset : bool;
  BinaryTree : bool
}.

(** [TreeTraits<BinarySpaceTree<MetricType, StatisticType, MatType,
    BoundType, SplitType>>]: the same values at every instantiation. *)
Definition TreeTraits_BinarySpaceTree : TreeTraits :=
  {| HasOverlappingChildren := false;
     FirstPointIsCentroid := false;
     HasSelfChildren := false;
     RearrangesDataset := true;
     BinaryTree := true |}.

(** ** Mathematical notions used in the statements *)

(** Sum of a list of reals. *)
Definition Rsum (l : list R) : R := fold_right Rplus 0 l.

(** [x ^ p] for an integral exponent [p >= 1]. *)
Definition ipow (x : R) (p : Z) : R := x ^ Z.to_nat p.

(** [s ^ y] for a base [s >= 0] and a real exponent [y > 0]. *)
Definition rpow (s y : R) : R :=
  if Req_dec_T s 0 then 0 else exp (y * ln s).

(** Sum over the axes of a per-axis term of a bound and a point. *)
Definition axis_sum (term : Range -> R -> R) (B : HRectBound) (x : vec) : R :=
  Rsum (map (fun ax => term (fst ax) (snd ax)) (combine (bounds B) x)).

(** Sum over the axes of a per-axis term of two bounds. *)
Definition axis_sum2 (term : Range -> Range -> R) (A B : HRectBound) : R :=
  Rsum (map (fun ax => term (fst ax) (snd ax)) (combine (bounds A) (bounds B))).

(** The squared Euclidean distance of two points. *)
Definition sqdist (x y : vec) : R :=
  Rsum (map (fun c => (fst c - snd c) ^ 2) (combine x y)).

(** A point of the box: one coordinate per axis, each inside its interval
    as [Contains] decides it. *)
Definition in_bound (B : HRectBound) (y : vec) : Prop :=
  length y = dim B /\ Contains B y = Ok true.

(** A point of the box that no other point of the box is closer to [x]. *)
Definition nearest_in (B : HRectBound) (x n : vec) : Prop :=
  in_bound B n /\ forall y, in_bound B y -> sqdist x n <= sqdist x y.

(** Interval inclusion on the end points: [r] lies inside [r']. *)
Definition Range_le (r r' : Range) : Prop := lo r' <= lo r /\ hi r <= hi r'.

(** Cells read where the index is known to be in range. *)
Definition axis (B : HRectBound) (i : nat) : Range := nth i (bounds B) (mkRange 0 0).
Definition coord (x : vec) (i : nat) : R := nth i x 0.

(** ** The distance formulas as the specification writes them *)

Section Formulas.

Variable p : Z.

(** [(lower + |lower|) + (higher + |higher|)] *)
Definition clamp2 (lower higher : R) : R :=
  (lower + Rabs lower) + (higher + Rabs higher).

(** [(|higher - lower| + higher + lower)] *)
Definition spread2 (lower higher : R) : R :=
  Rabs (higher - lower) + higher + lower.

(** [(sum over axes of ((lower+|lower|) + (higher+|higher|))^p)^(2/p) / 4],
    [lower = lo - x], [higher = x - hi]. *)
Definition MinDistance_formula (B : HRectBound) (x : vec) : R :=
  rpow (axis_sum (fun bd xd => ipow (clamp2 (lo bd - xd) (xd - hi bd)) p) B x)
       (2 / IZR p) / 4.

(** The same with [lower = other.lo - this.hi], [higher = this.lo - other.hi]. *)
Definition MinDistance_bound_formula (B other : HRectBound) : R :=
  rpow (axis_sum2 (fun mb ob => ipow (clamp2 (lo ob - hi mb) (lo mb - hi ob)) p)
                  B other)
       (2 / IZR p) / 4.

(** [(sum over axes of |max(x - lo, hi - x)|^p)^(2/p)] *)
Definition MaxDistance_formula (B : HRectBound) (x : vec) : R :=
  rpow (axis_sum (fun bd xd => ipow (Rabs (Rmax (xd - lo bd) (hi bd - xd))) p) B x)
       (2 / IZR p).

(** [(sum over axes of |max(other.hi - this.lo, this.hi - other.lo)|^p)^(2/p)] *)
Definition MaxDistance_bound_formula (B other : HRectBound) : R :=
  rpow (axis_sum2 (fun mb ob =>
                     ipow (Rabs (Rmax (hi ob - lo mb) (hi mb - lo ob))) p)
                  B other)
       (2 / IZR p).

(** [(sum over the selected axes of (|higher-lower| + higher + lower)^p)^(2/p) / 4],
    [lower = |x - lo|], [higher = |x - hi|]. *)
Definition MaxDistance_filtered_formula (B : HRectBound) (x : vec)
    (indices : list nat) : R :=
  rpow (Rsum (map (fun i =>
                ipow (spread2 (Rabs (coord x i - lo (axis B i)))
                              (Rabs (coord x i - hi (axis B i)))) p) indices))
       (2 / IZR p) / 4.

(** The same with [lower = |other.hi - this.lo|], [higher = |other.lo - this.hi|]. *)
Definition MaxDistance_bound_filtered_formula (B other : HRectBound)
    (indices : list nat) : R :=
  rpow (Rsum (map (fun i =>
                ipow (spread2 (Rabs (hi (axis other i) - lo (axis B i)))
                              (Rabs (lo (axis other i) - hi (axis B i)))) p) indices))
       (2 / IZR p) / 4.

(** The filtered [MinDistance] formulas over the selected axes. *)
Definition MinDistance_filtered_formula (B : HRectBound) (x : vec)
    (indices : list nat) : R :=
  rpow (Rsum (map (fun i =>
                ipow (clamp2 (lo (axis B i) - coord x i)
                             (coord x i - hi (axis B i))) p) indices))
       (2 / IZR p) / 4.

Definition MinDistance_bound_filtered_formula (B other : HRectBound)
    (indices : list nat) : R :=
  rpow (Rsum (map (fun i =>
                ipow (clamp2 (lo (axis B i) - hi (axis other i))
                             (lo (axis other i) - hi (axis B i))) p) indices))
       (2 / IZR p) / 4.

End Formulas.

(** The point of the box nearest to [x]: each coordinate moved to the
    nearer end of its interval when it lies outside. *)
Definition clamp (r : Range) (c : R) : R :=
  if Rlt_dec c (lo r) then lo r else if Rlt_dec (hi r) c then hi r else c.

Definition nearest_point (B : HRectBound) (x : vec) : vec :=
  map (fun ax => clamp (fst ax) (snd ax)) (combine (bounds B) x).

(** The box [[0,10] x [0,10]] of the worked examples. *)
Definition box10 : HRectBound :=
  mkHRectBound 2 [mkRange 0 10; mkRange 0 10].

(** A second box, [[20,30] x [-5,5]], and the bound of dimension 0. *)
Definition box_far : HRectBound :=
  mkHRectBound 2 [mkRange 20 30; mkRange (-5) 5].

Definition box_empty : HRectBound := mkHRectBound 0 [].

(** A one-dimensional bound whose interval has [lo > hi]. *)
Definition box_inverted : HRectBound := mkHRectBound 1 [mkRange 5 3].

(** ** hrectbound_impl.hpp: construction, copy, [Clear], access, [Centroid] *)

(** Modelled from the spec: [math::Range::Mid()] (range.hpp is not among the
    sources): [Mid()] returns [(lo+hi)/2]. *)
Definition Range_Mid (r : Range) : R := (lo r + hi r) / 2.

(** [HRectBound()]: [dim(0), bounds(NULL)]. *)
Definition HRectBound_new : HRectBound := mkHRectBound 0 [].

(** [const math::Range& operator[](const size_t i) const]: [return bounds[i]]. *)
Definition HRectBound_at (B : HRectBound) (i : nat) : result Range :=
  (bounds B)@[i].

Section Lifecycle.

(** The value of [math::Range()], the empty interval; range.hpp is not among
    the sources, so the value is left open. *)
Variable Range_empty : Range.

(** [new math::Range[n]]: [n] default-constructed cells. *)
Definition new_Ranges (n : nat) : list Range := repeat Range_empty n.

(** [HRectBound(const size_t dimension)] *)
Definition HRectBound_sized (dimension : nat) : HRectBound :=
  mkHRectBound dimension (new_Ranges dimension).

(** [HRectBound(const HRectBound& other)]: a fresh array, then
    [bounds[i] = other[i]] for every [i < dim]. *)
Definition HRectBound_copy (other : HRectBound) : result HRectBound :=
  let d := dim other in
  bs <- for_range 0 d (fun i bs =>
          oi <- HRectBound_at other i ;;
          store bs i oi) (new_Ranges d) ;;
  Ok (mkHRectBound d bs).

(** [HRectBound& operator=(const HRectBound& other)]: the old array is
    released, then the same as the copy constructor.  [other] is another
    object than the target: the source has no guard for self-assignment,
    which would read the array it has just released. *)
Definition HRectBound_assign (B other : HRectBound) : result HRectBound :=
  let d := dim other in
  bs <- for_range 0 d (fun i bs =>
          oi <- HRectBound_at other i ;;
          store bs i oi) (new_Ranges d) ;;
  Ok (mkHRectBound d bs).

(** [void Clear()] *)
Definition Clear (B : HRectBound) : result HRectBound :=
  bs <- for_range 0 (dim B) (fun i bs => store bs i Range_empty) (bounds B) ;;
  Ok (mkHRectBound (dim B) bs).

End Lifecycle.

(** [void Centroid(arma::vec& centroid) const]; [set_size] leaves the cells
    of the resized vector unspecified: [uninit n] stands for them. *)
Definition Centroid (uninit : nat -> vec) (B : HRectBound) (centroid : vec)
    : result vec :=
  let centroid :=
    if negb (length centroid =? dim B)%nat then uninit (dim B) else centroid in
  for_range 0 (dim B) (fun i centroid =>
    bi <- (bounds B)@[i] ;;
    store centroid i (Range_Mid bi)) centroid.

(** ** core/kernels/gaussian_kernel.hpp *)

(** [class GaussianKernel]: the three private fields. *)
Record GaussianKernel : Type := mkGaussianKernel {
  bandwidth : R;
  normalizer : R;
  gamma : R
}.


(** [GaussianKernel(double bandwidth)]: [gamma(-0.5 * pow(bandwidth, -2.0))]. *)
Definition GaussianKernel_new (bandwidth : R) : result GaussianKernel :=
  pw <- pow bandwidth (-2) ;;
  Ok (mkGaussianKernel bandwidth (bandwidth * sqrt (2 * PI)) (-0.5 * pw)).

(** Armadillo's [b - a] on two vectors; the library checks that the sizes
    agree. *)
Definition arma_minus (b a : vec) : result vec :=
  Assert (length b =? length a)%nat ;;;
  Ok (map (fun c => fst c - snd c) (combine b a)).

(** [arma::dot(u, v)], with the same check. *)
Definition arma_dot (u v : vec) : result R :=
  Assert (length u =? length v)%nat ;;;
  Ok (Rsum (map (fun c => fst c * snd c) (combine u v))).

(** [double Evaluate(const arma::vec& a, const arma::vec& b) const] *)
Definition Evaluate (k : GaussianKernel) (a b : vec) : result R :=
  diff <- arma_minus b a ;;
  d <- arma_dot diff diff ;;
  Ok (exp (gamma k * d)).

(** [double Evaluate(double t) const] *)
Definition Evaluate_scalar (k : GaussianKernel) (t : R) : R :=
  exp (gamma k * t * t).

(** ** methods/kmeans/kmeans_main.cpp *)

Import String.StringSyntax.
Delimit Scope string_scope with string.

(** The control flow of the executable, over the calls it makes to the
    rest of the library: every call that acts on the outside (seeding, log
    lines, loading, clustering, saving) is an event of a trace, and
    [Log::Fatal] ends the run.  [KMeans::Cluster], [data::Save] and the
    timers are taken to return to the caller; what they compute is outside
    this file. *)

(** The command line after [CLI::ParseCommandLine]: a flag is [true] when
    [CLI::HasParam] holds for it; an option with a default is [None] when it
    was not given. *)
Record CLI : Type := mkCLI {
  inputFile : String.string;
  clusters : Z;
  in_place : bool;
  output_file : option String.string;
  centroid_file : option String.string;
  allow_empty_clusters : bool;
  labels_only : bool;
  max_iterations : option Z;
  seed : option Z;
  initial_centroids : option String.string;
  refined_start : bool;
  samplings : option Z;
  percentage : option R;
  elkan : bool
}.

(** [CLI::HasParam] and [CLI::GetParam] with the defaults of the [PARAM_*]
    declarations. *)
Definition HasParam {A : Type} (o : option A) : bool :=
  match o with Some _ => true | None => false end.

Definition GetParam {A : Type} (default : A) (o : option A) : A :=
  match o with Some v => v | None => default end.

Definition GetParam_output_file (c : CLI) : String.string :=
  GetParam String.EmptyString (output_file c).
Definition GetParam_centroid_file (c : CLI) : String.string :=
  GetParam String.EmptyString (centroid_file c).
Definition GetParam_initial_centroids (c : CLI) : String.string :=
  GetParam String.EmptyString (initial_centroids c).
Definition GetParam_max_iterations (c : CLI) : Z :=
  GetParam 1000%Z (max_iterations c).
Definition GetParam_seed (c : CLI) : Z := GetParam 0%Z (seed c).
Definition GetParam_samplings (c : CLI) : Z := GetParam 100%Z (samplings c).
Definition GetParam_percentage (c : CLI) : R := GetParam 0.02 (percentage c).

(** The three template parameters of [KMeans] that the executable chooses. *)
Inductive InitialPartitionPolicy : Type :=
| RefinedStart (samplings : Z) (percentage : R)
| RandomPartition.

Inductive EmptyClusterPolicy : Type :=
| AllowEmptyClusters
| MaxVarianceNewCluster.

Inductive LloydStepType : Type :=
| ElkanKMeans
| NaiveKMeans.

(** What a [data::Save] call writes. *)
Inductive payload : Type :=
| DatasetWithLabels   (* the dataset with the row of assignments appended *)
| LabelsOnly          (* [trans(assignments)] *)
| Centroids.

Inductive warning : Type :=
| NoResultsSaved
| InitialCentroidsIgnored.

Inductive event : Type :=
| RandomSeed (s : Z)               (* [math::RandomSeed((size_t) seed)] *)
| RandomSeed_time                  (* [math::RandomSeed((size_t) std::time(NULL))] *)
| Warn (w : warning)
| Info_initial_centroids (file : String.string)
| Load (file : String.string)
| Cluster (ipp : InitialPartitionPolicy) (ecp : EmptyClusterPolicy)
          (step : LloydStepType) (maxIterations clusters : Z)
          (assignments initialGuess : bool)
| Timer_Start                      (* [Timer::Start("clustering")] *)
| Timer_Stop                       (* [Timer::Stop("clustering")] *)
| Save (file : String.string) (what : payload).

(** Why a run ended at a [Log::Fatal]. *)
Inductive fatal_reason : Type :=
| BadSamplings
| BadPercentage
| BadClusters
| BadMaxIterations
| LoadFailed (file : String.string).

Inductive outcome (A : Type) : Type :=
| Done (a : A)
| Fatal (r : fatal_reason).

Arguments Done {A} a.
Arguments Fatal {A} r.

(** A piece of the program: the events it made, in order, and how it ended. *)
Definition prog (A : Type) : Type := (list event * outcome A)%type.

Definition pbind {A B : Type} (m : prog A) (k : A -> prog B) : prog B :=
  match m with
  | (t, Done a) => let (t', o) := k a in (t ++ t', o)
  | (t, Fatal r) => (t, Fatal r)
  end.

Notation "m ;;> k" := (pbind m (fun _ => k))
  (at level 61, right associativity).

Definition skip : prog unit := ([], Done tt).
Definition emit (e : event) : prog unit := ([e], Done tt).
Definition Log_Fatal (r : fatal_reason) : prog unit := ([], Fatal r).

Section KMeansMain.

(** Whether [data::Load] succeeds on a file. *)
Variable load_ok : String.string -> bool.

(** [data::Load(file, matrix, true)]: fatal upon failure. *)
Definition data_Load (file : String.string) : prog unit :=
  emit (Load file) ;;> if load_ok file then skip else Log_Fatal (LoadFailed file).

Variable c : CLI.

(** [void RunKMeans(const InitialPartitionPolicy& ipp)] *)
Definition RunKMeans (ipp : InitialPartitionPolicy) (ecp : EmptyClusterPolicy)
    (step : LloydStepType) : prog unit :=
  (if (clusters c <? 1)%Z then Log_Fatal BadClusters else skip) ;;>
  let maxIterations := GetParam_max_iterations c in
  (if (maxIterations <? 0)%Z then Log_Fatal BadMaxIterations else skip) ;;>
  (if negb (in_place c) && negb (HasParam (output_file c))
      && negb (HasParam (centroid_file c))
   then emit (Warn NoResultsSaved) else skip) ;;>
  data_Load (inputFile c) ;;>
  let initialCentroidGuess := HasParam (initial_centroids c) in
  (if initialCentroidGuess
   then data_Load (GetParam_initial_centroids c) ;;>
        if refined_start c then emit (Warn InitialCentroidsIgnored)
        else emit (Info_initial_centroids (GetParam_initial_centroids c))
   else skip) ;;>
  (if HasParam (output_file c) || in_place c
   then emit Timer_Start ;;>
        emit (Cluster ipp ecp step maxIterations (clusters c) true
                      initialCentroidGuess) ;;>
        emit Timer_Stop ;;>
        if in_place c
        then emit (Save (inputFile c) DatasetWithLabels)
        else if labels_only c
             then emit (Save (GetParam_output_file c) LabelsOnly)
             else emit (Save (GetParam_output_file c) DatasetWithLabels)
   else emit Timer_Start ;;>
        emit (Cluster ipp ecp step maxIterations (clusters c) false
                      initialCentroidGuess) ;;>
        emit Timer_Stop) ;;>
  if HasParam (centroid_file c)
  then emit (Save (GetParam_centroid_file c) Centroids)
  else skip.

(** [void FindLloydStepType(const InitialPartitionPolicy& ipp)] *)
Definition FindLloydStepType (ipp : InitialPartitionPolicy)
    (ecp : EmptyClusterPolicy) : prog unit :=
  if elkan c then RunKMeans ipp ecp ElkanKMeans
  else RunKMeans ipp ecp NaiveKMeans.

(** [void FindEmptyClusterPolicy(const InitialPartitionPolicy& ipp)] *)
Definition FindEmptyClusterPolicy (ipp : InitialPartitionPolicy) : prog unit :=
  if allow_empty_clusters c then FindLloydStepType ipp AllowEmptyClusters
  else FindLloydStepType ipp MaxVarianceNewCluster.

(** [int main(int argc, char** argv)], after [CLI::ParseCommandLine]. *)
Definition kmeans_main : prog unit :=
  (if negb (GetParam_seed c =? 0)%Z then emit (RandomSeed (GetParam_seed c))
   else emit RandomSeed_time) ;;>
  if refined_start c
  then
    let samplings := GetParam_samplings c in
    let percentage := GetParam_percentage c in
    (if (samplings <? 0)%Z then Log_Fatal BadSamplings else skip) ;;>
    (if (if Rle_dec percentage 0 then true
         else if Rgt_dec percentage 1 then true else false)
     then Log_Fatal BadPercentage else skip) ;;>
    FindEmptyClusterPolicy (RefinedStart samplings percentage)
  else FindEmptyClusterPolicy RandomPartition.

End KMeansMain.

(** The [data::Save] calls of a trace, in order. *)
Definition saves (t : list event) : list (String.string * payload) :=
  flat_map (fun e => match e with Save f w => [(f, w)] | _ => [] end) t.

(** The [Cluster] calls of a trace. *)
Definition cluster_calls (t : list event) : list event :=
  filter (fun e => match e with Cluster _ _ _ _ _ _ _ => true | _ => false end) t.

(** The [data::Load] calls of a trace. *)
Definition loads (t : list event) : list String.string :=
  flat_map (fun e => match e with Load f => [f] | _ => [] end) t.

(** The options pass the checks of the executable. *)
Definition valid_options (c : CLI) : Prop :=
  (1 <= clusters c)%Z
  /\ (0 <= GetParam_max_iterations c)%Z
  /\ (refined_start c = true ->
      (0 <= GetParam_samplings c)%Z
      /\ 0 < GetParam_percentage c <= 1).

(** What a run that reaches its end saves, read off the options: the
    labelled dataset into the input file with [in_place], else labels or the
    labelled dataset into the output file when one is given, and after that
    the centroids into the centroid file when one is given. *)
Definition expected_saves (c : CLI) : list (String.string * payload) :=
  (if in_place c then [(inputFile c, DatasetWithLabels)]
   else match output_file c with
        | Some f => [(f, if labels_only c then LabelsOnly else DatasetWithLabels)]
        | None => []
        end)
  ++ match centroid_file c with
     | Some f => [(f, Centroids)]
     | None => []
     end.

(** The files a run that reaches its end loads. *)
Definition expected_loads (c : CLI) : list String.string :=
  inputFile c :: match initial_centroids c with Some f => [f] | None => [] end.

(** Every file the run has to load can be loaded. *)
Definition loadable (load_ok : String.string -> bool) (c : CLI) : Prop :=
  Forall (fun f => load_ok f = true) (expected_loads c).

(** The policies the flags select. *)
Definition chosen_ipp (c : CLI) : InitialPartitionPolicy :=
  if refined_start c
  then RefinedStart (GetParam_samplings c) (GetParam_percentage c)
  else RandomPartition.
Definition chosen_ecp (c : CLI) : EmptyClusterPolicy :=
  if allow_empty_clusters c then AllowEmptyClusters else MaxVarianceNewCluster.
Definition chosen_step (c : CLI) : LloydStepType :=
  if elkan c then ElkanKMeans else NaiveKMeans.

(** ** Further notions used in the statements *)

(** Two lists combined cell by cell. *)
Definition map2 {A B C : Type} (f : A -> B -> C) (la : list A) (lb : list B)
    : list C :=
  map (fun ab => f (fst ab) (snd ab)) (combine la lb).

(** The distance of two points in the units of the bound:
    [(sum over axes of |x - y|^p)^(2/p)], the squared Euclidean distance
    for [p = 2]. *)
Definition lpdist (p : Z) (x y : vec) : R :=
  rpow (Rsum (map (fun c => ipow (Rabs (fst c - snd c)) p) (combine x y)))
       (2 / IZR p).

(** The corner of the box farthest from [x]. *)
Definition far_end (r : Range) (c : R) : R :=
  if Rle_dec (hi r - c) (c - lo r) then lo r else hi r.

Definition farthest_point (B : HRectBound) (x : vec) : vec :=
  map2 far_end (bounds B) x.

(** The box [B] lies inside the box [C], axis by axis. *)
Definition inside (B C : HRectBound) : Prop :=
  forall d, (d < dim B)%nat -> Range_le (axis B d) (axis C d).

(** ** Further concrete inputs *)

(** A box around [box10]. *)
Definition box_big : HRectBound :=
  mkHRectBound 2 [mkRange (-100) 100; mkRange (-100) 100].

(** An empty interval that is the identity of the union on [[-100, 100]]. *)
Definition Range_inverted : Range := mkRange 100 (-100).

(** Resized vectors filled with zeros. *)
Definition zeros (n : nat) : vec := repeat 0 n.

(** [kmeans -i data.csv -c 3 -o labels.csv -l -C centroids.csv] *)
Definition cli_labels : CLI :=
  {| inputFile := "data.csv"%string; clusters := 3;
     in_place := false; output_file := Some "labels.csv"%string;
     centroid_file := Some "centroids.csv"%string;
     allow_empty_clusters := false; labels_only := true;
     max_iterations := None; seed := None; initial_centroids := None;
     refined_start := false; samplings := None; percentage := None;
     elkan := false |}.

(** [kmeans -i data.csv -c 0 -P] *)
Definition cli_no_clusters : CLI :=
  {| inputFile := "data.csv"%string; clusters := 0;
     in_place := true; output_file := None; centroid_file := None;
     allow_empty_clusters := false; labels_only := false;
     max_iterations := None; seed := None; initial_centroids := None;
     refined_start := false; samplings := None; percentage := None;
     elkan := false |}.

(** Every file can be loaded. *)
Definition load_all (f : String.string) : bool := true.

(** ** The error monad and the loops *)

Lemma at_nth {A : Type} (a : list A) (i : nat) (d : A) :
  (i < length a)%nat -> a@[i] = Ok (nth i a d).
Proof.
  intros Hi. unfold at_.
  now rewrite (nth_error_nth' a d Hi).
Qed.

Lemma at_Ok_inv {A : Type} (a : list A) (i : nat) (v : A) :
  a@[i] = Ok v -> (i < length a)%nat /\ forall d, nth i a d = v.
Proof.
  unfold at_. destruct (nth_error a i) eqn:E; [|discriminate].
  intros [= ->]. split.
  - apply nth_error_Some. congruence.
  - intros d. now apply nth_error_nth.
Qed.

(** A loop whose body never faults on its range is a left fold. *)
Lemma for_range_pure {S : Type} (step : nat -> S -> S)
    (body : nat -> S -> result S) :
  forall count start s,
    (forall d t, (start <= d < start + count)%nat -> body d t = Ok (step d t)) ->
    for_range start count body s
    = Ok (fold_left (fun t d => step d t) (seq start count) s).
Proof.
  induction count as [|k IH]; intros start s Hbody; simpl.
  - reflexivity.
  - rewrite Hbody by lia. simpl. apply IH.
    intros d t Hd. apply Hbody. lia.
Qed.

Lemma fold_left_Rsum (f : nat -> R) (l : list nat) (s : R) :
  fold_left (fun t d => t + f d) l s = s + Rsum (map f l).
Proof.
  revert s. induction l as [|d l IH]; intros s; simpl.
  - lra.
  - rewrite IH. lra.
Qed.

Lemma fold_left_Rsum2 (f g : nat -> R) (l : list nat) (s : R * R) :
  fold_left (fun t d => (fst t + f d, snd t + g d)) l s
  = (fst s + Rsum (map f l), snd s + Rsum (map g l)).
Proof.
  revert s. induction l as [|d l IH]; intros [a b]; simpl.
  - f_equal; lra.
  - rewrite IH. simpl. f_equal; lra.
Qed.

(** A summing loop. *)
Lemma for_range_sum (f : nat -> R) (body : nat -> R -> result R) (n : nat) :
  (forall d t, (d < n)%nat -> body d t = Ok (t + f d)) ->
  for_range 0 n body 0 = Ok (Rsum (map f (seq 0 n))).
Proof.
  intros Hbody.
  rewrite (for_range_pure (fun d t => t + f d)).
  - rewrite fold_left_Rsum. f_equal. lra.
  - intros d t Hd. apply Hbody. lia.
Qed.

(** A loop with two running sums. *)
Lemma for_range_sum2 (f g : nat -> R) (body : nat -> R * R -> result (R * R))
    (n : nat) :
  (forall d t, (d < n)%nat -> body d t = Ok (fst t + f d, snd t + g d)) ->
  for_range 0 n body (0, 0)
  = Ok (Rsum (map f (seq 0 n)), Rsum (map g (seq 0 n))).
Proof.
  intros Hbody.
  rewrite (for_range_pure (fun d t => (fst t + f d, snd t + g d))).
  - rewrite fold_left_Rsum2. simpl. do 2 f_equal; lra.
  - intros d t Hd. apply Hbody. lia.
Qed.

Lemma map_nth_seq {A : Type} (l : list A) (d : A) :
  map (fun i => nth i l d) (seq 0 (length l)) = l.
Proof.
  induction l as [|a l IH]; simpl; [reflexivity|].
  f_equal. rewrite <- seq_shift, map_map. exact IH.
Qed.

(** Reading two arrays of the same length cell by cell is zipping them. *)
Lemma map_seq_combine {A B C : Type} (f : A -> B -> C) (da : A) (db : B) :
  forall (la : list A) (lb : list B),
    length la = length lb ->
    map (fun i => f (nth i la da) (nth i lb db)) (seq 0 (length la))
    = map (fun ax => f (fst ax) (snd ax)) (combine la lb).
Proof.
  induction la as [|a la IH]; intros [|b lb] Hlen; simpl in *;
    try discriminate; [reflexivity|].
  f_equal. rewrite <- seq_shift, map_map. apply IH. lia.
Qed.

Lemma Rsum_Permutation (l1 l2 : list R) :
  Permutation l1 l2 -> Rsum l1 = Rsum l2.
Proof.
  induction 1; simpl; lra.
Qed.

Lemma Rsum_nonneg (l : list R) : Forall (fun c => 0 <= c) l -> 0 <= Rsum l.
Proof.
  induction 1; simpl; lra.
Qed.

Lemma Rsum_map_nonneg {A : Type} (f : A -> R) (l : list A) :
  (forall a, 0 <= f a) -> 0 <= Rsum (map f l).
Proof.
  intros Hf. apply Rsum_nonneg, Forall_forall.
  intros c Hc. apply in_map_iff in Hc as [a [<- _]]. apply Hf.
Qed.

Lemma Rsum_map_ext_in {A : Type} (f g : A -> R) (l : list A) :
  (forall a, In a l -> f a = g a) -> Rsum (map f l) = Rsum (map g l).
Proof.
  intros H. f_equal. now apply map_ext_in.
Qed.

Lemma Rsum_map_le {A : Type} (f g : A -> R) (l : list A) :
  (forall a, In a l -> f a <= g a) -> Rsum (map f l) <= Rsum (map g l).
Proof.
  induction l as [|a l IH]; intros H; simpl; [lra|].
  assert (f a <= g a) by (apply H; now left).
  assert (Rsum (map f l) <= Rsum (map g l)) by (apply IH; intros; apply H; now right).
  lra.
Qed.

Lemma Rsum_map_scal {A : Type} (k : R) (f : A -> R) (l : list A) :
  Rsum (map (fun a => k * f a) l) = k * Rsum (map f l).
Proof.
  induction l as [|a l IH]; simpl; [lra|]. rewrite IH. lra.
Qed.

(** ** [pow] and [/] where they have a real value *)

Lemma Int_part_IZR (n : Z) : Int_part (IZR n) = n.
Proof.
  symmetry. apply Int_part_spec. lra.
Qed.

(** [pow(x, (double) t_pow)] at a positive integral exponent. *)
Lemma pow_integral (x : R) (p : Z) :
  (1 <= p)%Z -> pow x (IZR p) = Ok (ipow x p).
Proof.
  intros Hp. unfold pow, ipow.
  assert (Hp' : 1 <= IZR p) by now apply IZR_le.
  destruct (Req_dec_T (IZR p) 0) as [E|_]; [lra|].
  destruct (Rlt_dec 0 x) as [Hx|Hx].
  - f_equal. rewrite <- (Z2Nat.id p) at 1 by lia.
    rewrite <- INR_IZR_INZ. now apply Rpower_pow.
  - destruct (Req_dec_T x 0) as [->|Hx0].
    + destruct (Rlt_dec 0 (IZR p)); [|lra].
      f_equal. symmetry. apply pow_i. lia.
    + rewrite Int_part_IZR.
      destruct (Req_dec_T (IZR p) (IZR p)); [|congruence].
      f_equal. destruct p; try lia. reflexivity.
Qed.

Lemma fdiv_exponent (p : Z) : (1 <= p)%Z -> fdiv 2 (IZR p) = Ok (2 / IZR p).
Proof.
  intros Hp. unfold fdiv.
  assert (1 <= IZR p) by now apply IZR_le.
  destruct (Req_dec_T (IZR p) 0); [lra|reflexivity].
Qed.

Lemma fdiv_4 (x : R) : fdiv x 4 = Ok (x / 4).
Proof.
  unfold fdiv. destruct (Req_dec_T 4 0); [lra|reflexivity].
Qed.

Lemma exponent_pos (p : Z) : (1 <= p)%Z -> 0 < 2 / IZR p.
Proof.
  intros Hp. assert (1 <= IZR p) by now apply IZR_le.
  apply Rdiv_lt_0_compat; lra.
Qed.

(** [pow(sum, 2.0 / (double) t_pow)] on a sum that is not negative. *)
Lemma normalize_nonneg (p : Z) (s : R) :
  (1 <= p)%Z -> 0 <= s -> normalize p s = Ok (rpow s (2 / IZR p)).
Proof.
  intros Hp Hs. unfold normalize. rewrite fdiv_exponent by assumption.
  simpl. pose proof (exponent_pos p Hp) as He.
  unfold pow, rpow.
  destruct (Req_dec_T (2 / IZR p) 0); [lra|].
  destruct (Rlt_dec 0 s) as [Hs'|Hs'].
  - destruct (Req_dec_T s 0); [lra|reflexivity].
  - destruct (Req_dec_T s 0); [|lra].
    destruct (Rlt_dec 0 (2 / IZR p)); [reflexivity|lra].
Qed.

Lemma ipow_nonneg (x : R) (p : Z) : 0 <= x -> 0 <= ipow x p.
Proof. intros Hx. unfold ipow. now apply pow_le. Qed.

Lemma ipow_0 (p : Z) : (1 <= p)%Z -> ipow 0 p = 0.
Proof. intros Hp. unfold ipow. apply pow_i. lia. Qed.

Lemma ipow_scal (k x : R) (p : Z) : ipow (k * x) p = ipow k p * ipow x p.
Proof. unfold ipow. apply Rpow_mult_distr. Qed.

Lemma rpow_0 (y : R) : rpow 0 y = 0.
Proof. unfold rpow. destruct (Req_dec_T 0 0); [reflexivity|lra]. Qed.

Lemma rpow_1 (s : R) : 0 <= s -> rpow s 1 = s.
Proof.
  intros Hs. unfold rpow. destruct (Req_dec_T s 0) as [->|Hne]; [reflexivity|].
  apply (Rpower_1 s). lra.
Qed.

(** The constant 2 raised to [p] in every term leaves as a factor 4. *)
Lemma rpow_scal_2 (p : Z) (s : R) :
  (1 <= p)%Z -> 0 <= s ->
  rpow (ipow 2 p * s) (2 / IZR p) = 4 * rpow s (2 / IZR p).
Proof.
  intros Hp Hs. unfold rpow.
  assert (H2 : 0 < ipow 2 p) by (unfold ipow; apply pow_lt; lra).
  assert (Hp' : 1 <= IZR p) by now apply IZR_le.
  destruct (Req_dec_T s 0) as [->|Hne].
  - rewrite Rmult_0_r. destruct (Req_dec_T 0 0); lra.
  - destruct (Req_dec_T (ipow 2 p * s) 0) as [E|_]; [nra|].
    change (Rpower (ipow 2 p * s) (2 / IZR p) = 4 * Rpower s (2 / IZR p)).
    rewrite <- Rpower_mult_distr by lra. f_equal.
    unfold ipow. rewrite <- Rpower_pow by lra. rewrite Rpower_mult.
    rewrite INR_IZR_INZ, Z2Nat.id by lia.
    replace (IZR p * (2 / IZR p)) with (INR 2) by (simpl; field; lra).
    rewrite Rpower_pow by lra. lra.
Qed.

(** A loop over an index sequence that reads the axis first. *)
Lemma for_indices_sum (term : nat -> R) (inner : nat -> R -> result R)
    (indices : list nat) :
  (forall i t, In i indices -> inner i t = Ok (t + term i)) ->
  for_range 0 (length indices)
    (fun index sum => dimension <- indices@[index] ;; inner dimension sum) 0
  = Ok (Rsum (map term indices)).
Proof.
  intros Hinner.
  rewrite (for_range_sum (fun index => term (nth index indices O))).
  - now rewrite <- (map_map (fun i => nth i indices O) term), map_nth_seq.
  - intros d t Hd. rewrite (at_nth indices d O Hd). simpl.
    apply Hinner. now apply nth_In.
Qed.

Lemma clamp2_nonneg (l h : R) : 0 <= clamp2 l h.
Proof.
  unfold clamp2. pose proof (Rabs_pos l). pose proof (Rabs_pos h).
  pose proof (Rle_abs (- l)). pose proof (Rle_abs (- h)).
  rewrite Rabs_Ropp in *. lra.
Qed.

Lemma spread2_nonneg (l h : R) : 0 <= l -> 0 <= h -> 0 <= spread2 l h.
Proof.
  intros Hl Hh. unfold spread2. pose proof (Rabs_pos (h - l)). lra.
Qed.

Lemma std_max_Rmax (a b : R) : std_max a b = Rmax a b.
Proof.
  unfold std_max, Rmax.
  destruct (Rlt_dec a b), (Rle_dec a b); lra.
Qed.

Lemma Assert_true (b : bool) : b = true -> Assert b = Ok tt.
Proof. now intros ->. Qed.

(** ** What each distance overload returns *)

(** Run one loop body: the reads are in range, [pow] has an integral
    exponent. *)
Ltac run_cells Hp :=
  rewrite ?(at_nth (A:=Range) _ _ (mkRange 0 0)) by lia;
  rewrite ?(at_nth (A:=R) _ _ 0) by lia;
  simpl; unfold add_clamped, add_lo_hi;
  rewrite ?(pow_integral _ _ Hp); simpl.

Section PointValues.

Variable p : Z.
Hypothesis Hp : (1 <= p)%Z.

Variable B : HRectBound.
Hypothesis HB : length (bounds B) = dim B.

Variable x : vec.
Hypothesis Hx : length x = dim B.

Variable indices : list nat.
Hypothesis Hidx : Forall (fun i => (i < dim B)%nat) indices.

Lemma MinDistance_value : MinDistance p B x = Ok (MinDistance_formula p B x).
Proof.
  unfold MinDistance.
  rewrite Assert_true by now apply Nat.eqb_eq. simpl.
  rewrite (for_range_sum (fun d =>
    ipow (clamp2 (lo (axis B d) - coord x d) (coord x d - hi (axis B d))) p))
    by (intros d t Hd; run_cells Hp; reflexivity).
  simpl. unfold axis, coord. rewrite <- HB.
  rewrite (map_seq_combine
    (fun bd xd => ipow (clamp2 (lo bd - xd) (xd - hi bd)) p))
    by lia.
  rewrite normalize_nonneg; [simpl; apply fdiv_4 | assumption |].
  apply Rsum_map_nonneg. intros a. apply ipow_nonneg, clamp2_nonneg.
Qed.

Lemma MaxDistance_value : MaxDistance p B x = Ok (MaxDistance_formula p B x).
Proof.
  unfold MaxDistance.
  rewrite Assert_true by now apply Nat.eqb_eq. simpl.
  rewrite (for_range_sum (fun d =>
    ipow (Rabs (Rmax (coord x d - lo (axis B d)) (hi (axis B d) - coord x d))) p))
    by (intros d t Hd; run_cells Hp; unfold fabs; rewrite std_max_Rmax;
        run_cells Hp; reflexivity).
  simpl. unfold axis, coord. rewrite <- HB.
  rewrite (map_seq_combine
    (fun bd xd => ipow (Rabs (Rmax (xd - lo bd) (hi bd - xd))) p))
    by lia.
  apply normalize_nonneg; [assumption|].
  apply Rsum_map_nonneg. intros a. apply ipow_nonneg, Rabs_pos.
Qed.

Lemma MinDistance_filtered_value :
  MinDistance_filtered p B x indices
  = Ok (MinDistance_filtered_formula p B x indices).
Proof.
  unfold MinDistance_filtered.
  rewrite Assert_true by now apply Nat.eqb_eq. simpl.
  rewrite (for_indices_sum (fun i =>
    ipow (clamp2 (lo (axis B i) - coord x i) (coord x i - hi (axis B i))) p))
    by (intros i t Hi; apply (proj1 (Forall_forall _ _) Hidx) in Hi; run_cells Hp; reflexivity).
  simpl.
  rewrite normalize_nonneg; [simpl; apply fdiv_4 | assumption |].
  apply Rsum_map_nonneg. intros a. apply ipow_nonneg, clamp2_nonneg.
Qed.

Lemma MaxDistance_filtered_value :
  MaxDistance_filtered p B x indices
  = Ok (MaxDistance_filtered_formula p B x indices).
Proof.
  unfold MaxDistance_filtered.
  rewrite Assert_true by now apply Nat.eqb_eq. simpl.
  rewrite (for_indices_sum (fun i =>
    ipow (spread2 (Rabs (coord x i - lo (axis B i)))
                  (Rabs (coord x i - hi (axis B i)))) p))
    by (intros i t Hi; apply (proj1 (Forall_forall _ _) Hidx) in Hi; run_cells Hp; reflexivity).
  simpl.
  rewrite normalize_nonneg; [simpl; apply fdiv_4 | assumption |].
  apply Rsum_map_nonneg. intros a.
  apply ipow_nonneg, spread2_nonneg; apply Rabs_pos.
Qed.

End PointValues.

Section BoundValues.

Variable p : Z.
Hypothesis Hp : (1 <= p)%Z.

Variables B other : HRectBound.
Hypothesis HB : length (bounds B) = dim B.
Hypothesis HO : length (bounds other) = dim other.
Hypothesis Hd : dim B = dim other.

Variable indices : list nat.
Hypothesis Hidx : Forall (fun i => (i < dim B)%nat) indices.

Lemma MinDistance_bound_value :
  MinDistance_bound p B other = Ok (MinDistance_bound_formula p B other).
Proof.
  unfold MinDistance_bound.
  rewrite Assert_true by now apply Nat.eqb_eq. simpl.
  rewrite (for_range_sum (fun d =>
    ipow (clamp2 (lo (axis other d) - hi (axis B d))
                 (lo (axis B d) - hi (axis other d))) p))
    by (intros d t Hlt; run_cells Hp; reflexivity).
  simpl. unfold axis. rewrite <- HB.
  rewrite (map_seq_combine
    (fun mb ob => ipow (clamp2 (lo ob - hi mb) (lo mb - hi ob)) p))
    by lia.
  rewrite normalize_nonneg; [simpl; apply fdiv_4 | assumption |].
  apply Rsum_map_nonneg. intros a. apply ipow_nonneg, clamp2_nonneg.
Qed.

Lemma MaxDistance_bound_value :
  MaxDistance_bound p B other = Ok (MaxDistance_bound_formula p B other).
Proof.
  unfold MaxDistance_bound.
  rewrite Assert_true by now apply Nat.eqb_eq. simpl.
  rewrite (for_range_sum (fun d =>
    ipow (Rabs (Rmax (hi (axis other d) - lo (axis B d))
                     (hi (axis B d) - lo (axis other d)))) p))
    by (intros d t Hlt; run_cells Hp; unfold fabs; rewrite std_max_Rmax;
        run_cells Hp; reflexivity).
  simpl. unfold axis. rewrite <- HB.
  rewrite (map_seq_combine
    (fun mb ob => ipow (Rabs (Rmax (hi ob - lo mb) (hi mb - lo ob))) p))
    by lia.
  apply normalize_nonneg; [assumption|].
  apply Rsum_map_nonneg. intros a. apply ipow_nonneg, Rabs_pos.
Qed.

Lemma MinDistance_bound_filtered_value :
  MinDistance_bound_filtered p B other indices
  = Ok (MinDistance_bound_filtered_formula p B other indices).
Proof.
  unfold MinDistance_bound_filtered.
  rewrite Assert_true by now apply Nat.eqb_eq. simpl.
  rewrite (for_indices_sum (fun i =>
    ipow (clamp2 (lo (axis B i) - hi (axis other i))
                 (lo (axis other i) - hi (axis B i))) p))
    by (intros i t Hi; apply (proj1 (Forall_forall _ _) Hidx) in Hi; run_cells Hp; reflexivity).
  simpl.
  rewrite normalize_nonneg; [simpl; apply fdiv_4 | assumption |].
  apply Rsum_map_nonneg. intros a. apply ipow_nonneg, clamp2_nonneg.
Qed.

Lemma MaxDistance_bound_filtered_value :
  MaxDistance_bound_filtered p B other indices
  = Ok (MaxDistance_bound_filtered_formula p B other indices).
Proof.
  unfold MaxDistance_bound_filtered.
  rewrite Assert_true by (apply Nat.eqb_eq; lia). simpl.
  rewrite (for_indices_sum (fun i =>
    ipow (spread2 (Rabs (hi (axis other i) - lo (axis B i)))
                  (Rabs (lo (axis other i) - hi (axis B i)))) p))
    by (intros i t Hi; apply (proj1 (Forall_forall _ _) Hidx) in Hi; run_cells Hp; reflexivity).
  simpl.
  rewrite normalize_nonneg; [simpl; apply fdiv_4 | assumption |].
  apply Rsum_map_nonneg. intros a.
  apply ipow_nonneg, spread2_nonneg; apply Rabs_pos.
Qed.

End BoundValues.

(** ** Per-axis facts *)

Ltac real_cases :=
  unfold clamp2, spread2, clamp, fabs, std_max, std_min, Rmax, Rmin, Rabs;
  repeat match goal with
         | |- context [Rcase_abs ?x] => destruct (Rcase_abs x)
         | |- context [Rle_dec ?x ?y] => destruct (Rle_dec x y)
         | |- context [Rlt_dec ?x ?y] => destruct (Rlt_dec x y)
         | |- context [Rgt_dec ?x ?y] => destruct (Rgt_dec x y)
         | |- context [Rge_dec ?x ?y] => destruct (Rge_dec x y)
         | H : context [Rle_dec ?x ?y] |- _ => destruct (Rle_dec x y)
         | H : context [Rlt_dec ?x ?y] |- _ => destruct (Rlt_dec x y)
         end;
  simpl in *; try lra.

Lemma wf_axis (B : HRectBound) (d : nat) :
  well_formed B -> (d < length (bounds B))%nat -> lo (axis B d) <= hi (axis B d).
Proof.
  intros Hwf Hd. unfold axis.
  exact (proj1 (Forall_nth _ _) Hwf d (mkRange 0 0) Hd).
Qed.

(** [|h - l| + h + l] is twice the larger of [l] and [h]. *)
Lemma spread2_half (l h : R) : spread2 l h / 2 = Rmax l h.
Proof. real_cases. Qed.

Section Halving.

Variable p : Z.
Hypothesis Hp : (1 <= p)%Z.

(** Doubling every per-axis value is undone by the closing division by 4. *)
Lemma rpow_quarter {A : Type} (f : A -> R) (l : list A) :
  (forall a, 0 <= f a) ->
  rpow (Rsum (map (fun a => ipow (f a) p) l)) (2 / IZR p) / 4
  = rpow (Rsum (map (fun a => ipow (f a / 2) p) l)) (2 / IZR p).
Proof.
  intros Hf.
  rewrite (Rsum_map_ext_in (fun a => ipow (f a) p)
                           (fun a => ipow 2 p * ipow (f a / 2) p)).
  - rewrite Rsum_map_scal, rpow_scal_2; [lra | assumption |].
    apply Rsum_map_nonneg. intros a. apply ipow_nonneg.
    specialize (Hf a). lra.
  - intros a _. rewrite <- ipow_scal. f_equal. field.
Qed.

Variable B : HRectBound.
Hypothesis HB : length (bounds B) = dim B.
Hypothesis WB : well_formed B.

(** [RangeDistance(point)] in one pass: the low sum collects half of the
    clamped term of [MinDistance], the high sum the term of [MaxDistance]. *)
Lemma RangeDistance_value (x : vec) :
  length x = dim B ->
  RangeDistance p B x
  = Ok (mkRange
          (rpow (axis_sum (fun bd xd =>
                   ipow (clamp2 (lo bd - xd) (xd - hi bd) / 2) p) B x) (2 / IZR p))
          (MaxDistance_formula p B x)).
Proof.
  intros Hx. unfold RangeDistance.
  rewrite Assert_true by now apply Nat.eqb_eq. simpl.
  rewrite (for_range_sum2
    (fun d => ipow (clamp2 (lo (axis B d) - coord x d)
                           (coord x d - hi (axis B d)) / 2) p)
    (fun d => ipow (Rabs (Rmax (coord x d - lo (axis B d))
                               (hi (axis B d) - coord x d))) p)).
  - simpl. unfold range_of_sums, MaxDistance_formula, axis_sum, axis, coord.
    simpl. rewrite <- HB.
    rewrite (map_seq_combine
      (fun bd xd => ipow (clamp2 (lo bd - xd) (xd - hi bd) / 2) p))
      by lia.
    rewrite (map_seq_combine
      (fun bd xd => ipow (Rabs (Rmax (xd - lo bd) (hi bd - xd))) p))
      by lia.
    rewrite !normalize_nonneg; trivial.
    + apply Rsum_map_nonneg. intros a. apply ipow_nonneg, Rabs_pos.
    + apply Rsum_map_nonneg. intros a. apply ipow_nonneg.
      pose proof (clamp2_nonneg (lo (fst a) - snd a) (snd a - hi (fst a))). lra.
  - intros d t Hd.
    assert (Hw : lo (axis B d) <= hi (axis B d))
      by (apply wf_axis; [assumption | lia]).
    run_cells Hp. fold (axis B d) (coord x d).
    set (l := lo (axis B d)) in *. set (h := hi (axis B d)) in *.
    set (c := coord x d).
    destruct (Rge_dec (l - c) 0); [|destruct (Rge_dec (c - h) 0)]; run_cells Hp.
    + replace (l - c) with (clamp2 (l - c) (c - h) / 2) at 1 by real_cases.
      replace (- (c - h)) with (Rabs (Rmax (c - l) (h - c))) by real_cases.
      reflexivity.
    + replace (c - h) with (clamp2 (l - c) (c - h) / 2) at 1 by real_cases.
      replace (- (l - c)) with (Rabs (Rmax (c - l) (h - c))) by real_cases.
      reflexivity.
    + replace 0 with (clamp2 (l - c) (c - h) / 2) at 1 by real_cases.
      replace (- std_min (l - c) (c - h))
        with (Rabs (Rmax (c - l) (h - c))) by real_cases.
      reflexivity.
Qed.

Variable other : HRectBound.
Hypothesis HO : length (bounds other) = dim other.
Hypothesis WO : well_formed other.

(** [RangeDistance(other)] in one pass, in the same way. *)
Lemma RangeDistance_bound_value :
  dim B = dim other ->
  RangeDistance_bound p B other
  = Ok (mkRange
          (rpow (axis_sum2 (fun mb ob =>
                   ipow (clamp2 (lo ob - hi mb) (lo mb - hi ob) / 2) p) B other)
                (2 / IZR p))
          (MaxDistance_bound_formula p B other)).
Proof.
  intros Hd. unfold RangeDistance_bound.
  rewrite Assert_true by now apply Nat.eqb_eq. simpl.
  rewrite (for_range_sum2
    (fun d => ipow (clamp2 (lo (axis other d) - hi (axis B d))
                           (lo (axis B d) - hi (axis other d)) / 2) p)
    (fun d => ipow (Rabs (Rmax (hi (axis other d) - lo (axis B d))
                               (hi (axis B d) - lo (axis other d)))) p)).
  - simpl. unfold range_of_sums, MaxDistance_bound_formula, axis_sum2, axis.
    simpl. rewrite <- HB.
    rewrite (map_seq_combine
      (fun mb ob => ipow (clamp2 (lo ob - hi mb) (lo mb - hi ob) / 2) p))
      by lia.
    rewrite (map_seq_combine
      (fun mb ob => ipow (Rabs (Rmax (hi ob - lo mb) (hi mb - lo ob))) p))
      by lia.
    rewrite !normalize_nonneg; trivial.
    + apply Rsum_map_nonneg. intros a. apply ipow_nonneg, Rabs_pos.
    + apply Rsum_map_nonneg. intros a. apply ipow_nonneg.
      pose proof (clamp2_nonneg (lo (snd a) - hi (fst a))
                                (lo (fst a) - hi (snd a))). lra.
  - intros d t Hlt.
    assert (Hw : lo (axis B d) <= hi (axis B d))
      by (apply wf_axis; [assumption | lia]).
    assert (Hw' : lo (axis other d) <= hi (axis other d))
      by (apply wf_axis; [assumption | lia]).
    run_cells Hp. fold (axis B d) (axis other d).
    set (ml := lo (axis B d)) in *. set (mh := hi (axis B d)) in *.
    set (ol := lo (axis other d)) in *. set (oh := hi (axis other d)) in *.
    destruct (Rge_dec (ol - mh) (ml - oh)); run_cells Hp.
    + replace (if Rgt_dec (ol - mh) 0 then ol - mh else 0)
        with (clamp2 (ol - mh) (ml - oh) / 2) by real_cases.
      replace (- (ml - oh)) with (Rabs (Rmax (oh - ml) (mh - ol))) by real_cases.
      reflexivity.
    + replace (if Rgt_dec (ml - oh) 0 then ml - oh else 0)
        with (clamp2 (ol - mh) (ml - oh) / 2) by real_cases.
      replace (- (ol - mh)) with (Rabs (Rmax (oh - ml) (mh - ol))) by real_cases.
      reflexivity.
Qed.

End Halving.

(** ** Sums over the axes, cell by cell *)

Lemma axis_sum_seq (term : Range -> R -> R) (B : HRectBound) (x : vec) :
  length (bounds B) = length x ->
  axis_sum term B x
  = Rsum (map (fun d => term (axis B d) (coord x d)) (seq 0 (length x))).
Proof.
  intros Hlen. unfold axis_sum, axis, coord. rewrite <- Hlen.
  now rewrite (map_seq_combine term).
Qed.

Lemma axis_sum2_seq (term : Range -> Range -> R) (A B : HRectBound) :
  length (bounds A) = length (bounds B) ->
  axis_sum2 term A B
  = Rsum (map (fun d => term (axis A d) (axis B d)) (seq 0 (length (bounds A)))).
Proof.
  intros Hlen. unfold axis_sum2, axis.
  now rewrite (map_seq_combine term).
Qed.

(** ** [Contains] *)

Lemma Range_Contains_true (r : Range) (c : R) :
  Range_Contains r c = true <-> lo r <= c <= hi r.
Proof.
  unfold Range_Contains.
  destruct (Rle_dec (lo r) c), (Rle_dec c (hi r)); split;
    intros H; try discriminate; try reflexivity; lra.
Qed.

Lemma Contains_from_true (B : HRectBound) (y : vec) :
  forall count i,
    Contains_from B y i count = Ok true ->
    forall d, (i <= d < i + count)%nat ->
      (d < length (bounds B))%nat /\ (d < length y)%nat
      /\ lo (axis B d) <= coord y d <= hi (axis B d).
Proof.
  induction count as [|k IH]; intros i H d Hd; [lia|].
  simpl in H.
  destruct ((bounds B)@[i]) as [bi|] eqn:Eb; [|discriminate].
  destruct (y@[i]) as [yi|] eqn:Ey; [|discriminate].
  simpl in H.
  destruct (Range_Contains bi yi) eqn:Ec; simpl in H; [|discriminate].
  apply at_Ok_inv in Eb as [Hb Hbv]. apply at_Ok_inv in Ey as [Hy Hyv].
  destruct (Nat.eq_dec d i) as [->|Hne].
  - repeat split; trivial; unfold axis, coord; rewrite Hbv, Hyv;
      now apply Range_Contains_true in Ec.
  - apply (IH (S i)); [assumption|lia].
Qed.

Lemma Contains_from_intro (B : HRectBound) (y : vec) :
  forall count i,
    (i + count <= length (bounds B))%nat -> (i + count <= length y)%nat ->
    (forall d, (i <= d < i + count)%nat ->
       lo (axis B d) <= coord y d <= hi (axis B d)) ->
    Contains_from B y i count = Ok true.
Proof.
  induction count as [|k IH]; intros i Hb Hy H; [reflexivity|].
  simpl.
  rewrite (at_nth (bounds B) i (mkRange 0 0)) by lia.
  rewrite (at_nth y i 0) by lia. simpl.
  fold (axis B i) (coord y i).
  rewrite (proj2 (Range_Contains_true _ _)) by (apply H; lia).
  simpl. apply IH; try lia. intros d Hd. apply H. lia.
Qed.

Lemma in_bound_axis (B : HRectBound) (y : vec) (d : nat) :
  in_bound B y -> (d < dim B)%nat -> lo (axis B d) <= coord y d <= hi (axis B d).
Proof.
  intros [Hlen Hc] Hd. unfold Contains in Hc.
  apply (Contains_from_true B y _ _ Hc d). lia.
Qed.

(** ** Main theorems *)

(** C8. The capability descriptor of the binary space tree reports
    HasOverlappingChildren = false, FirstPointIsCentroid = false,
    HasSelfChildren = false, RearrangesDataset = true and BinaryTree = true. *)
Theorem TreeTraits_BinarySpaceTree_values :
  HasOverlappingChildren TreeTraits_BinarySpaceTree = false
  /\ FirstPointIsCentroid TreeTraits_BinarySpaceTree = false
  /\ HasSelfChildren TreeTraits_BinarySpaceTree = false
  /\ RearrangesDataset TreeTraits_BinarySpaceTree = true
  /\ BinaryTree TreeTraits_BinarySpaceTree = true.
Proof. repeat split. Qed.

Lemma rpow_exponent_2 (s : R) : 0 <= s -> rpow s (2 / IZR 2) = s.
Proof.
  intros Hs. replace (2 / 2) with 1 by lra. now apply rpow_1.
Qed.

Lemma ipow_2 (x : R) : ipow x 2 = x * x.
Proof. unfold ipow. simpl. lra. Qed.

(** C1. For a bound with well-formed axis intervals and a point with [dim]
    coordinates, [MinDistance(point)] returns
    [(sum over axes of ((lower+|lower|)+(higher+|higher|))^p)^(2/p) / 4] with
    [lower = lo - x] and [higher = x - hi]; the result is 0 when the point is
    contained in the bound on every axis; and for [p = 2], the box
    [[0,10]x[0,10]] and the point [(15,5)] it is 25. *)
Theorem MinDistance_point_spec (p : Z) (B : HRectBound) (x : vec) :
  (1 <= p)%Z -> allocated B -> well_formed B -> length x = dim B ->
  MinDistance p B x = Ok (MinDistance_formula p B x)
  /\ (Contains B x = Ok true -> MinDistance p B x = Ok 0)
  /\ MinDistance 2 box10 [15; 5] = Ok 25.
Proof.
  intros Hp HB _ Hx. unfold allocated in HB. split; [|split].
  - now apply MinDistance_value.
  - intros Hc. rewrite MinDistance_value by assumption. f_equal.
    unfold MinDistance_formula.
    rewrite axis_sum_seq by lia.
    rewrite (Rsum_map_ext_in _ (fun _ => 0 * 0)).
    + rewrite Rsum_map_scal, Rmult_0_l, rpow_0. lra.
    + intros d Hd. apply in_seq in Hd.
      destruct (in_bound_axis B x d (conj Hx Hc)) as [H1 H2]; [lia|].
      replace (clamp2 _ _) with 0 by real_cases.
      rewrite ipow_0 by assumption. lra.
  - rewrite MinDistance_value by (reflexivity || lia). f_equal.
    unfold MinDistance_formula, axis_sum. simpl.
    rewrite !ipow_2.
    replace (clamp2 (0 - 15) (15 - 10)) with 10 by real_cases.
    replace (clamp2 (0 - 5) (5 - 10)) with 0 by real_cases.
    rewrite rpow_exponent_2; lra.
Qed.

(** C3. For a bound with well-formed axis intervals and a point with [dim]
    coordinates, the unfiltered [MaxDistance(point)] returns
    [(sum over axes of |max(x - lo, hi - x)|^p)^(2/p)], not divided by 4; for
    [p = 2], the box [[0,10]x[0,10]] and the point [(15,5)] it is 250. *)
Theorem MaxDistance_point_spec (p : Z) (B : HRectBound) (x : vec) :
  (1 <= p)%Z -> allocated B -> well_formed B -> length x = dim B ->
  MaxDistance p B x = Ok (MaxDistance_formula p B x)
  /\ MaxDistance 2 box10 [15; 5] = Ok 250.
Proof.
  intros Hp HB _ Hx. split.
  - now apply MaxDistance_value.
  - rewrite MaxDistance_value by (reflexivity || lia). f_equal.
    unfold MaxDistance_formula, axis_sum. simpl.
    rewrite !ipow_2.
    replace (Rabs (Rmax (15 - 0) (10 - 15))) with 15 by real_cases.
    replace (Rabs (Rmax (5 - 0) (10 - 5))) with 5 by real_cases.
    rewrite rpow_exponent_2; lra.
Qed.

(** C4. For every bound, every operand (a point with [dim] coordinates or a
    bound of equal [dim]) and every sequence of axis indices below [dim], the
    filtered [MaxDistance] overloads return
    [(sum over the selected axes of (|higher-lower| + higher + lower)^p)^(2/p) / 4],
    with [lower = |point[i]-lo|], [higher = |point[i]-hi|] in the point form and
    [lower = |other.hi-this.lo|], [higher = |other.lo-this.hi|] in the bound
    form. *)
Theorem MaxDistance_filtered_spec (p : Z) (B other : HRectBound) (x : vec)
    (indices : list nat) :
  (1 <= p)%Z -> allocated B -> allocated other ->
  length x = dim B -> dim other = dim B ->
  Forall (fun i => (i < dim B)%nat) indices ->
  MaxDistance_filtered p B x indices
  = Ok (rpow (Rsum (map (fun i =>
                let lower := Rabs (coord x i - lo (axis B i)) in
                let higher := Rabs (coord x i - hi (axis B i)) in
                ipow (Rabs (higher - lower) + higher + lower) p) indices))
             (2 / IZR p) / 4)
  /\ MaxDistance_bound_filtered p B other indices
     = Ok (rpow (Rsum (map (fun i =>
                   let lower := Rabs (hi (axis other i) - lo (axis B i)) in
                   let higher := Rabs (lo (axis other i) - hi (axis B i)) in
                   ipow (Rabs (higher - lower) + higher + lower) p) indices))
                (2 / IZR p) / 4).
Proof.
  intros Hp HB HO Hx Hd Hidx. split.
  - now apply MaxDistance_filtered_value.
  - apply MaxDistance_bound_filtered_value; auto.
Qed.

(** C5, as amended. Under exact real arithmetic, for two bounds of equal
    dimensionality with well-formed axis intervals, and for a bound with
    well-formed axis intervals and a point of matching dimensionality,
    [RangeDistance] returns the pair of the values that the unfiltered
    [MinDistance] and [MaxDistance] overloads return on the same arguments.
    The point form does need the well-formed intervals of its bound: both
    branches of the source take at most one of [v1], [v2] to be positive. *)
Theorem RangeDistance_consistent (p : Z) (B other : HRectBound) (x : vec) :
  (1 <= p)%Z -> allocated B -> allocated other ->
  well_formed B -> well_formed other ->
  dim B = dim other -> length x = dim B ->
  (exists m M,
      MinDistance_bound p B other = Ok m
      /\ MaxDistance_bound p B other = Ok M
      /\ RangeDistance_bound p B other = Ok (mkRange m M))
  /\ (exists m M,
         MinDistance p B x = Ok m
         /\ MaxDistance p B x = Ok M
         /\ RangeDistance p B x = Ok (mkRange m M)).
Proof.
  intros Hp HB HO WB WO Hd Hx. unfold allocated in *. split.
  - exists (MinDistance_bound_formula p B other),
           (MaxDistance_bound_formula p B other).
    repeat split.
    + now apply MinDistance_bound_value.
    + now apply MaxDistance_bound_value.
    + rewrite RangeDistance_bound_value by assumption. do 2 f_equal.
      unfold MinDistance_bound_formula, axis_sum2. symmetry.
      apply (rpow_quarter p Hp
               (fun ax => clamp2 (lo (snd ax) - hi (fst ax))
                                 (lo (fst ax) - hi (snd ax)))).
      intros a. apply clamp2_nonneg.
  - exists (MinDistance_formula p B x), (MaxDistance_formula p B x).
    repeat split.
    + now apply MinDistance_value.
    + now apply MaxDistance_value.
    + rewrite RangeDistance_value by assumption. do 2 f_equal.
      unfold MinDistance_formula, axis_sum. symmetry.
      apply (rpow_quarter p Hp
               (fun ax => clamp2 (lo (fst ax) - snd ax) (snd ax - hi (fst ax)))).
      intros a. apply clamp2_nonneg.
Qed.

(** The point form needs the well-formed interval: on the interval with
    [lo = 5] and [hi = 3] and the point 4 between them, both [lower] and
    [higher] are positive, and [RangeDistance] keeps only the first. *)
Lemma RangeDistance_point_inverted :
  RangeDistance 2 box_inverted [4] = Ok (mkRange 1 1)
  /\ MinDistance 2 box_inverted [4] = Ok 4
  /\ MaxDistance 2 box_inverted [4] = Ok 1.
Proof.
  split; [|split].
  - unfold RangeDistance, box_inverted. simpl.
    destruct (Rge_dec (5 - 4) 0); [|lra].
    unfold add_lo_hi. rewrite !(pow_integral _ 2) by lia. simpl.
    unfold range_of_sums. simpl. rewrite !ipow_2.
    rewrite !normalize_nonneg by (lia || lra).
    simpl. rewrite !rpow_exponent_2 by lra.
    f_equal. f_equal; lra.
  - rewrite MinDistance_value by (reflexivity || lia). f_equal.
    unfold MinDistance_formula, axis_sum. simpl. rewrite ipow_2.
    replace (clamp2 (5 - 4) (4 - 3)) with 4 by real_cases.
    rewrite rpow_exponent_2; lra.
  - rewrite MaxDistance_value by (reflexivity || lia). f_equal.
    unfold MaxDistance_formula, axis_sum. simpl. rewrite ipow_2.
    replace (Rabs (Rmax (4 - 5) (3 - 4))) with 1 by real_cases.
    rewrite rpow_exponent_2; lra.
Qed.

(** C5 as stated, without well-formed intervals in the point form, fails: the
    bound with the one interval [lo = 5], [hi = 3] and the point 4 have
    matching dimensionality, [RangeDistance] returns the range (1, 1), and
    [MinDistance] returns 4. *)
Lemma RangeDistance_consistent_counterexample :
  allocated box_inverted
  /\ length [4] = dim box_inverted
  /\ RangeDistance 2 box_inverted [4] = Ok (mkRange 1 1)
  /\ MinDistance 2 box_inverted [4] = Ok 4
  /\ ~ (exists m M,
          MinDistance 2 box_inverted [4] = Ok m
          /\ MaxDistance 2 box_inverted [4] = Ok M
          /\ RangeDistance 2 box_inverted [4] = Ok (mkRange m M)).
Proof.
  destruct RangeDistance_point_inverted as (Hr & Hm & _).
  split; [reflexivity|]. split; [reflexivity|].
  split; [exact Hr|]. split; [exact Hm|].
  intros (m & M & Hm' & _ & Hr').
  rewrite Hm in Hm'. rewrite Hr in Hr'.
  injection Hm' as <-. injection Hr' as Hlo _. lra.
Qed.

Lemma normalize_0 (p : Z) : (1 <= p)%Z -> normalize p 0 = Ok 0.
Proof.
  intros Hp. rewrite normalize_nonneg by (assumption || lra).
  now rewrite rpow_0.
Qed.

Lemma quarter_0 : fdiv 0 4 = Ok 0.
Proof. rewrite fdiv_4. f_equal. lra. Qed.

(** C7. Degenerate inputs give zero and no fault: every filtered
    [MinDistance] and [MaxDistance] overload returns 0 on an empty index
    sequence, and every distance overload returns 0 on a bound with
    [dim = 0] and an operand with no coordinates ([RangeDistance] the range
    of 0 and 0). *)
Theorem degenerate_inputs_zero (p : Z) (B other : HRectBound) (x : vec) :
  (1 <= p)%Z -> length x = dim B -> dim other = dim B ->
  (MinDistance_filtered p B x [] = Ok 0
   /\ MinDistance_bound_filtered p B other [] = Ok 0
   /\ MaxDistance_filtered p B x [] = Ok 0
   /\ MaxDistance_bound_filtered p B other [] = Ok 0)
  /\ (dim B = 0%nat ->
      MinDistance p B x = Ok 0
      /\ MinDistance_bound p B other = Ok 0
      /\ MaxDistance p B x = Ok 0
      /\ MaxDistance_bound p B other = Ok 0
      /\ RangeDistance p B x = Ok (mkRange 0 0)
      /\ RangeDistance_bound p B other = Ok (mkRange 0 0)).
Proof.
  intros Hp Hx Hd.
  assert (Hx' : (length x =? dim B)%nat = true) by now apply Nat.eqb_eq.
  assert (Hd' : (dim other =? dim B)%nat = true) by now apply Nat.eqb_eq.
  assert (Hd'' : (dim B =? dim other)%nat = true) by (apply Nat.eqb_eq; lia).
  split.
  - unfold MinDistance_filtered, MinDistance_bound_filtered,
      MaxDistance_filtered, MaxDistance_bound_filtered.
    rewrite Hx', Hd', Hd''. simpl.
    rewrite normalize_0 by assumption. simpl.
    repeat split; apply quarter_0.
  - intros H0.
    unfold MinDistance, MinDistance_bound, MaxDistance, MaxDistance_bound,
      RangeDistance, RangeDistance_bound, range_of_sums.
    rewrite Hx', Hd'', H0. simpl.
    rewrite normalize_0 by assumption. simpl.
    repeat split; apply quarter_0.
Qed.

Lemma Rmax_abs_point (l h c : R) :
  l <= h -> Rmax (Rabs (c - l)) (Rabs (c - h)) = Rabs (Rmax (c - l) (h - c)).
Proof. intros H. real_cases. Qed.

Lemma Rmax_abs_bound (ml mh ol oh : R) :
  ml <= mh -> ol <= oh ->
  Rmax (Rabs (oh - ml)) (Rabs (ol - mh)) = Rabs (Rmax (oh - ml) (mh - ol)).
Proof. intros H1 H2. real_cases. Qed.

(** C9. For bounds with well-formed axis intervals, a filtered
    [MaxDistance] overload called with an index sequence that enumerates
    every axis [0..dim-1] exactly once returns the value of the unfiltered
    overload on the same operands: the factor 2 of the per-axis term
    [|higher-lower| + higher + lower = 2 * max(lower, higher)] is cancelled by
    the closing division by 4. *)
Theorem MaxDistance_filtered_all_axes (p : Z) (B other : HRectBound) (x : vec)
    (indices : list nat) :
  (1 <= p)%Z -> allocated B -> allocated other ->
  well_formed B -> well_formed other ->
  length x = dim B -> dim other = dim B ->
  Permutation indices (seq 0 (dim B)) ->
  (exists M, MaxDistance p B x = Ok M
             /\ MaxDistance_filtered p B x indices = Ok M)
  /\ (exists M, MaxDistance_bound p B other = Ok M
                /\ MaxDistance_bound_filtered p B other indices = Ok M).
Proof.
  intros Hp HB HO WB WO Hx Hd Hperm. unfold allocated in *.
  assert (Hidx : Forall (fun i => (i < dim B)%nat) indices).
  { apply Forall_forall. intros i Hi.
    apply (Permutation_in _ Hperm), in_seq in Hi. lia. }
  split.
  - exists (MaxDistance_formula p B x). split.
    + now apply MaxDistance_value.
    + rewrite MaxDistance_filtered_value by assumption. f_equal.
      unfold MaxDistance_filtered_formula, MaxDistance_formula.
      rewrite (rpow_quarter p Hp
        (fun i => spread2 (Rabs (coord x i - lo (axis B i)))
                          (Rabs (coord x i - hi (axis B i)))))
        by (intros i; apply spread2_nonneg; apply Rabs_pos).
      f_equal. rewrite axis_sum_seq by lia.
      rewrite (Rsum_Permutation _ _ (Permutation_map _ Hperm)).
      rewrite Hx. apply Rsum_map_ext_in. intros d Hin.
      apply in_seq in Hin. f_equal.
      rewrite spread2_half. apply Rmax_abs_point, wf_axis; [assumption|lia].
  - exists (MaxDistance_bound_formula p B other). split.
    + apply MaxDistance_bound_value; auto.
    + rewrite MaxDistance_bound_filtered_value by auto. f_equal.
      unfold MaxDistance_bound_filtered_formula, MaxDistance_bound_formula.
      rewrite (rpow_quarter p Hp
        (fun i => spread2 (Rabs (hi (axis other i) - lo (axis B i)))
                          (Rabs (lo (axis other i) - hi (axis B i)))))
        by (intros i; apply spread2_nonneg; apply Rabs_pos).
      f_equal. rewrite axis_sum2_seq by lia.
      rewrite (Rsum_Permutation _ _ (Permutation_map _ Hperm)).
      rewrite HB. apply Rsum_map_ext_in. intros d Hin.
      apply in_seq in Hin. f_equal.
      rewrite spread2_half.
      apply Rmax_abs_bound; apply wf_axis; solve [assumption|lia].
Qed.

(** C10. Bound-to-bound [MinDistance] and [MaxDistance] are symmetric: for
    two bounds [a] and [b] of equal dimensionality, [a.MinDistance(b)] and
    [b.MinDistance(a)] return the same value, and so do [a.MaxDistance(b)]
    and [b.MaxDistance(a)]. *)
Theorem bound_distances_symmetric (p : Z) (a b : HRectBound) :
  (1 <= p)%Z -> allocated a -> allocated b -> dim a = dim b ->
  (exists m, MinDistance_bound p a b = Ok m /\ MinDistance_bound p b a = Ok m)
  /\ (exists M, MaxDistance_bound p a b = Ok M /\ MaxDistance_bound p b a = Ok M).
Proof.
  intros Hp Ha Hb Hd. unfold allocated in *. split.
  - exists (MinDistance_bound_formula p a b). split.
    + now apply MinDistance_bound_value.
    + rewrite MinDistance_bound_value by auto. f_equal.
      unfold MinDistance_bound_formula. do 2 f_equal.
      rewrite !axis_sum2_seq by lia.
      replace (length (bounds b)) with (length (bounds a)) by lia.
      apply Rsum_map_ext_in. intros d _. f_equal. unfold clamp2. lra.
  - exists (MaxDistance_bound_formula p a b). split.
    + now apply MaxDistance_bound_value.
    + rewrite MaxDistance_bound_value by auto. f_equal.
      unfold MaxDistance_bound_formula. f_equal.
      rewrite !axis_sum2_seq by lia.
      replace (length (bounds b)) with (length (bounds a)) by lia.
      apply Rsum_map_ext_in. intros d _. do 2 f_equal. apply Rmax_comm.
Qed.

(** ** The nearest point of a box *)

Lemma sqdist_seq (x y : vec) :
  length x = length y ->
  sqdist x y
  = Rsum (map (fun d => (coord x d - coord y d) ^ 2) (seq 0 (length x))).
Proof.
  intros Hlen. unfold sqdist, coord.
  now rewrite (map_seq_combine (fun a b => (a - b) ^ 2)).
Qed.

Lemma nearest_point_length (B : HRectBound) (x : vec) :
  length (bounds B) = length x -> length (nearest_point B x) = length x.
Proof.
  intros Hlen. unfold nearest_point.
  rewrite length_map, length_combine. lia.
Qed.

Lemma nearest_point_coord (B : HRectBound) (x : vec) (d : nat) :
  length (bounds B) = length x -> (d < length x)%nat ->
  coord (nearest_point B x) d = clamp (axis B d) (coord x d).
Proof.
  intros Hlen Hd. unfold coord, nearest_point, axis.
  rewrite (nth_indep _ 0 (clamp (fst (mkRange 0 0, 0)) (snd (mkRange 0 0, 0))))
    by (rewrite length_map, length_combine; lia).
  rewrite (map_nth (fun ax => clamp (fst ax) (snd ax))).
  now rewrite combine_nth.
Qed.

Lemma clamp_inside (r : Range) (c : R) :
  lo r <= hi r -> lo r <= clamp r c <= hi r.
Proof. intros H. real_cases. Qed.

Lemma pow2_le_abs (a b : R) : Rabs a <= Rabs b -> a ^ 2 <= b ^ 2.
Proof.
  intros H. rewrite <- !Rsqr_pow2. now apply Rsqr_le_abs_1.
Qed.

Lemma ipow_2_abs (a : R) : ipow (Rabs a) 2 = a ^ 2.
Proof. unfold ipow. apply pow2_abs. Qed.

Lemma clamp_nearest (r : Range) (c y : R) :
  lo r <= y <= hi r -> (c - clamp r c) ^ 2 <= (c - y) ^ 2.
Proof. intros H. apply pow2_le_abs. real_cases. Qed.

Lemma clamp_min_term (r : Range) (c : R) :
  lo r <= hi r ->
  ipow (clamp2 (lo r - c) (c - hi r) / 2) 2 = (c - clamp r c) ^ 2.
Proof.
  intros H. rewrite <- ipow_2_abs. f_equal. real_cases.
Qed.

Lemma clamp_max_term (r : Range) (c : R) :
  lo r <= hi r ->
  (c - clamp r c) ^ 2 <= ipow (Rabs (Rmax (c - lo r) (hi r - c))) 2.
Proof.
  intros H. rewrite ipow_2_abs. apply pow2_le_abs. real_cases.
Qed.

Section Nearest.

Variable B : HRectBound.
Variable x : vec.
Hypothesis HB : length (bounds B) = dim B.
Hypothesis WB : well_formed B.
Hypothesis Hx : length x = dim B.

Lemma nearest_point_in_bound : in_bound B (nearest_point B x).
Proof.
  split.
  - rewrite nearest_point_length; lia.
  - unfold Contains. rewrite nearest_point_length by lia.
    apply Contains_from_intro; try lia.
    + rewrite nearest_point_length; lia.
    + intros d Hd. rewrite nearest_point_coord by lia.
      apply clamp_inside, wf_axis; [assumption|lia].
Qed.

Lemma nearest_point_nearest (y : vec) :
  in_bound B y -> sqdist x (nearest_point B x) <= sqdist x y.
Proof.
  intros Hy. pose proof Hy as [Hlen _].
  rewrite !sqdist_seq by (rewrite ?nearest_point_length; lia).
  apply Rsum_map_le. intros d Hd. apply in_seq in Hd.
  rewrite nearest_point_coord by lia.
  apply clamp_nearest, in_bound_axis; [assumption|lia].
Qed.

(** With exponent 2 [MinDistance] is the squared distance to the nearest
    point of the box. *)
Lemma MinDistance_formula_nearest :
  MinDistance_formula 2 B x = sqdist x (nearest_point B x).
Proof.
  unfold MinDistance_formula, axis_sum.
  rewrite (rpow_quarter 2 ltac:(lia)
             (fun ax => clamp2 (lo (fst ax) - snd ax) (snd ax - hi (fst ax))))
    by (intros a; apply clamp2_nonneg).
  rewrite rpow_exponent_2
    by (apply Rsum_map_nonneg; intros a; rewrite ipow_2; nra).
  change (axis_sum (fun bd xd => ipow (clamp2 (lo bd - xd) (xd - hi bd) / 2) 2) B x
          = sqdist x (nearest_point B x)).
  rewrite axis_sum_seq, sqdist_seq by (rewrite ?nearest_point_length; lia).
  apply Rsum_map_ext_in. intros d Hd. apply in_seq in Hd.
  rewrite nearest_point_coord by lia.
  apply clamp_min_term, wf_axis; [assumption|lia].
Qed.

Lemma MaxDistance_formula_nearest :
  sqdist x (nearest_point B x) <= MaxDistance_formula 2 B x.
Proof.
  unfold MaxDistance_formula.
  rewrite rpow_exponent_2
    by (apply Rsum_map_nonneg; intros a; apply ipow_nonneg, Rabs_pos).
  rewrite axis_sum_seq, sqdist_seq by (rewrite ?nearest_point_length; lia).
  apply Rsum_map_le. intros d Hd. apply in_seq in Hd.
  rewrite nearest_point_coord by lia.
  apply clamp_max_term, wf_axis; [assumption|lia].
Qed.

End Nearest.

(** C2. With exponent 2, for a bound with well-formed axis intervals and a
    point of matching dimensionality, [MinDistance] is at most the squared
    Euclidean distance from the point to the nearest point of the bound,
    which is at most [MaxDistance]: [MinDistance] is below the squared
    distance to every point of the bound, some point of the bound is within
    [MaxDistance], and a nearest point exists. *)
Theorem MinDistance_nearest_MaxDistance (B : HRectBound) (x : vec) :
  allocated B -> well_formed B -> length x = dim B ->
  exists m M,
    MinDistance 2 B x = Ok m
    /\ MaxDistance 2 B x = Ok M
    /\ (forall y, in_bound B y -> m <= sqdist x y)
    /\ (exists y, in_bound B y /\ sqdist x y <= M)
    /\ nearest_in B x (nearest_point B x)
    /\ (forall n, nearest_in B x n -> m <= sqdist x n <= M).
Proof.
  intros HB WB Hx. unfold allocated in HB.
  pose proof (nearest_point_in_bound B x HB WB Hx) as Hin.
  pose proof (nearest_point_nearest B x HB Hx) as Hnear.
  pose proof (MinDistance_formula_nearest B x HB WB Hx) as Hmin.
  pose proof (MaxDistance_formula_nearest B x HB WB Hx) as Hmax.
  exists (MinDistance_formula 2 B x), (MaxDistance_formula 2 B x).
  repeat split.
  - apply MinDistance_value; (assumption || lia).
  - apply MaxDistance_value; (assumption || lia).
  - intros y Hy. rewrite Hmin. now apply Hnear.
  - exists (nearest_point B x). now split.
  - apply Hin.
  - apply Hin.
  - exact Hnear.
  - rewrite Hmin. apply Hnear. now destruct H.
  - destruct H as [_ Hn]. specialize (Hn _ Hin). lra.
Qed.

(** ** The union operators *)

Lemma store_Ok {A : Type} (d v : A) :
  forall (a : list A) (i : nat),
    (i < length a)%nat ->
    exists a', store a i v = Ok a'
               /\ length a' = length a
               /\ nth i a' d = v
               /\ forall j, j <> i -> nth j a' d = nth j a d.
Proof.
  induction a as [|x a IH]; intros i Hi; simpl in Hi; [lia|].
  destruct i as [|i]; simpl.
  - exists (v :: a). repeat split. intros [|j] Hj; [congruence|reflexivity].
  - destruct (IH i ltac:(lia)) as (a' & -> & Hlen & Hv & Hother). simpl.
    exists (x :: a'). repeat split; simpl; auto.
    intros [|j] Hj; [reflexivity|]. apply Hother. congruence.
Qed.

(** The loop of both [operator|=]: cell [i] of the array absorbs cell [i] of
    the operand; the other cells keep their value. *)
Lemma union_loop {O : Type} (absorb : Range -> O -> Range) (ops : list O)
    (r0 : Range) (o0 : O) :
  forall count start bs,
    (start + count <= length bs)%nat -> (start + count <= length ops)%nat ->
    exists bs',
      for_range start count
        (fun i bs => bi <- bs@[i] ;; oi <- ops@[i] ;; store bs i (absorb bi oi)) bs
      = Ok bs'
      /\ length bs' = length bs
      /\ forall d,
           nth d bs' r0
           = if (start <=? d)%nat && (d <? start + count)%nat
             then absorb (nth d bs r0) (nth d ops o0)
             else nth d bs r0.
Proof.
  induction count as [|k IH]; intros start bs Hbs Hops; simpl.
  - exists bs. repeat split. intros d.
    destruct (start <=? d)%nat eqn:E1, (d <? start + 0)%nat eqn:E2;
      try reflexivity.
    apply Nat.leb_le in E1. apply Nat.ltb_lt in E2. lia.
  - rewrite (at_nth bs start r0), (at_nth ops start o0) by lia. simpl.
    destruct (store_Ok r0 (absorb (nth start bs r0) (nth start ops o0)) bs start)
      as (bs1 & -> & Hlen1 & Hv1 & Hother1); [lia|]. simpl.
    destruct (IH (S start) bs1) as (bs' & -> & Hlen' & Hcells); try lia.
    exists bs'. repeat split; [lia|]. intros d. rewrite Hcells.
    destruct (Nat.eq_dec d start) as [->|Hne].
    + replace (S start <=? start)%nat with false
        by (symmetry; apply Nat.leb_gt; lia).
      replace (start <=? start)%nat with true
        by (symmetry; apply Nat.leb_le; lia).
      replace (start <? start + S k)%nat with true
        by (symmetry; apply Nat.ltb_lt; lia).
      simpl. exact Hv1.
    + rewrite (Hother1 d Hne).
      replace (start + S k)%nat with (S start + k)%nat by lia.
      destruct (S start <=? d)%nat eqn:E1, (start <=? d)%nat eqn:E2;
        try reflexivity.
      * apply Nat.leb_le in E1. apply Nat.leb_gt in E2. lia.
      * apply Nat.leb_gt in E1. apply Nat.leb_le in E2. lia.
Qed.

Lemma Range_union_scalar_grows (r : Range) (c : R) :
  Range_le r (Range_union_scalar r c)
  /\ Range_Contains (Range_union_scalar r c) c = true.
Proof.
  split.
  - unfold Range_le, Range_union_scalar. simpl. real_cases.
  - apply Range_Contains_true. unfold Range_union_scalar. simpl. real_cases.
Qed.

Lemma Range_union_grows (r o : Range) :
  Range_le r (Range_union r o) /\ Range_le o (Range_union r o).
Proof.
  unfold Range_le, Range_union. simpl. real_cases.
Qed.

Lemma Range_le_Contains (r r' : Range) (c : R) :
  Range_le r r' -> Range_Contains r c = true -> Range_Contains r' c = true.
Proof.
  intros [Hlo Hhi] Hc. apply Range_Contains_true in Hc.
  apply Range_Contains_true. lra.
Qed.

(** C6. Union is monotonic: after [B |= x], for a point [x] with [dim]
    coordinates or a bound [x] of equal [dim], every axis interval of the
    result contains the interval that axis had before (none shrinks), and
    contains the absorbed coordinate or the absorbed axis interval. *)
Theorem union_monotonic (B other : HRectBound) (x : vec) :
  allocated B -> allocated other -> length x = dim B -> dim other = dim B ->
  (exists B',
      union_point B x = Ok B'
      /\ dim B' = dim B /\ allocated B'
      /\ forall d, (d < dim B)%nat ->
           Range_le (axis B d) (axis B' d)
           /\ (forall c, Range_Contains (axis B d) c = true ->
                         Range_Contains (axis B' d) c = true)
           /\ Range_Contains (axis B' d) (coord x d) = true)
  /\ (exists B',
         union_bound B other = Ok B'
         /\ dim B' = dim B /\ allocated B'
         /\ forall d, (d < dim B)%nat ->
              Range_le (axis B d) (axis B' d)
              /\ (forall c, Range_Contains (axis B d) c = true ->
                            Range_Contains (axis B' d) c = true)
              /\ Range_le (axis other d) (axis B' d)).
Proof.
  intros HB HO Hx Hd. unfold allocated in *.
  assert (Hin : forall d, (d < dim B)%nat ->
                  (0 <=? d)%nat && (d <? 0 + dim B)%nat = true).
  { intros d Hlt. apply andb_true_iff. split.
    - apply Nat.leb_le. lia.
    - apply Nat.ltb_lt. lia. }
  split.
  - unfold union_point.
    rewrite Assert_true by now apply Nat.eqb_eq. simpl.
    destruct (union_loop Range_union_scalar x (mkRange 0 0) 0
                (dim B) 0 (bounds B)) as (bs' & -> & Hlen & Hcells); try lia.
    simpl. eexists. split; [reflexivity|]. simpl.
    split; [reflexivity|]. split; [unfold allocated; simpl; lia|].
    intros d Hlt.
    assert (Hcell : axis (mkHRectBound (dim B) bs') d
                    = Range_union_scalar (axis B d) (coord x d)).
    { unfold axis, coord. simpl. now rewrite Hcells, Hin. }
    rewrite Hcell.
    destruct (Range_union_scalar_grows (axis B d) (coord x d)) as [Hle Hc].
    split; [exact Hle|]. split; [|exact Hc].
    intros c. now apply Range_le_Contains.
  - unfold union_bound.
    rewrite Assert_true by now apply Nat.eqb_eq. simpl.
    destruct (union_loop Range_union (bounds other) (mkRange 0 0) (mkRange 0 0)
                (dim B) 0 (bounds B)) as (bs' & -> & Hlen & Hcells); try lia.
    simpl. eexists. split; [reflexivity|]. simpl.
    split; [reflexivity|]. split; [unfold allocated; simpl; lia|].
    intros d Hlt.
    assert (Hcell : axis (mkHRectBound (dim B) bs') d
                    = Range_union (axis B d) (axis other d)).
    { unfold axis. simpl. now rewrite Hcells, Hin. }
    rewrite Hcell.
    destruct (Range_union_grows (axis B d) (axis other d)) as [Hle Hc].
    split; [exact Hle|]. split; [|exact Hc].
    intros c. now apply Range_le_Contains.
Qed.

(** ** The main theorems at concrete inputs *)

Lemma box10_well_formed : well_formed box10.
Proof. repeat constructor; simpl; lra. Qed.

Lemma box_far_well_formed : well_formed box_far.
Proof. repeat constructor; simpl; lra. Qed.

Lemma MinDistance_point_spec_witness :
  ((1 <= 2)%Z /\ allocated box10 /\ well_formed box10
   /\ length [3; 4] = dim box10)
  /\ MinDistance 2 box10 [3; 4] = Ok (MinDistance_formula 2 box10 [3; 4])
  /\ (Contains box10 [3; 4] = Ok true -> MinDistance 2 box10 [3; 4] = Ok 0)
  /\ MinDistance 2 box10 [15; 5] = Ok 25.
Proof.
  split.
  - repeat split; [lia | apply box10_well_formed].
  - apply (MinDistance_point_spec 2 box10 [3; 4]);
      [lia | reflexivity | apply box10_well_formed | reflexivity].
Defined.

Lemma MinDistance_nearest_MaxDistance_witness :
  (allocated box10 /\ well_formed box10 /\ length [15; 5] = dim box10)
  /\ exists m M,
       MinDistance 2 box10 [15; 5] = Ok m
       /\ MaxDistance 2 box10 [15; 5] = Ok M
       /\ (forall y, in_bound box10 y -> m <= sqdist [15; 5] y)
       /\ (exists y, in_bound box10 y /\ sqdist [15; 5] y <= M)
       /\ nearest_in box10 [15; 5] (nearest_point box10 [15; 5])
       /\ (forall n, nearest_in box10 [15; 5] n -> m <= sqdist [15; 5] n <= M).
Proof.
  split.
  - repeat split. apply box10_well_formed.
  - apply (MinDistance_nearest_MaxDistance box10 [15; 5]);
      [reflexivity | apply box10_well_formed | reflexivity].
Defined.

Lemma MaxDistance_point_spec_witness :
  ((1 <= 3)%Z /\ allocated box10 /\ well_formed box10
   /\ length [15; 5] = dim box10)
  /\ MaxDistance 3 box10 [15; 5] = Ok (MaxDistance_formula 3 box10 [15; 5])
  /\ MaxDistance 2 box10 [15; 5] = Ok 250.
Proof.
  split.
  - repeat split; [lia | apply box10_well_formed].
  - apply (MaxDistance_point_spec 3 box10 [15; 5]);
      [lia | reflexivity | apply box10_well_formed | reflexivity].
Defined.

Lemma MaxDistance_filtered_spec_witness :
  ((1 <= 2)%Z /\ allocated box10 /\ allocated box_far
   /\ length [15; 5] = dim box10 /\ dim box_far = dim box10
   /\ Forall (fun i => (i < dim box10)%nat) [1; 0; 1]%nat)
  /\ MaxDistance_filtered 2 box10 [15; 5] [1; 0; 1]%nat
     = Ok (rpow (Rsum (map (fun i =>
                   let lower := Rabs (coord [15; 5] i - lo (axis box10 i)) in
                   let higher := Rabs (coord [15; 5] i - hi (axis box10 i)) in
                   ipow (Rabs (higher - lower) + higher + lower) 2)
                 [1; 0; 1]%nat))
                (2 / IZR 2) / 4)
  /\ MaxDistance_bound_filtered 2 box10 box_far [1; 0; 1]%nat
     = Ok (rpow (Rsum (map (fun i =>
                   let lower := Rabs (hi (axis box_far i) - lo (axis box10 i)) in
                   let higher := Rabs (lo (axis box_far i) - hi (axis box10 i)) in
                   ipow (Rabs (higher - lower) + higher + lower) 2)
                 [1; 0; 1]%nat))
                (2 / IZR 2) / 4).
Proof.
  assert (Hidx : Forall (fun i => (i < dim box10)%nat) [1; 0; 1]%nat)
    by (repeat constructor).
  split.
  - repeat split; [lia | exact Hidx].
  - apply (MaxDistance_filtered_spec 2 box10 box_far [15; 5] [1; 0; 1]%nat);
      [lia | reflexivity | reflexivity | reflexivity | reflexivity | exact Hidx].
Defined.

Lemma RangeDistance_consistent_witness :
  ((1 <= 3)%Z /\ allocated box10 /\ allocated box_far
   /\ well_formed box10 /\ well_formed box_far
   /\ dim box10 = dim box_far /\ length [15; 5] = dim box10)
  /\ (exists m M,
         MinDistance_bound 3 box10 box_far = Ok m
         /\ MaxDistance_bound 3 box10 box_far = Ok M
         /\ RangeDistance_bound 3 box10 box_far = Ok (mkRange m M))
  /\ (exists m M,
         MinDistance 3 box10 [15; 5] = Ok m
         /\ MaxDistance 3 box10 [15; 5] = Ok M
         /\ RangeDistance 3 box10 [15; 5] = Ok (mkRange m M)).
Proof.
  split.
  - repeat split; [lia | apply box10_well_formed | apply box_far_well_formed].
  - apply (RangeDistance_consistent 3 box10 box_far [15; 5]);
      [lia | reflexivity | reflexivity | apply box10_well_formed
       | apply box_far_well_formed | reflexivity | reflexivity].
Defined.

Lemma union_monotonic_witness :
  (allocated box10 /\ allocated box_far
   /\ length [15; 5] = dim box10 /\ dim box_far = dim box10)
  /\ (exists B',
         union_point box10 [15; 5] = Ok B'
         /\ dim B' = dim box10 /\ allocated B'
         /\ forall d, (d < dim box10)%nat ->
              Range_le (axis box10 d) (axis B' d)
              /\ (forall c, Range_Contains (axis box10 d) c = true ->
                            Range_Contains (axis B' d) c = true)
              /\ Range_Contains (axis B' d) (coord [15; 5] d) = true)
  /\ (exists B',
         union_bound box10 box_far = Ok B'
         /\ dim B' = dim box10 /\ allocated B'
         /\ forall d, (d < dim box10)%nat ->
              Range_le (axis box10 d) (axis B' d)
              /\ (forall c, Range_Contains (axis box10 d) c = true ->
                            Range_Contains (axis B' d) c = true)
              /\ Range_le (axis box_far d) (axis B' d)).
Proof.
  split.
  - repeat split.
  - apply (union_monotonic box10 box_far [15; 5]); reflexivity.
Defined.

Lemma degenerate_inputs_zero_witness :
  ((1 <= 2)%Z /\ length (@nil R) = dim box_empty
   /\ dim box_empty = dim box_empty)
  /\ (MinDistance_filtered 2 box_empty [] [] = Ok 0
      /\ MinDistance_bound_filtered 2 box_empty box_empty [] = Ok 0
      /\ MaxDistance_filtered 2 box_empty [] [] = Ok 0
      /\ MaxDistance_bound_filtered 2 box_empty box_empty [] = Ok 0)
  /\ (dim box_empty = 0%nat ->
      MinDistance 2 box_empty [] = Ok 0
      /\ MinDistance_bound 2 box_empty box_empty = Ok 0
      /\ MaxDistance 2 box_empty [] = Ok 0
      /\ MaxDistance_bound 2 box_empty box_empty = Ok 0
      /\ RangeDistance 2 box_empty [] = Ok (mkRange 0 0)
      /\ RangeDistance_bound 2 box_empty box_empty = Ok (mkRange 0 0)).
Proof.
  split.
  - repeat split. lia.
  - apply (degenerate_inputs_zero 2 box_empty box_empty []);
      [lia | reflexivity | reflexivity].
Defined.

Lemma MaxDistance_filtered_all_axes_witness :
  ((1 <= 3)%Z /\ allocated box10 /\ allocated box_far
   /\ well_formed box10 /\ well_formed box_far
   /\ length [15; 5] = dim box10 /\ dim box_far = dim box10
   /\ Permutation [1; 0]%nat (seq 0 (dim box10)))
  /\ (exists M, MaxDistance 3 box10 [15; 5] = Ok M
                /\ MaxDistance_filtered 3 box10 [15; 5] [1; 0]%nat = Ok M)
  /\ (exists M, MaxDistance_bound 3 box10 box_far = Ok M
                /\ MaxDistance_bound_filtered 3 box10 box_far [1; 0]%nat = Ok M).
Proof.
  assert (Hperm : Permutation [1; 0]%nat (seq 0 (dim box10)))
    by (simpl; apply perm_swap).
  split.
  - repeat split;
      [lia | apply box10_well_formed | apply box_far_well_formed | exact Hperm].
  - apply (MaxDistance_filtered_all_axes 3 box10 box_far [15; 5] [1; 0]%nat);
      [lia | reflexivity | reflexivity | apply box10_well_formed
       | apply box_far_well_formed | reflexivity | reflexivity | exact Hperm].
Defined.

Lemma bound_distances_symmetric_witness :
  ((1 <= 2)%Z /\ allocated box10 /\ allocated box_far
   /\ dim box10 = dim box_far)
  /\ (exists m, MinDistance_bound 2 box10 box_far = Ok m
                /\ MinDistance_bound 2 box_far box10 = Ok m)
  /\ (exists M, MaxDistance_bound 2 box10 box_far = Ok M
                /\ MaxDistance_bound 2 box_far box10 = Ok M).
Proof.
  split.
  - repeat split. lia.
  - apply (bound_distances_symmetric 2 box10 box_far);
      [lia | reflexivity | reflexivity | reflexivity].
Defined.

(** ** Monotonicity of the two powers *)

Lemma rpow_nonneg (s y : R) : 0 <= rpow s y.
Proof.
  unfold rpow. destruct (Req_dec_T s 0); [lra|].
  left. apply exp_pos.
Qed.

Lemma rpow_le (a b y : R) : 0 <= a <= b -> 0 < y -> rpow a y <= rpow b y.
Proof.
  intros [Ha Hab] Hy.
  destruct (Req_dec_T a 0) as [->|Hne].
  - rewrite rpow_0. apply rpow_nonneg.
  - unfold rpow.
    destruct (Req_dec_T a 0); [contradiction|].
    destruct (Req_dec_T b 0); [lra|].
    apply (Rle_Rpower_l a b y); lra.
Qed.

Lemma rpow_eq_0 (s y : R) : rpow s y = 0 -> s = 0.
Proof.
  unfold rpow. destruct (Req_dec_T s 0); [trivial|].
  intros H. pose proof (exp_pos (y * ln s)). lra.
Qed.

Lemma ipow_le (a b : R) (p : Z) : 0 <= a <= b -> ipow a p <= ipow b p.
Proof. intros H. unfold ipow. now apply pow_incr. Qed.

Lemma ipow_eq_0 (a : R) (p : Z) : ipow a p = 0 -> a = 0.
Proof.
  unfold ipow. intros H. destruct (Req_dec_T a 0) as [|Hne]; [trivial|].
  now apply (pow_nonzero a (Z.to_nat p)) in Hne.
Qed.

Lemma Rsum_map_eq_0 {A : Type} (f : A -> R) (l : list A) :
  (forall a, 0 <= f a) -> Rsum (map f l) = 0 -> forall a, In a l -> f a = 0.
Proof.
  intros Hf. induction l as [|b l IH]; simpl; intros Hs a Ha; [contradiction|].
  pose proof (Hf b). pose proof (Rsum_map_nonneg f l Hf).
  destruct Ha as [<-|Ha]; [lra|]. apply IH; [lra|assumption].
Qed.

Lemma Rsum_map_nonneg_in {A : Type} (f : A -> R) (l : list A) :
  (forall a, In a l -> 0 <= f a) -> 0 <= Rsum (map f l).
Proof.
  intros Hf. apply Rsum_nonneg, Forall_forall.
  intros c Hc. apply in_map_iff in Hc as [a [<- Ha]]. now apply Hf.
Qed.

(** The closing power and the sum keep the order of the per-axis values. *)
Lemma norm_sum_le (p : Z) (f g : nat -> R) (l : list nat) :
  (1 <= p)%Z ->
  (forall d, In d l -> 0 <= f d <= g d) ->
  rpow (Rsum (map (fun d => ipow (f d) p) l)) (2 / IZR p)
  <= rpow (Rsum (map (fun d => ipow (g d) p) l)) (2 / IZR p).
Proof.
  intros Hp Hfg. apply rpow_le; [|now apply exponent_pos]. split.
  - apply Rsum_map_nonneg_in. intros d Hd. apply ipow_nonneg, Hfg, Hd.
  - apply Rsum_map_le. intros d Hd. apply ipow_le, Hfg, Hd.
Qed.

(** ** The formulas axis by axis *)

Lemma lpdist_seq (p : Z) (x y : vec) :
  length x = length y ->
  lpdist p x y
  = rpow (Rsum (map (fun d => ipow (Rabs (coord x d - coord y d)) p)
                    (seq 0 (length x)))) (2 / IZR p).
Proof.
  intros Hlen. unfold lpdist, coord.
  now rewrite (map_seq_combine (fun a b => ipow (Rabs (a - b)) p)).
Qed.

Lemma lpdist_2 (x y : vec) : lpdist 2 x y = sqdist x y.
Proof.
  unfold lpdist, sqdist.
  rewrite rpow_exponent_2
    by (apply Rsum_map_nonneg; intros a; apply ipow_nonneg, Rabs_pos).
  apply Rsum_map_ext_in. intros c _. apply ipow_2_abs.
Qed.

Lemma MinDistance_formula_seq (p : Z) (B : HRectBound) (x : vec) :
  (1 <= p)%Z -> length (bounds B) = length x ->
  MinDistance_formula p B x
  = rpow (Rsum (map (fun d =>
            ipow (clamp2 (lo (axis B d) - coord x d)
                         (coord x d - hi (axis B d)) / 2) p)
          (seq 0 (length x)))) (2 / IZR p).
Proof.
  intros Hp Hlen. unfold MinDistance_formula.
  rewrite axis_sum_seq by assumption.
  apply (rpow_quarter p Hp
           (fun d => clamp2 (lo (axis B d) - coord x d)
                            (coord x d - hi (axis B d)))).
  intros d. apply clamp2_nonneg.
Qed.

Lemma MaxDistance_formula_seq (p : Z) (B : HRectBound) (x : vec) :
  length (bounds B) = length x ->
  MaxDistance_formula p B x
  = rpow (Rsum (map (fun d =>
            ipow (Rabs (Rmax (coord x d - lo (axis B d))
                             (hi (axis B d) - coord x d))) p)
          (seq 0 (length x)))) (2 / IZR p).
Proof.
  intros Hlen. unfold MaxDistance_formula.
  now rewrite axis_sum_seq by assumption.
Qed.

Lemma MinDistance_bound_formula_seq (p : Z) (B other : HRectBound) :
  (1 <= p)%Z -> length (bounds B) = length (bounds other) ->
  MinDistance_bound_formula p B other
  = rpow (Rsum (map (fun d =>
            ipow (clamp2 (lo (axis other d) - hi (axis B d))
                         (lo (axis B d) - hi (axis other d)) / 2) p)
          (seq 0 (length (bounds B))))) (2 / IZR p).
Proof.
  intros Hp Hlen. unfold MinDistance_bound_formula.
  rewrite axis_sum2_seq by assumption.
  apply (rpow_quarter p Hp
           (fun d => clamp2 (lo (axis other d) - hi (axis B d))
                            (lo (axis B d) - hi (axis other d)))).
  intros d. apply clamp2_nonneg.
Qed.

Lemma MaxDistance_bound_formula_seq (p : Z) (B other : HRectBound) :
  length (bounds B) = length (bounds other) ->
  MaxDistance_bound_formula p B other
  = rpow (Rsum (map (fun d =>
            ipow (Rabs (Rmax (hi (axis other d) - lo (axis B d))
                             (hi (axis B d) - lo (axis other d)))) p)
          (seq 0 (length (bounds B))))) (2 / IZR p).
Proof.
  intros Hlen. unfold MaxDistance_bound_formula.
  now rewrite axis_sum2_seq by assumption.
Qed.

Lemma half_clamp2_nonneg (l h : R) : 0 <= clamp2 l h / 2.
Proof. pose proof (clamp2_nonneg l h). lra. Qed.

(** ** The distance bounds hold for every point of the box *)

Lemma axis_gap_point (r : Range) (c y : R) :
  lo r <= y <= hi r ->
  clamp2 (lo r - c) (c - hi r) / 2 <= Rabs (c - y)
  /\ Rabs (c - y) <= Rabs (Rmax (c - lo r) (hi r - c)).
Proof. intros H. split; real_cases. Qed.

Lemma axis_gap_bound (m o : Range) (y z : R) :
  lo m <= y <= hi m -> lo o <= z <= hi o ->
  clamp2 (lo o - hi m) (lo m - hi o) / 2 <= Rabs (y - z)
  /\ Rabs (y - z) <= Rabs (Rmax (hi o - lo m) (hi m - lo o)).
Proof. intros H1 H2. split; real_cases. Qed.

(** X1. For every exponent [p >= 1] and every point [y] of the box,
    [MinDistance(x)] is at most the distance of [x] and [y] (in the squared
    units of the bound) and [MaxDistance(x)] is at least that distance; for
    [p = 2] the distance is the squared Euclidean distance. *)
Theorem point_distance_bracket (p : Z) (B : HRectBound) (x y : vec) :
  (1 <= p)%Z -> allocated B -> length x = dim B -> in_bound B y ->
  exists m M,
    MinDistance p B x = Ok m /\ MaxDistance p B x = Ok M
    /\ m <= lpdist p x y <= M
    /\ lpdist 2 x y = sqdist x y.
Proof.
  intros Hp HB Hx Hy. unfold allocated in HB. pose proof Hy as [Hlen _].
  exists (MinDistance_formula p B x), (MaxDistance_formula p B x).
  split; [now apply MinDistance_value|].
  split; [now apply MaxDistance_value|].
  split; [|apply lpdist_2].
  rewrite MinDistance_formula_seq, MaxDistance_formula_seq, lpdist_seq by lia.
  split; apply norm_sum_le; trivial; intros d Hd; apply in_seq in Hd;
    destruct (axis_gap_point (axis B d) (coord x d) (coord y d)) as [H1 H2];
    try (apply in_bound_axis; [assumption|lia]);
    (split; [apply half_clamp2_nonneg || apply Rabs_pos | assumption]).
Qed.

(** X2. For every exponent [p >= 1], every point [y] of the box [B] and
    every point [z] of the box [other], the bound-to-bound [MinDistance] is
    at most the distance of [y] and [z] and the bound-to-bound [MaxDistance]
    is at least that distance. *)
Theorem bound_distance_bracket (p : Z) (B other : HRectBound) (y z : vec) :
  (1 <= p)%Z -> allocated B -> allocated other -> dim B = dim other ->
  in_bound B y -> in_bound other z ->
  exists m M,
    MinDistance_bound p B other = Ok m /\ MaxDistance_bound p B other = Ok M
    /\ m <= lpdist p y z <= M.
Proof.
  intros Hp HB HO Hd Hy Hz. unfold allocated in *.
  pose proof Hy as [Hleny _]. pose proof Hz as [Hlenz _].
  exists (MinDistance_bound_formula p B other),
         (MaxDistance_bound_formula p B other).
  split; [now apply MinDistance_bound_value|].
  split; [now apply MaxDistance_bound_value|].
  rewrite MinDistance_bound_formula_seq, MaxDistance_bound_formula_seq,
    lpdist_seq by lia.
  rewrite HB, Hleny.
  split; apply norm_sum_le; trivial; intros d Hin; apply in_seq in Hin;
    destruct (axis_gap_bound (axis B d) (axis other d) (coord y d) (coord z d))
      as [H1 H2];
    try (apply in_bound_axis; [assumption|lia]);
    (split; [apply half_clamp2_nonneg || apply Rabs_pos | assumption]).
Qed.

Lemma map2_length {A B C : Type} (f : A -> B -> C) (la : list A) (lb : list B) :
  length la = length lb -> length (map2 f la lb) = length la.
Proof.
  intros Hlen. unfold map2. rewrite length_map, length_combine. lia.
Qed.

Lemma map2_nth {A B C : Type} (f : A -> B -> C) (la : list A) (lb : list B)
    (da : A) (db : B) (dc : C) (d : nat) :
  length la = length lb -> (d < length la)%nat ->
  nth d (map2 f la lb) dc = f (nth d la da) (nth d lb db).
Proof.
  intros Hlen Hd. unfold map2.
  rewrite (nth_indep _ dc (f (fst (da, db)) (snd (da, db))))
    by (rewrite length_map, length_combine; lia).
  rewrite (map_nth (fun ab => f (fst ab) (snd ab))).
  now rewrite combine_nth.
Qed.

Lemma far_end_inside (r : Range) (c : R) :
  lo r <= hi r -> lo r <= far_end r c <= hi r.
Proof. intros H. unfold far_end. destruct (Rle_dec (hi r - c) (c - lo r)); lra. Qed.

Lemma far_end_term (r : Range) (c : R) :
  lo r <= hi r ->
  Rabs (c - far_end r c) = Rabs (Rmax (c - lo r) (hi r - c)).
Proof.
  intros H. unfold far_end.
  destruct (Rle_dec (hi r - c) (c - lo r)); real_cases.
Qed.

Lemma clamp_term (r : Range) (c : R) :
  lo r <= hi r ->
  Rabs (c - clamp r c) = clamp2 (lo r - c) (c - hi r) / 2.
Proof. intros H. real_cases. Qed.

(** X3. The two bounds are attained in a box with well-formed intervals: for
    every exponent [p >= 1], the point of the box obtained by clamping [x]
    to each interval is at distance [MinDistance(x)] and the corner
    obtained by taking the farther end of each interval is at distance
    [MaxDistance(x)]. *)
Theorem point_distances_attained (p : Z) (B : HRectBound) (x : vec) :
  (1 <= p)%Z -> allocated B -> well_formed B -> length x = dim B ->
  in_bound B (nearest_point B x)
  /\ in_bound B (farthest_point B x)
  /\ MinDistance p B x = Ok (lpdist p x (nearest_point B x))
  /\ MaxDistance p B x = Ok (lpdist p x (farthest_point B x)).
Proof.
  intros Hp HB WB Hx. unfold allocated in HB.
  assert (Hfl : length (farthest_point B x) = length x)
    by (unfold farthest_point; rewrite map2_length; lia).
  assert (Hfc : forall d, (d < dim B)%nat ->
            coord (farthest_point B x) d = far_end (axis B d) (coord x d)).
  { intros d Hd. unfold coord, farthest_point, axis.
    apply map2_nth; lia. }
  split; [now apply nearest_point_in_bound|]. split; [|split].
  - split; [lia|]. unfold Contains. rewrite Hfl.
    apply Contains_from_intro; try lia.
    intros d Hd. rewrite Hfc by lia.
    apply far_end_inside, wf_axis; [assumption|lia].
  - rewrite MinDistance_value by assumption. f_equal.
    rewrite MinDistance_formula_seq, lpdist_seq
      by (rewrite ?nearest_point_length; lia).
    f_equal. apply Rsum_map_ext_in. intros d Hd. apply in_seq in Hd.
    rewrite nearest_point_coord by lia. f_equal. symmetry.
    apply clamp_term, wf_axis; [assumption|lia].
  - rewrite MaxDistance_value by assumption. f_equal.
    rewrite MaxDistance_formula_seq, lpdist_seq by lia.
    f_equal. apply Rsum_map_ext_in. intros d Hd. apply in_seq in Hd.
    rewrite Hfc by lia. f_equal. symmetry.
    apply far_end_term, wf_axis; [assumption|lia].
Qed.

(** ** [Contains] and [MinDistance] *)

Lemma Contains_from_overrun (B : HRectBound) (y : vec) :
  forall count i,
    (i <= length (bounds B))%nat -> (length (bounds B) < i + count)%nat ->
    (i + count <= length y)%nat ->
    (forall d, (i <= d < length (bounds B))%nat ->
       lo (axis B d) <= coord y d <= hi (axis B d)) ->
    Contains_from B y i count = Fault OutOfBounds.
Proof.
  induction count as [|k IH]; intros i Hi Hover Hy Hin; [lia|].
  simpl. destruct (Nat.eq_dec i (length (bounds B))) as [->|Hne].
  - unfold at_ at 1.
    now rewrite (proj2 (nth_error_None (bounds B) (length (bounds B)))) by lia.
  - rewrite (at_nth (bounds B) i (mkRange 0 0)) by lia.
    rewrite (at_nth y i 0) by lia. simpl.
    fold (axis B i) (coord y i).
    rewrite (proj2 (Range_Contains_true _ _)) by (apply Hin; lia).
    simpl. apply IH; try lia. intros d Hd. apply Hin. lia.
Qed.

Lemma Contains_true_iff (B : HRectBound) (y : vec) :
  Contains B y = Ok true <->
  (length y <= length (bounds B))%nat
  /\ forall d, (d < length y)%nat ->
       lo (axis B d) <= coord y d <= hi (axis B d).
Proof.
  split.
  - intros Hc. unfold Contains in Hc. split.
    + destruct (length y) as [|n] eqn:E; [lia|].
      destruct (Contains_from_true B y _ _ Hc n) as [Hn _]; lia.
    + intros d Hd.
      destruct (Contains_from_true B y _ _ Hc d) as (_ & _ & H); [lia|exact H].
  - intros [Hlen Hin]. unfold Contains.
    apply Contains_from_intro; try lia. intros d Hd. apply Hin. lia.
Qed.

(** X4. [Contains] has no check of the dimension.  It answers [true]
    exactly when the point has at most as many coordinates as the bound has
    axes and each coordinate lies in the interval of its axis (a shorter
    point is tested on its own axes only); on a longer point whose first
    coordinates all lie in their intervals it reads past the end of the
    array. *)
Theorem Contains_spec (B : HRectBound) (y : vec) :
  (Contains B y = Ok true <->
   (length y <= length (bounds B))%nat
   /\ forall d, (d < length y)%nat ->
        lo (axis B d) <= coord y d <= hi (axis B d))
  /\ ((length (bounds B) < length y)%nat ->
      (forall d, (d < length (bounds B))%nat ->
         lo (axis B d) <= coord y d <= hi (axis B d)) ->
      Contains B y = Fault OutOfBounds).
Proof.
  split; [apply Contains_true_iff|].
  intros Hlen Hin. unfold Contains.
  apply Contains_from_overrun; try lia. intros d Hd. apply Hin. lia.
Qed.

Lemma clamp2_zero (l h : R) : clamp2 l h = 0 <-> l <= 0 /\ h <= 0.
Proof.
  split.
  - intros H. pose proof (Rle_abs l). pose proof (Rle_abs h).
    pose proof (Rle_abs (- l)) as Hl. pose proof (Rle_abs (- h)) as Hh.
    rewrite Rabs_Ropp in Hl, Hh. unfold clamp2 in H. split; real_cases.
  - intros [H1 H2]. real_cases.
Qed.

(** A sum of per-axis powers normalises to 0 only if every value is 0. *)
Lemma norm_sum_zero (p : Z) (f : nat -> R) (l : list nat) :
  (forall d, 0 <= f d) ->
  rpow (Rsum (map (fun d => ipow (f d) p) l)) (2 / IZR p) = 0 ->
  forall d, In d l -> f d = 0.
Proof.
  intros Hf H d Hd. apply rpow_eq_0 in H.
  apply (ipow_eq_0 _ p).
  apply (Rsum_map_eq_0 (fun d => ipow (f d) p) l); trivial.
  intros a. apply ipow_nonneg, Hf.
Qed.

Lemma norm_sum_all_zero (p : Z) (f : nat -> R) (l : list nat) :
  (1 <= p)%Z -> (forall d, In d l -> f d = 0) ->
  rpow (Rsum (map (fun d => ipow (f d) p) l)) (2 / IZR p) = 0.
Proof.
  intros Hp H.
  rewrite (Rsum_map_ext_in _ (fun _ => 0 * 0)).
  - now rewrite Rsum_map_scal, Rmult_0_l, rpow_0.
  - intros d Hd. rewrite (H d Hd), ipow_0 by assumption. lra.
Qed.

(** X5. Under exact real arithmetic (every double read as a real number,
    so that [pow] neither underflows nor rounds), [MinDistance(point)] is 0
    exactly for the points that [Contains] accepts: a point outside the box
    on some axis is at a positive distance.  No interval needs to be
    well-formed. *)
Theorem MinDistance_zero_iff_Contains (p : Z) (B : HRectBound) (x : vec) :
  (1 <= p)%Z -> allocated B -> length x = dim B ->
  (MinDistance p B x = Ok 0 <-> Contains B x = Ok true).
Proof.
  intros Hp HB Hx. unfold allocated in HB.
  rewrite MinDistance_value, MinDistance_formula_seq by (assumption || lia).
  split.
  - intros [= H]. unfold Contains. apply Contains_from_intro; try lia.
    intros d Hd.
    pose proof (norm_sum_zero p _ _
                  (fun d => half_clamp2_nonneg _ _) H d) as Hz.
    simpl in Hz. specialize (Hz ltac:(apply in_seq; lia)).
    assert (Hc : clamp2 (lo (axis B d) - coord x d)
                        (coord x d - hi (axis B d)) = 0) by lra.
    apply clamp2_zero in Hc. lra.
  - intros Hc. f_equal. apply norm_sum_all_zero; trivial.
    intros d Hd. apply in_seq in Hd.
    destruct (in_bound_axis B x d (conj Hx Hc)) as [H1 H2]; [lia|].
    assert (Hz : clamp2 (lo (axis B d) - coord x d)
                        (coord x d - hi (axis B d)) = 0)
      by (apply clamp2_zero; lra).
    rewrite Hz. lra.
Qed.


(** ** [RangeDistance] returns an ordered range *)

Lemma axis_order_point (r : Range) (c : R) :
  lo r <= hi r ->
  clamp2 (lo r - c) (c - hi r) / 2 <= Rabs (Rmax (c - lo r) (hi r - c)).
Proof. intros H. real_cases. Qed.

Lemma axis_order_bound (m o : Range) :
  lo m <= hi m -> lo o <= hi o ->
  clamp2 (lo o - hi m) (lo m - hi o) / 2
  <= Rabs (Rmax (hi o - lo m) (hi m - lo o)).
Proof. intros H1 H2. real_cases. Qed.

(** X7. For bounds with well-formed intervals [RangeDistance] returns, in
    both forms, a range that is itself well-formed and not negative:
    [0 <= lo <= hi]. *)
Theorem RangeDistance_ordered (p : Z) (B other : HRectBound) (x : vec) :
  (1 <= p)%Z -> allocated B -> allocated other ->
  well_formed B -> well_formed other ->
  length x = dim B -> dim B = dim other ->
  (exists r, RangeDistance p B x = Ok r /\ 0 <= lo r <= hi r)
  /\ (exists r, RangeDistance_bound p B other = Ok r /\ 0 <= lo r <= hi r).
Proof.
  intros Hp HB HO WB WO Hx Hd. unfold allocated in *. split.
  - eexists. split; [now apply RangeDistance_value|]. simpl.
    split; [apply rpow_nonneg|].
    rewrite MaxDistance_formula_seq, axis_sum_seq by lia.
    apply norm_sum_le; trivial. intros d Hin. apply in_seq in Hin.
    split; [apply half_clamp2_nonneg|].
    apply axis_order_point, wf_axis; [assumption|lia].
  - eexists. split; [now apply RangeDistance_bound_value|]. simpl.
    split; [apply rpow_nonneg|].
    rewrite MaxDistance_bound_formula_seq, axis_sum2_seq by lia.
    apply norm_sum_le; trivial. intros d Hin. apply in_seq in Hin.
    split; [apply half_clamp2_nonneg|].
    apply axis_order_bound; apply wf_axis; solve [assumption|lia].
Qed.

(** ** The filtered [MinDistance] overloads *)

Lemma clamp2_comm (l h : R) : clamp2 l h = clamp2 h l.
Proof. unfold clamp2. lra. Qed.

(** X8. Under exact real arithmetic (every double read as a real number,
    so that the order of the additions does not matter), a filtered
    [MinDistance] overload called with an index sequence that enumerates
    every axis [0..dim-1] once, in any order, returns the value of the
    unfiltered overload, for every bound (no interval needs to be
    well-formed). *)
Theorem MinDistance_filtered_all_axes (p : Z) (B other : HRectBound) (x : vec)
    (indices : list nat) :
  (1 <= p)%Z -> allocated B -> allocated other ->
  length x = dim B -> dim B = dim other ->
  Permutation indices (seq 0 (dim B)) ->
  (exists m, MinDistance p B x = Ok m
             /\ MinDistance_filtered p B x indices = Ok m)
  /\ (exists m, MinDistance_bound p B other = Ok m
                /\ MinDistance_bound_filtered p B other indices = Ok m).
Proof.
  intros Hp HB HO Hx Hd Hperm. unfold allocated in *.
  assert (Hidx : Forall (fun i => (i < dim B)%nat) indices).
  { apply Forall_forall. intros i Hi.
    apply (Permutation_in _ Hperm), in_seq in Hi. lia. }
  split.
  - exists (MinDistance_formula p B x). split.
    + now apply MinDistance_value.
    + rewrite MinDistance_filtered_value by assumption. f_equal.
      unfold MinDistance_filtered_formula, MinDistance_formula.
      rewrite axis_sum_seq by lia.
      rewrite (Rsum_Permutation _ _ (Permutation_map _ Hperm)).
      now rewrite Hx.
  - exists (MinDistance_bound_formula p B other). split.
    + now apply MinDistance_bound_value.
    + rewrite MinDistance_bound_filtered_value by assumption. f_equal.
      unfold MinDistance_bound_filtered_formula, MinDistance_bound_formula.
      rewrite axis_sum2_seq by lia.
      rewrite (Rsum_Permutation _ _ (Permutation_map _ Hperm)).
      rewrite HB. do 2 f_equal. apply Rsum_map_ext_in. intros d _.
      f_equal. apply clamp2_comm.
Qed.

(** A sum of values that are not negative, over some of the indices taken
    once each, is at most the sum over all of them. *)
Lemma Rsum_incl {A : Type} (f : A -> R) :
  (forall a, 0 <= f a) ->
  forall l l' : list A,
    NoDup l -> incl l l' -> Rsum (map f l) <= Rsum (map f l').
Proof.
  intros Hf. induction l as [|a l IH]; intros l' Hnd Hincl; simpl.
  - now apply Rsum_map_nonneg.
  - inversion Hnd as [|? ? Hnotin Hnd']; subst.
    destruct (in_split a l') as (l1 & l2 & ->); [apply Hincl; now left|].
    rewrite <- (Rsum_Permutation _ _
                  (Permutation_map f (Permutation_middle l1 l2 a))).
    simpl. apply Rplus_le_compat_l, IH; [assumption|].
    intros b Hb. assert (Hb' : In b (l1 ++ a :: l2)) by (apply Hincl; now right).
    apply in_app_or in Hb' as [Hb'|[->|Hb']];
      [apply in_or_app; now left | contradiction | apply in_or_app; now right].
Qed.

(** X9. Under exact real arithmetic (every double read as a real number,
    so that the order of the additions does not matter), restricting
    [MinDistance] to some of the axes, each listed once, never gives more
    than the unfiltered call: the filtered value is a lower bound of the
    full one, in the point form and in the bound form. *)
Theorem MinDistance_filtered_le (p : Z) (B other : HRectBound) (x : vec)
    (indices : list nat) :
  (1 <= p)%Z -> allocated B -> allocated other ->
  length x = dim B -> dim B = dim other ->
  NoDup indices -> Forall (fun i => (i < dim B)%nat) indices ->
  (exists f m, MinDistance_filtered p B x indices = Ok f
               /\ MinDistance p B x = Ok m /\ 0 <= f <= m)
  /\ (exists f m, MinDistance_bound_filtered p B other indices = Ok f
                  /\ MinDistance_bound p B other = Ok m /\ 0 <= f <= m).
Proof.
  intros Hp HB HO Hx Hd Hnd Hidx. unfold allocated in *.
  assert (Hincl : incl indices (seq 0 (dim B))).
  { intros i Hi. apply in_seq.
    apply (proj1 (Forall_forall _ _) Hidx) in Hi. lia. }
  assert (Hquarter : forall a b, 0 <= a <= b -> 0 <= a / 4 <= b / 4)
    by (intros; lra).
  split.
  - exists (MinDistance_filtered_formula p B x indices),
           (MinDistance_formula p B x).
    split; [now apply MinDistance_filtered_value|].
    split; [now apply MinDistance_value|].
    unfold MinDistance_filtered_formula, MinDistance_formula.
    rewrite axis_sum_seq, Hx by lia.
    apply Hquarter. split; [apply rpow_nonneg|].
    apply rpow_le; [|now apply exponent_pos]. split.
    + apply Rsum_map_nonneg. intros a. apply ipow_nonneg, clamp2_nonneg.
    + apply (Rsum_incl (fun d => ipow (clamp2 (lo (axis B d) - coord x d)
                                       (coord x d - hi (axis B d))) p));
        trivial.
      intros a. apply ipow_nonneg, clamp2_nonneg.
  - exists (MinDistance_bound_filtered_formula p B other indices),
           (MinDistance_bound_formula p B other).
    split; [now apply MinDistance_bound_filtered_value|].
    split; [now apply MinDistance_bound_value|].
    unfold MinDistance_bound_filtered_formula, MinDistance_bound_formula.
    rewrite axis_sum2_seq, HB by lia.
    apply Hquarter. split; [apply rpow_nonneg|].
    apply rpow_le; [|now apply exponent_pos]. split.
    + apply Rsum_map_nonneg. intros a. apply ipow_nonneg, clamp2_nonneg.
    + rewrite (Rsum_map_ext_in
                 (fun d => ipow (clamp2 (lo (axis other d) - hi (axis B d))
                                        (lo (axis B d) - hi (axis other d))) p)
                 (fun d => ipow (clamp2 (lo (axis B d) - hi (axis other d))
                                        (lo (axis other d) - hi (axis B d))) p))
        by (intros d _; f_equal; apply clamp2_comm).
      apply (Rsum_incl (fun d => ipow (clamp2 (lo (axis B d) - hi (axis other d))
                                       (lo (axis other d) - hi (axis B d))) p));
        trivial.
      intros a. apply ipow_nonneg, clamp2_nonneg.
Qed.

(** ** An index outside the bound *)

Lemma at_out {A : Type} (a : list A) (i : nat) :
  (length a <= i)%nat -> a@[i] = Fault OutOfBounds.
Proof.
  intros Hi. unfold at_.
  now rewrite (proj2 (nth_error_None a i)) by assumption.
Qed.

(** A loop stops with the fault of the first iteration that faults. *)
Lemma for_range_fault {S : Type} (body : nat -> S -> result S) (f : fault) :
  forall count start s,
    (exists d, (start <= d < start + count)%nat /\ forall t, body d t = Fault f) ->
    (forall d t, (start <= d < start + count)%nat ->
       body d t = Fault f \/ exists t', body d t = Ok t') ->
    for_range start count body s = Fault f.
Proof.
  induction count as [|k IH]; intros start s (d & Hd & Hbad) Hall; [lia|].
  simpl. destruct (Hall start s ltac:(lia)) as [->|[t' Ht']]; [reflexivity|].
  rewrite Ht'. simpl. apply IH.
  - exists d. split; [|exact Hbad].
    destruct (Nat.eq_dec d start) as [->|]; [|lia].
    rewrite Hbad in Ht'. discriminate.
  - intros d' t Hd'. apply Hall. lia.
Qed.

(** X10. The index sequence of a filtered overload is not checked: when it
    holds an index that is not below [dim], each of the four filtered
    [MinDistance] and [MaxDistance] overloads reads past the end of an
    array, whatever the other indices are. *)
Theorem filtered_index_out_of_range (p : Z) (B other : HRectBound) (x : vec)
    (indices : list nat) :
  (1 <= p)%Z -> allocated B -> allocated other ->
  length x = dim B -> dim B = dim other ->
  Exists (fun i => (dim B <= i)%nat) indices ->
  MinDistance_filtered p B x indices = Fault OutOfBounds
  /\ MinDistance_bound_filtered p B other indices = Fault OutOfBounds
  /\ MaxDistance_filtered p B x indices = Fault OutOfBounds
  /\ MaxDistance_bound_filtered p B other indices = Fault OutOfBounds.
Proof.
  intros Hp HB HO Hx Hd Hbad. unfold allocated in *.
  apply Exists_nth in Hbad as (k & d0 & Hk & Hik).
  rewrite (nth_indep indices d0 O Hk) in Hik.
  assert (Hx' : (length x =? dim B)%nat = true) by now apply Nat.eqb_eq.
  assert (Hd' : (dim B =? dim other)%nat = true) by now apply Nat.eqb_eq.
  assert (Hd'' : (dim other =? dim B)%nat = true) by (apply Nat.eqb_eq; lia).
  unfold MinDistance_filtered, MinDistance_bound_filtered,
    MaxDistance_filtered, MaxDistance_bound_filtered.
  rewrite Hx', Hd', Hd''. simpl.
  repeat split.
  all: rewrite (for_range_fault _ OutOfBounds); [reflexivity| |].
  all: try (exists k; split; [lia|]; intros t;
            rewrite (at_nth indices k O Hk); simpl;
            rewrite at_out by lia; reflexivity).
  all: intros j t Hj; rewrite (at_nth indices j O) by lia; simpl;
    destruct (Nat.lt_ge_cases (nth j indices O) (dim B)) as [Hin|Hout];
    [right; run_cells Hp; eexists; reflexivity
    |left; rewrite at_out by lia; reflexivity].
Qed.

(** ** The union operators as a cell-by-cell map *)

Lemma in_range_true (n d : nat) :
  (d < n)%nat -> (0 <=? d)%nat && (d <? 0 + n)%nat = true.
Proof.
  intros Hd. apply andb_true_iff. split.
  - apply Nat.leb_le. lia.
  - apply Nat.ltb_lt. lia.
Qed.

Lemma union_point_value (B : HRectBound) (x : vec) :
  length (bounds B) = dim B -> length x = dim B ->
  union_point B x
  = Ok (mkHRectBound (dim B) (map2 Range_union_scalar (bounds B) x)).
Proof.
  intros HB Hx. unfold union_point.
  rewrite Assert_true by now apply Nat.eqb_eq. simpl.
  destruct (union_loop Range_union_scalar x (mkRange 0 0) 0
              (dim B) 0 (bounds B)) as (bs' & -> & Hlen & Hcells); try lia.
  simpl. do 2 f_equal.
  apply (nth_ext _ _ (mkRange 0 0) (mkRange 0 0)).
  - rewrite map2_length; lia.
  - intros d Hlt. rewrite Hcells, in_range_true by lia.
    symmetry. apply map2_nth; lia.
Qed.

Lemma union_bound_value (B other : HRectBound) :
  length (bounds B) = dim B -> length (bounds other) = dim other ->
  dim other = dim B ->
  union_bound B other
  = Ok (mkHRectBound (dim B) (map2 Range_union (bounds B) (bounds other))).
Proof.
  intros HB HO Hd. unfold union_bound.
  rewrite Assert_true by now apply Nat.eqb_eq. simpl.
  destruct (union_loop Range_union (bounds other) (mkRange 0 0) (mkRange 0 0)
              (dim B) 0 (bounds B)) as (bs' & -> & Hlen & Hcells); try lia.
  simpl. do 2 f_equal.
  apply (nth_ext _ _ (mkRange 0 0) (mkRange 0 0)).
  - rewrite map2_length; lia.
  - intros d Hlt. rewrite Hcells, in_range_true by lia.
    symmetry. apply map2_nth; lia.
Qed.

Lemma axis_map2 {O : Type} (f : Range -> O -> Range) (B : HRectBound)
    (ops : list O) (o0 : O) (n d : nat) :
  length (bounds B) = length ops -> (d < length ops)%nat ->
  axis (mkHRectBound n (map2 f (bounds B) ops)) d
  = f (axis B d) (nth d ops o0).
Proof.
  intros Hlen Hd. unfold axis. simpl. apply map2_nth; lia.
Qed.

(** X11. After [B |= x] the bound contains the point [x] and every point it
    contained before; after [B |= other] it contains every point that [B] or
    [other] contained. *)
Theorem union_keeps_points (B other : HRectBound) (x : vec) :
  allocated B -> allocated other -> length x = dim B -> dim other = dim B ->
  (exists B', union_point B x = Ok B'
              /\ Contains B' x = Ok true
              /\ forall y, Contains B y = Ok true -> Contains B' y = Ok true)
  /\ (exists B', union_bound B other = Ok B'
                 /\ forall y, Contains B y = Ok true \/ Contains other y = Ok true ->
                              Contains B' y = Ok true).
Proof.
  intros HB HO Hx Hd. unfold allocated in *. split.
  - eexists. split; [now apply union_point_value|].
    assert (Hax : forall d, (d < dim B)%nat ->
              axis (mkHRectBound (dim B) (map2 Range_union_scalar (bounds B) x)) d
              = Range_union_scalar (axis B d) (coord x d))
      by (intros d Hlt; apply axis_map2; lia).
    split.
    + apply Contains_true_iff. simpl. rewrite map2_length by lia.
      split; [lia|]. intros d Hlt. rewrite Hax by lia.
      apply Range_Contains_true, Range_union_scalar_grows.
    + intros y Hy. apply Contains_true_iff in Hy as [Hlen Hin].
      apply Contains_true_iff. simpl. rewrite map2_length by lia.
      split; [lia|]. intros d Hlt. rewrite Hax by lia.
      apply Range_Contains_true.
      apply (Range_le_Contains (axis B d));
        [apply Range_union_scalar_grows | apply Range_Contains_true, Hin, Hlt].
  - eexists. split; [now apply union_bound_value|].
    assert (Hax : forall d, (d < dim B)%nat ->
              axis (mkHRectBound (dim B)
                      (map2 Range_union (bounds B) (bounds other))) d
              = Range_union (axis B d) (axis other d))
      by (intros d Hlt; apply axis_map2; lia).
    intros y [Hy|Hy]; apply Contains_true_iff in Hy as [Hlen Hin];
      apply Contains_true_iff; simpl; rewrite map2_length by lia;
      (split; [lia|]); intros d Hlt; rewrite Hax by lia;
      apply Range_Contains_true.
    + apply (Range_le_Contains (axis B d));
        [apply Range_union_grows | apply Range_Contains_true, Hin, Hlt].
    + apply (Range_le_Contains (axis other d));
        [apply Range_union_grows | apply Range_Contains_true, Hin, Hlt].
Qed.

Lemma map2_twice {A B : Type} (f : A -> B -> A) :
  (forall a b, f (f a b) b = f a b) ->
  forall (la : list A) (lb : list B),
    map2 f (map2 f la lb) lb = map2 f la lb.
Proof.
  intros Hf. induction la as [|a la IH]; intros [|b lb]; try reflexivity.
  unfold map2 in *. simpl. now rewrite Hf, IH.
Qed.

Lemma map2_swap {A B : Type} (f : A -> B -> A) :
  (forall a b c, f (f a b) c = f (f a c) b) ->
  forall (la : list A) (lb lc : list B),
    length la = length lb -> length la = length lc ->
    map2 f (map2 f la lb) lc = map2 f (map2 f la lc) lb.
Proof.
  intros Hf. induction la as [|a la IH]; intros [|b lb] [|c lc] Hb Hc;
    simpl in *; try discriminate; try reflexivity.
  unfold map2 in *. simpl. rewrite Hf. f_equal. apply IH; lia.
Qed.

Lemma Range_eq (r r' : Range) : lo r = lo r' -> hi r = hi r' -> r = r'.
Proof. destruct r, r'. simpl. now intros -> ->. Qed.

Lemma Range_union_scalar_twice (r : Range) (c : R) :
  Range_union_scalar (Range_union_scalar r c) c = Range_union_scalar r c.
Proof. apply Range_eq; unfold Range_union_scalar; simpl; real_cases. Qed.

Lemma Range_union_scalar_swap (r : Range) (c c' : R) :
  Range_union_scalar (Range_union_scalar r c) c'
  = Range_union_scalar (Range_union_scalar r c') c.
Proof. apply Range_eq; unfold Range_union_scalar; simpl; real_cases. Qed.

Lemma Range_union_twice (r o : Range) :
  Range_union (Range_union r o) o = Range_union r o.
Proof. apply Range_eq; unfold Range_union; simpl; real_cases. Qed.

Lemma Range_union_swap (r o o' : Range) :
  Range_union (Range_union r o) o' = Range_union (Range_union r o') o.
Proof. apply Range_eq; unfold Range_union; simpl; real_cases. Qed.

(** X12. Union is idempotent and the order of two unions does not matter:
    absorbing the same point (or bound) a second time changes nothing, and
    absorbing two points (or two bounds) in either order gives the same
    bound. *)
Theorem union_idempotent_commutative (B other other' : HRectBound) (x x' : vec) :
  allocated B -> allocated other -> allocated other' ->
  length x = dim B -> length x' = dim B ->
  dim other = dim B -> dim other' = dim B ->
  (exists B1, union_point B x = Ok B1 /\ union_point B1 x = Ok B1)
  /\ (exists B1 B2 B12,
         union_point B x = Ok B1 /\ union_point B x' = Ok B2
         /\ union_point B1 x' = Ok B12 /\ union_point B2 x = Ok B12)
  /\ (exists B1, union_bound B other = Ok B1 /\ union_bound B1 other = Ok B1)
  /\ (exists B1 B2 B12,
         union_bound B other = Ok B1 /\ union_bound B other' = Ok B2
         /\ union_bound B1 other' = Ok B12 /\ union_bound B2 other = Ok B12).
Proof.
  intros HB HO HO' Hx Hx' Hd Hd'. unfold allocated in *.
  split; [|split; [|split]].
  - eexists. split; [now apply union_point_value|].
    rewrite union_point_value by (simpl; rewrite ?map2_length; lia).
    simpl. now rewrite (map2_twice _ Range_union_scalar_twice).
  - do 3 eexists.
    split; [now apply union_point_value|].
    split; [now apply union_point_value|].
    split; [apply union_point_value; simpl; rewrite ?map2_length; lia|].
    rewrite union_point_value by (simpl; rewrite ?map2_length; lia).
    simpl. now rewrite (map2_swap _ Range_union_scalar_swap _ x x') by lia.
  - eexists. split; [now apply union_bound_value|].
    rewrite union_bound_value by (simpl; rewrite ?map2_length; lia).
    simpl. now rewrite (map2_twice _ Range_union_twice).
  - do 3 eexists.
    split; [now apply union_bound_value|].
    split; [now apply union_bound_value|].
    split; [apply union_bound_value; simpl; rewrite ?map2_length; lia|].
    rewrite union_bound_value by (simpl; rewrite ?map2_length; lia).
    simpl.
    now rewrite (map2_swap _ Range_union_swap _ (bounds other) (bounds other'))
      by lia.
Qed.

Lemma Range_union_scalar_least (r c' : Range) (c : R) :
  Range_le r c' -> lo c' <= c <= hi c' ->
  Range_le (Range_union_scalar r c) c'.
Proof.
  unfold Range_le, Range_union_scalar. simpl. intros [H1 H2] H3. real_cases.
Qed.

Lemma Range_union_least (r o c' : Range) :
  Range_le r c' -> Range_le o c' -> Range_le (Range_union r o) c'.
Proof.
  unfold Range_le, Range_union. simpl. intros [H1 H2] [H3 H4]. real_cases.
Qed.

(** X13. The union is the least such box: a box [C] that has [B] inside it
    and contains the point [x] has [B |= x] inside it, and a box that has
    both [B] and [other] inside it has [B |= other] inside it. *)
Theorem union_least (B other C : HRectBound) (x : vec) :
  allocated B -> allocated other -> length x = dim B -> dim other = dim B ->
  inside B C ->
  (Contains C x = Ok true ->
   exists B', union_point B x = Ok B' /\ inside B' C)
  /\ (inside other C ->
      exists B', union_bound B other = Ok B' /\ inside B' C).
Proof.
  intros HB HO Hx Hd Hin. unfold allocated in *. split.
  - intros Hc. apply Contains_true_iff in Hc as [_ Hc].
    eexists. split; [now apply union_point_value|].
    intros d Hlt. simpl in Hlt.
    rewrite (axis_map2 _ _ _ 0) by lia.
    apply Range_union_scalar_least; [now apply Hin|apply Hc; lia].
  - intros Hin'.
    eexists. split; [now apply union_bound_value|].
    intros d Hlt. simpl in Hlt.
    rewrite (axis_map2 _ _ _ (mkRange 0 0)) by lia.
    apply Range_union_least; [now apply Hin|apply Hin'; lia].
Qed.

(** ** Growing a box *)

Lemma axis_grow_min (r r' : Range) (c : R) :
  Range_le r r' ->
  clamp2 (lo r' - c) (c - hi r') / 2 <= clamp2 (lo r - c) (c - hi r) / 2.
Proof. unfold Range_le. intros [H1 H2]. real_cases. Qed.

Lemma axis_grow_max (r r' : Range) (c : R) :
  Range_le r r' -> lo r <= hi r ->
  Rabs (Rmax (c - lo r) (hi r - c)) <= Rabs (Rmax (c - lo r') (hi r' - c)).
Proof. unfold Range_le. intros [H1 H2] H3. real_cases. Qed.

Lemma axis_grow_min_bound (m m' o : Range) :
  Range_le m m' ->
  clamp2 (lo o - hi m') (lo m' - hi o) / 2
  <= clamp2 (lo o - hi m) (lo m - hi o) / 2.
Proof. unfold Range_le. intros [H1 H2]. real_cases. Qed.

Lemma axis_grow_max_bound (m m' o : Range) :
  Range_le m m' -> lo m <= hi m -> lo o <= hi o ->
  Rabs (Rmax (hi o - lo m) (hi m - lo o))
  <= Rabs (Rmax (hi o - lo m') (hi m' - lo o)).
Proof. unfold Range_le. intros [H1 H2] H3 H4. real_cases. Qed.

(** X14. The distances follow the inclusion of boxes: when [B] lies inside
    [B'], [MinDistance] to a point or to another bound is no larger from [B']
    than from [B], and for well-formed intervals [MaxDistance] is no smaller
    from [B'] than from [B]. *)
Theorem distances_monotone_in_box (p : Z) (B B' other : HRectBound) (q : vec) :
  (1 <= p)%Z -> allocated B -> allocated B' -> allocated other ->
  dim B' = dim B -> dim other = dim B -> length q = dim B ->
  inside B B' ->
  (exists m m', MinDistance p B q = Ok m /\ MinDistance p B' q = Ok m'
                /\ m' <= m)
  /\ (exists m m', MinDistance_bound p B other = Ok m
                   /\ MinDistance_bound p B' other = Ok m' /\ m' <= m)
  /\ (well_formed B ->
      exists M M', MaxDistance p B q = Ok M /\ MaxDistance p B' q = Ok M'
                   /\ M <= M')
  /\ (well_formed B -> well_formed other ->
      exists M M', MaxDistance_bound p B other = Ok M
                   /\ MaxDistance_bound p B' other = Ok M' /\ M <= M').
Proof.
  intros Hp HB HB' HO Hd' Hd Hq Hin. unfold allocated in *.
  split; [|split; [|split]].
  - do 2 eexists.
    split; [now apply MinDistance_value|].
    split; [apply MinDistance_value; (assumption || lia)|].
    rewrite !MinDistance_formula_seq by (assumption || lia).
    apply norm_sum_le; trivial. intros d Hlt. apply in_seq in Hlt.
    split; [apply half_clamp2_nonneg|]. apply axis_grow_min, Hin. lia.
  - do 2 eexists.
    split; [apply MinDistance_bound_value; (assumption || lia)|].
    split; [apply MinDistance_bound_value; (assumption || lia)|].
    rewrite !MinDistance_bound_formula_seq by (assumption || lia).
    rewrite HB, HB', Hd'.
    apply norm_sum_le; trivial. intros d Hlt. apply in_seq in Hlt.
    split; [apply half_clamp2_nonneg|]. apply axis_grow_min_bound, Hin. lia.
  - intros WB. do 2 eexists.
    split; [now apply MaxDistance_value|].
    split; [apply MaxDistance_value; (assumption || lia)|].
    rewrite !MaxDistance_formula_seq by lia.
    apply norm_sum_le; trivial. intros d Hlt. apply in_seq in Hlt.
    split; [apply Rabs_pos|].
    apply axis_grow_max; [apply Hin; lia | apply wf_axis; [assumption|lia]].
  - intros WB WO. do 2 eexists.
    split; [apply MaxDistance_bound_value; (assumption || lia)|].
    split; [apply MaxDistance_bound_value; (assumption || lia)|].
    rewrite !MaxDistance_bound_formula_seq by lia.
    rewrite HB, HB', Hd'.
    apply norm_sum_le; trivial. intros d Hlt. apply in_seq in Hlt.
    split; [apply Rabs_pos|].
    apply axis_grow_max_bound;
      [apply Hin; lia | apply wf_axis; [assumption|lia]
       | apply wf_axis; [assumption|lia]].
Qed.

(** X15. A union can only bring a bound closer: after [B |= x],
    [MinDistance] to any query point is at most what it was, the absorbed
    point itself is at [MinDistance] 0, and for well-formed intervals
    [MaxDistance] to the query point is at least what it was. *)
Theorem union_point_distances (p : Z) (B : HRectBound) (x q : vec) :
  (1 <= p)%Z -> allocated B -> length x = dim B -> length q = dim B ->
  exists B',
    union_point B x = Ok B'
    /\ MinDistance p B' x = Ok 0
    /\ (exists m m', MinDistance p B q = Ok m /\ MinDistance p B' q = Ok m'
                     /\ m' <= m)
    /\ (well_formed B ->
        exists M M', MaxDistance p B q = Ok M /\ MaxDistance p B' q = Ok M'
                     /\ M <= M').
Proof.
  intros Hp HB Hx Hq. unfold allocated in *.
  set (B' := mkHRectBound (dim B) (map2 Range_union_scalar (bounds B) x)).
  assert (HB' : length (bounds B') = dim B')
    by (unfold B'; simpl; rewrite map2_length; lia).
  assert (Hdim : dim B' = dim B) by reflexivity.
  assert (Hax : forall d, (d < dim B)%nat ->
            axis B' d = Range_union_scalar (axis B d) (coord x d))
    by (intros d Hlt; apply axis_map2; lia).
  exists B'. split; [now apply union_point_value|].
  split; [|split].
  - rewrite MinDistance_value, MinDistance_formula_seq by (assumption || lia).
    f_equal. apply norm_sum_all_zero; trivial.
    intros d Hlt. apply in_seq in Hlt. rewrite Hax by lia.
    destruct (Range_union_scalar_grows (axis B d) (coord x d)) as [_ Hc].
    apply Range_Contains_true in Hc.
    replace (clamp2 _ _) with 0; [lra|].
    symmetry. apply clamp2_zero. lra.
  - do 2 eexists.
    split; [now apply MinDistance_value|].
    split; [apply MinDistance_value; (assumption || lia)|].
    rewrite !MinDistance_formula_seq by (assumption || lia).
    apply norm_sum_le; trivial. intros d Hlt. apply in_seq in Hlt.
    split; [apply half_clamp2_nonneg|].
    apply axis_grow_min. rewrite Hax by lia. apply Range_union_scalar_grows.
  - intros WB. do 2 eexists.
    split; [now apply MaxDistance_value|].
    split; [apply MaxDistance_value; (assumption || lia)|].
    rewrite !MaxDistance_formula_seq by lia.
    apply norm_sum_le; trivial. intros d Hlt. apply in_seq in Hlt.
    split; [apply Rabs_pos|].
    apply axis_grow_max; [|apply wf_axis; [assumption|lia]].
    rewrite Hax by lia. apply Range_union_scalar_grows.
Qed.

(** ** Loops that overwrite every cell *)

Lemma store_loop {A : Type} (val : nat -> A)
    (body : nat -> list A -> result (list A)) (a0 : A) :
  forall count start bs,
    (forall i t, (start <= i < start + count)%nat -> body i t = store t i (val i)) ->
    (start + count <= length bs)%nat ->
    exists bs',
      for_range start count body bs = Ok bs'
      /\ length bs' = length bs
      /\ forall d,
           nth d bs' a0
           = if (start <=? d)%nat && (d <? start + count)%nat
             then val d else nth d bs a0.
Proof.
  induction count as [|k IH]; intros start bs Hbody Hbs; simpl.
  - exists bs. repeat split. intros d.
    destruct (start <=? d)%nat eqn:E1, (d <? start + 0)%nat eqn:E2;
      try reflexivity.
    apply Nat.leb_le in E1. apply Nat.ltb_lt in E2. lia.
  - rewrite Hbody by lia.
    destruct (store_Ok a0 (val start) bs start)
      as (bs1 & -> & Hlen1 & Hv1 & Hother1); [lia|]. simpl.
    destruct (IH (S start) bs1) as (bs' & -> & Hlen' & Hcells); try lia.
    { intros i t Hi. apply Hbody. lia. }
    exists bs'. repeat split; [lia|]. intros d. rewrite Hcells.
    destruct (Nat.eq_dec d start) as [->|Hne].
    + replace (S start <=? start)%nat with false
        by (symmetry; apply Nat.leb_gt; lia).
      replace (start <=? start)%nat with true
        by (symmetry; apply Nat.leb_le; lia).
      replace (start <? start + S k)%nat with true
        by (symmetry; apply Nat.ltb_lt; lia).
      simpl. exact Hv1.
    + rewrite (Hother1 d Hne).
      replace (start + S k)%nat with (S start + k)%nat by lia.
      destruct (S start <=? d)%nat eqn:E1, (start <=? d)%nat eqn:E2;
        try reflexivity.
      * apply Nat.leb_le in E1. apply Nat.leb_gt in E2. lia.
      * apply Nat.leb_gt in E1. apply Nat.leb_le in E2. lia.
Qed.

(** A loop that stores [val i] in every cell [i] of an array of [n] cells. *)
Lemma store_all {A : Type} (val : nat -> A)
    (body : nat -> list A -> result (list A)) (n : nat) (bs : list A) :
  (forall i t, (i < n)%nat -> body i t = store t i (val i)) ->
  length bs = n ->
  for_range 0 n body bs = Ok (map val (seq 0 n)).
Proof.
  intros Hbody Hlen.
  destruct (store_loop val body (val O) n 0 bs) as (bs' & -> & Hlen' & Hcells);
    [intros i t Hi; apply Hbody; lia | lia |].
  f_equal. apply (nth_ext _ _ (val O) (val O)).
  - rewrite length_map, length_seq. lia.
  - intros d Hd. rewrite Hcells, in_range_true by lia.
    rewrite (map_nth val), seq_nth by lia. reflexivity.
Qed.

Lemma map_axis_seq (B : HRectBound) :
  map (axis B) (seq 0 (length (bounds B))) = bounds B.
Proof. unfold axis. apply map_nth_seq. Qed.

(** X16. The copy constructor and the assignment operator (from another
    object) build a bound equal to their source, with [dim] cells of its
    own: every axis interval is copied, whatever the empty interval of the
    fresh cells is and, for the assignment, whatever the bound held
    before. *)
Theorem copy_assign_equal (Range_empty : Range) (B other : HRectBound) :
  allocated other ->
  HRectBound_copy Range_empty other = Ok other
  /\ HRectBound_assign Range_empty B other = Ok other.
Proof.
  intros HO. unfold allocated in HO.
  assert (Hloop : for_range 0 (dim other)
            (fun i bs => oi <- HRectBound_at other i ;; store bs i oi)
            (new_Ranges Range_empty (dim other)) = Ok (bounds other)).
  { rewrite (store_all (axis other)).
    - now rewrite <- HO, map_axis_seq.
    - intros i t Hi. unfold HRectBound_at.
      now rewrite (at_nth (bounds other) i (mkRange 0 0)) by lia.
    - apply repeat_length. }
  unfold HRectBound_copy, HRectBound_assign. rewrite Hloop. simpl.
  now destruct other.
Qed.

(** X17. [Clear] returns an allocated bound to the state in which the sized
    constructor makes it: the same [dim], every axis the empty interval;
    clearing a second time changes nothing. *)
Theorem Clear_resets (Range_empty : Range) (B : HRectBound) :
  allocated B ->
  Clear Range_empty B = Ok (HRectBound_sized Range_empty (dim B))
  /\ Clear Range_empty (HRectBound_sized Range_empty (dim B))
     = Ok (HRectBound_sized Range_empty (dim B))
  /\ allocated (HRectBound_sized Range_empty (dim B)).
Proof.
  intros HB. unfold allocated in *.
  assert (Hloop : forall bs, length bs = dim B ->
            for_range 0 (dim B) (fun i bs => store bs i Range_empty) bs
            = Ok (new_Ranges Range_empty (dim B))).
  { intros bs Hlen. rewrite (store_all (fun _ => Range_empty)); trivial.
    f_equal. unfold new_Ranges.
    generalize (dim B) at 1 2. generalize O.
    intros s n. revert s. induction n as [|n IH]; intros s; simpl;
      [reflexivity|now rewrite IH]. }
  unfold Clear, HRectBound_sized. simpl.
  rewrite !Hloop by (trivial; apply repeat_length).
  repeat split. simpl. apply repeat_length.
Qed.

(** ** A bound built from its first point *)

Lemma map2_repeat {A B C : Type} (f : A -> B -> C) (a : A) (lb : list B) :
  map2 f (repeat a (length lb)) lb = map (f a) lb.
Proof.
  unfold map2. induction lb as [|b lb IH]; simpl; [reflexivity|].
  now rewrite IH.
Qed.

Lemma Range_union_scalar_empty (e : Range) (c : R) :
  hi e <= c <= lo e -> Range_union_scalar e c = mkRange c c.
Proof.
  intros H. apply Range_eq; unfold Range_union_scalar; simpl; real_cases.
Qed.

(** X18. A bound made by the sized constructor and grown by one point is the
    degenerate box of that point: every axis is [[c, c]] for its coordinate
    [c], and the only point of that dimension it contains is the point
    itself.  The empty interval has to be the identity of the union on the
    coordinates in use: [hi <= c <= lo] for each of them. *)
Theorem first_point_degenerate (Range_empty : Range) (x : vec) :
  Forall (fun c => hi Range_empty <= c <= lo Range_empty) x ->
  exists B',
    union_point (HRectBound_sized Range_empty (length x)) x = Ok B'
    /\ B' = mkHRectBound (length x) (map (fun c => mkRange c c) x)
    /\ forall y, length y = length x -> (Contains B' y = Ok true <-> y = x).
Proof.
  intros He. eexists. split; [|split; [reflexivity|]].
  - rewrite union_point_value by (simpl; try apply repeat_length; reflexivity).
    simpl. unfold new_Ranges. rewrite map2_repeat. do 2 f_equal.
    apply map_ext_in. intros c Hc.
    apply Range_union_scalar_empty.
    now apply (proj1 (Forall_forall _ _) He).
  - intros y Hy.
    assert (Hax : forall d, (d < length x)%nat ->
              axis (mkHRectBound (length x) (map (fun c => mkRange c c) x)) d
              = mkRange (coord x d) (coord x d)).
    { intros d Hd. unfold axis, coord. simpl.
      exact (map_nth (fun c => mkRange c c) x 0 d). }
    rewrite Contains_true_iff. simpl. rewrite length_map. split.
    + intros [_ Hin]. apply (nth_ext _ _ 0 0); [assumption|].
      intros d Hd. specialize (Hin d Hd). rewrite Hax in Hin by lia.
      simpl in Hin. unfold coord in Hin. lra.
    + intros ->. split; [lia|]. intros d Hd. rewrite Hax by lia. simpl. lra.
Qed.

(** ** [Centroid] *)

Lemma Centroid_value (uninit : nat -> vec) (B : HRectBound) (c : vec) :
  length (bounds B) = dim B -> length (uninit (dim B)) = dim B ->
  Centroid uninit B c = Ok (map Range_Mid (bounds B)).
Proof.
  intros HB Hu. unfold Centroid.
  rewrite (store_all (fun i => Range_Mid (axis B i))).
  - f_equal. rewrite <- (map_map (axis B) Range_Mid).
    now rewrite <- HB, map_axis_seq.
  - intros i t Hi.
    now rewrite (at_nth (bounds B) i (mkRange 0 0)) by lia.
  - destruct (length c =? dim B)%nat eqn:E; simpl; [|exact Hu].
    now apply Nat.eqb_eq.
Qed.

Lemma coord_map_Mid (B : HRectBound) (d : nat) :
  (d < length (bounds B))%nat ->
  coord (map Range_Mid (bounds B)) d = Range_Mid (axis B d).
Proof.
  intros Hd. unfold coord, axis.
  rewrite (nth_indep _ 0 (Range_Mid (mkRange 0 0))) by (rewrite length_map; lia).
  apply (map_nth Range_Mid).
Qed.

(** X19. [Centroid] returns a vector of exactly [dim] coordinates, the
    midpoint of each axis interval, whatever vector it was handed (of
    another length and resized, or of the right length and overwritten); for
    a bound with well-formed intervals [Contains] accepts that point. *)
Theorem Centroid_spec (uninit : nat -> vec) (B : HRectBound) (c : vec) :
  allocated B -> length (uninit (dim B)) = dim B ->
  exists m,
    Centroid uninit B c = Ok m
    /\ length m = dim B
    /\ (forall d, (d < dim B)%nat ->
          coord m d = (lo (axis B d) + hi (axis B d)) / 2)
    /\ (well_formed B -> Contains B m = Ok true).
Proof.
  intros HB Hu. unfold allocated in HB.
  exists (map Range_Mid (bounds B)).
  split; [now apply Centroid_value|].
  split; [rewrite length_map; lia|]. split.
  - intros d Hd. rewrite coord_map_Mid by lia. reflexivity.
  - intros WB. apply Contains_true_iff. rewrite length_map.
    split; [lia|]. intros d Hd. rewrite coord_map_Mid by lia.
    pose proof (wf_axis B d WB Hd). unfold Range_Mid. lra.
Qed.

Lemma axis_mid_max (r : Range) (c : R) :
  lo r <= hi r ->
  Rabs (Rmax (Range_Mid r - lo r) (hi r - Range_Mid r))
  <= Rabs (Rmax (c - lo r) (hi r - c)).
Proof. intros H. unfold Range_Mid. real_cases. Qed.

(** X20. In a bound with well-formed intervals the centroid is the point
    with the least [MaxDistance]: for every point [q] of [dim] coordinates,
    [MaxDistance(centroid) <= MaxDistance(q)]. *)
Theorem Centroid_least_MaxDistance (p : Z) (uninit : nat -> vec)
    (B : HRectBound) (c q : vec) :
  (1 <= p)%Z -> allocated B -> well_formed B ->
  length (uninit (dim B)) = dim B -> length q = dim B ->
  exists m Mc Mq,
    Centroid uninit B c = Ok m
    /\ MaxDistance p B m = Ok Mc /\ MaxDistance p B q = Ok Mq
    /\ Mc <= Mq.
Proof.
  intros Hp HB WB Hu Hq. unfold allocated in HB.
  assert (Hm : length (map Range_Mid (bounds B)) = dim B)
    by (rewrite length_map; lia).
  do 3 eexists.
  split; [now apply Centroid_value|].
  split; [now apply MaxDistance_value|].
  split; [now apply MaxDistance_value|].
  rewrite !MaxDistance_formula_seq by lia. rewrite Hm, Hq.
  apply norm_sum_le; trivial. intros d Hd. apply in_seq in Hd.
  split; [apply Rabs_pos|]. rewrite coord_map_Mid by lia.
  apply axis_mid_max, wf_axis; [assumption|lia].
Qed.

(** ** The Gaussian kernel *)

Lemma pow_minus_2 (b : R) : b <> 0 -> pow b (-2) = Ok (/ (b * b)).
Proof.
  intros Hb. unfold pow.
  destruct (Req_dec_T (-2) 0); [lra|].
  destruct (Rlt_dec 0 b) as [Hpos|Hneg].
  - f_equal. replace (-2) with (- INR 2) by (simpl; lra).
    rewrite Rpower_Ropp, Rpower_pow by assumption. simpl. f_equal. lra.
  - destruct (Req_dec_T b 0); [contradiction|].
    rewrite Int_part_IZR.
    destruct (Req_dec_T (IZR (-2)) (IZR (-2))); [|congruence].
    f_equal. simpl. f_equal. lra.
Qed.

Lemma pow_minus_2_zero : pow 0 (-2) = Fault NotReal.
Proof.
  unfold pow.
  destruct (Req_dec_T (-2) 0); [lra|].
  destruct (Rlt_dec 0 0); [lra|].
  destruct (Req_dec_T 0 0); [|lra].
  destruct (Rlt_dec 0 (-2)); [lra|reflexivity].
Qed.

Lemma Rsum_cons (c : R) (l : list R) : Rsum (c :: l) = c + Rsum l.
Proof. reflexivity. Qed.

Lemma dot_diff_sqdist :
  forall a b : vec,
    Rsum (map (fun c => fst c * snd c)
              (combine (map (fun c => fst c - snd c) (combine b a))
                       (map (fun c => fst c - snd c) (combine b a))))
    = sqdist a b.
Proof.
  unfold sqdist.
  induction a as [|x a IH]; intros [|y b]; try reflexivity.
  cbn [combine map fst snd]. rewrite !Rsum_cons, IH. ring.
Qed.

Lemma Evaluate_value (k : GaussianKernel) (a b : vec) :
  length a = length b -> Evaluate k a b = Ok (exp (gamma k * sqdist a b)).
Proof.
  intros Hlen. unfold Evaluate, arma_minus, arma_dot.
  rewrite Assert_true by (apply Nat.eqb_eq; lia). simpl.
  rewrite Assert_true by (apply Nat.eqb_eq; reflexivity). simpl.
  now rewrite dot_diff_sqdist.
Qed.

Lemma sqdist_nonneg (a b : vec) : 0 <= sqdist a b.
Proof.
  unfold sqdist. apply Rsum_map_nonneg. intros c. apply pow2_ge_0.
Qed.

Lemma sqdist_sym (a b : vec) : sqdist a b = sqdist b a.
Proof.
  unfold sqdist. revert b.
  induction a as [|x a IH]; intros [|y b]; try reflexivity.
  cbn [combine map fst snd]. rewrite !Rsum_cons, IH. ring.
Qed.

Lemma sqdist_zero (a b : vec) :
  length a = length b -> (sqdist a b = 0 <-> a = b).
Proof.
  unfold sqdist. revert b.
  induction a as [|x a IH]; intros [|y b] Hlen; simpl in Hlen; try discriminate.
  - split; reflexivity.
  - cbn [combine map fst snd]. rewrite Rsum_cons.
    pose proof (pow2_ge_0 (x - y)) as Hsq.
    pose proof (Rsum_map_nonneg (fun c => (fst c - snd c) ^ 2) (combine a b)
                  (fun c => pow2_ge_0 _)) as Hrest.
    split.
    + intros H.
      assert (Hx : (x - y) ^ 2 = 0) by lra.
      assert (Hxy : x - y = 0).
      { destruct (Req_dec_T (x - y) 0) as [E|E]; [exact E|].
        now apply (pow_nonzero _ 2) in E. }
      assert (x = y) by lra. subst. f_equal.
      apply IH; [lia|lra].
    + intros [= -> ->]. rewrite (proj2 (IH b ltac:(lia)) eq_refl).
      replace (y - y) with 0 by lra. rewrite pow_i by lia. lra.
Qed.

(** X21. [GaussianKernel(bandwidth)] has a real [gamma] exactly when the
    bandwidth is not 0, and then [gamma = -1 / (2 bandwidth^2)] and the two
    [Evaluate] overloads compute the documented kernel:
    [K(a, b) = exp(-||a - b||^2 / (2 bandwidth^2))] on two vectors of the
    same length and [exp(-t^2 / (2 bandwidth^2))] on a scalar. *)
Theorem GaussianKernel_formula (bw : R) (a b : vec) (t : R) :
  (bw = 0 -> GaussianKernel_new bw = Fault NotReal)
  /\ (bw <> 0 -> length a = length b ->
      exists k,
        GaussianKernel_new bw = Ok k
        /\ bandwidth k = bw
        /\ gamma k = - 1 / (2 * bw ^ 2)
        /\ Evaluate k a b = Ok (exp (- sqdist a b / (2 * bw ^ 2)))
        /\ Evaluate_scalar k t = exp (- t ^ 2 / (2 * bw ^ 2))).
Proof.
  split.
  - intros ->. unfold GaussianKernel_new. now rewrite pow_minus_2_zero.
  - intros Hbw Hlen. unfold GaussianKernel_new.
    rewrite pow_minus_2 by assumption. simpl. eexists.
    split; [reflexivity|]. simpl.
    assert (Hg : -0.5 * / (bw * bw) = - 1 / (2 * bw ^ 2))
      by (replace (-0.5) with (- (1 / 2)) by lra; field; assumption).
    split; [reflexivity|]. split; [exact Hg|]. split.
    + rewrite Evaluate_value by assumption. simpl. do 2 f_equal.
      rewrite Hg. field. assumption.
    + unfold Evaluate_scalar. simpl. f_equal. rewrite Hg. field. assumption.
Qed.

Lemma GaussianKernel_new_inv (bw : R) (k : GaussianKernel) :
  GaussianKernel_new bw = Ok k ->
  bw <> 0 /\ k = mkGaussianKernel bw (bw * sqrt (2 * PI)) (-0.5 * / (bw * bw)).
Proof.
  intros H. destruct (Req_dec_T bw 0) as [->|Hbw].
  - unfold GaussianKernel_new in H. rewrite pow_minus_2_zero in H. discriminate.
  - split; [assumption|]. unfold GaussianKernel_new in H.
    rewrite pow_minus_2 in H by assumption. simpl in H. congruence.
Qed.

Lemma GaussianKernel_new_gamma (bw : R) (k : GaussianKernel) :
  GaussianKernel_new bw = Ok k -> gamma k < 0.
Proof.
  intros H. apply GaussianKernel_new_inv in H as [Hbw ->]. simpl.
  assert (0 < / (bw * bw)) by (apply Rinv_0_lt_compat; nra).
  lra.
Qed.

Lemma exp_le (u v : R) : u <= v -> exp u <= exp v.
Proof.
  intros [H | ->]; [left; now apply exp_increasing|right; reflexivity].
Qed.

(** X22. Under exact real arithmetic (every double read as a real number,
    so that [exp] neither underflows to 0 nor rounds to 1), for a kernel
    made by [GaussianKernel(bandwidth)], [Evaluate] on two vectors of the
    same length is symmetric, lies in [(0, 1]], is 1 exactly when the two
    vectors are equal, and does not grow with the distance: a vector that
    is farther from [a] has the smaller value. *)
Theorem GaussianKernel_Evaluate_properties (bw : R) (k : GaussianKernel)
    (a b c : vec) :
  GaussianKernel_new bw = Ok k -> length a = length b -> length a = length c ->
  exists v,
    Evaluate k a b = Ok v
    /\ Evaluate k b a = Ok v
    /\ 0 < v <= 1
    /\ (v = 1 <-> a = b)
    /\ (sqdist a b <= sqdist a c ->
        exists w, Evaluate k a c = Ok w /\ w <= v).
Proof.
  intros Hk Hb Hc. apply GaussianKernel_new_gamma in Hk.
  pose proof (sqdist_nonneg a b) as Hnn.
  exists (exp (gamma k * sqdist a b)).
  split; [now apply Evaluate_value|].
  split; [rewrite Evaluate_value, sqdist_sym by lia; reflexivity|].
  split; [|split].
  - split; [apply exp_pos|]. rewrite <- exp_0. apply exp_le. nra.
  - rewrite <- exp_0. split.
    + intros H. apply exp_inv in H. apply sqdist_zero; [assumption|nra].
    + intros Hab. apply (sqdist_zero a b Hb) in Hab. rewrite Hab. f_equal. lra.
  - intros Hfar. eexists. split; [now apply Evaluate_value|].
    apply exp_le. nra.
Qed.


(** X24. The sign of the bandwidth does not reach [Evaluate]:
    [GaussianKernel(-bandwidth)] has the [gamma] of
    [GaussianKernel(bandwidth)] and evaluates alike, while its normalizer
    is the opposite number, positive only for a positive bandwidth. *)
Theorem GaussianKernel_bandwidth_sign (bw : R) (a b : vec) :
  bw <> 0 ->
  exists k k',
    GaussianKernel_new bw = Ok k /\ GaussianKernel_new (- bw) = Ok k'
    /\ gamma k' = gamma k
    /\ Evaluate k' a b = Evaluate k a b
    /\ normalizer k' = - normalizer k
    /\ (0 < normalizer k <-> 0 < bw).
Proof.
  intros Hbw. unfold GaussianKernel_new.
  rewrite !pow_minus_2 by lra. simpl. do 2 eexists.
  split; [reflexivity|]. split; [reflexivity|]. simpl.
  assert (Hg : -0.5 * / (- bw * - bw) = -0.5 * / (bw * bw))
    by (do 2 f_equal; ring).
  assert (Hs : 0 < sqrt (2 * PI)).
  { apply sqrt_lt_R0. pose proof PI_RGT_0. lra. }
  split; [exact Hg|]. split; [|split].
  - unfold Evaluate. simpl. now rewrite Hg.
  - ring.
  - split; intros H; nra.
Qed.

(** ** The k-means executable *)

Lemma pbind_Done {A B : Type} (m : prog A) (k : A -> prog B) t b :
  pbind m k = (t, Done b) ->
  exists t1 a t2, m = (t1, Done a) /\ k a = (t2, Done b) /\ t = t1 ++ t2.
Proof.
  destruct m as [t1 [a|r]]; simpl; [|discriminate].
  destruct (k a) as [t2 o] eqn:E. intros [= <- ->].
  now exists t1, a, t2.
Qed.

Lemma pbind_Fatal {A B : Type} (m : prog A) (k : A -> prog B) t r :
  pbind m k = (t, Fatal r) ->
  m = (t, Fatal r)
  \/ exists t1 a t2, m = (t1, Done a) /\ k a = (t2, Fatal r) /\ t = t1 ++ t2.
Proof.
  destruct m as [t1 [a|r1]]; simpl.
  - destruct (k a) as [t2 o] eqn:E. intros [= <- ->].
    right. now exists t1, a, t2.
  - intros [= <- <-]. now left.
Qed.

Lemma pbind_inv {A B : Type} (m : prog A) (k : A -> prog B) t o :
  pbind m k = (t, o) ->
  (exists r, m = (t, Fatal r) /\ o = Fatal r)
  \/ exists t1 a t2, m = (t1, Done a) /\ k a = (t2, o) /\ t = t1 ++ t2.
Proof.
  destruct m as [t1 [a|r1]]; simpl.
  - destruct (k a) as [t2 o'] eqn:E. intros [= <- ->].
    right. now exists t1, a, t2.
  - intros [= <- <-]. left. now exists r1.
Qed.

Lemma saves_app (t1 t2 : list event) : saves (t1 ++ t2) = saves t1 ++ saves t2.
Proof. apply flat_map_app. Qed.

Lemma loads_app (t1 t2 : list event) : loads (t1 ++ t2) = loads t1 ++ loads t2.
Proof. apply flat_map_app. Qed.

Lemma cluster_calls_app (t1 t2 : list event) :
  cluster_calls (t1 ++ t2) = cluster_calls t1 ++ cluster_calls t2.
Proof. apply filter_app. Qed.

(** Take a finished or failed run apart into its steps. *)
Ltac steps :=
  repeat match goal with
         | H : pbind _ _ = (_, Done _) |- _ =>
             apply pbind_Done in H as (? & ? & ? & ? & H & ?)
         | H : pbind _ _ = (_, Fatal _) |- _ =>
             apply pbind_Fatal in H as [H | (? & ? & ? & ? & H & ?)]
         end.

Ltac step_cases :=
  repeat match goal with
         | H : (if ?b then _ else _) = (_, _) |- _ => destruct b eqn:?
         | H : (match ?o with Some _ => _ | None => _ end) = (_, _) |- _ =>
             destruct o eqn:?
         | H : skip = _ |- _ => inversion H; clear H
         | H : emit _ = _ |- _ => inversion H; clear H
         | H : Log_Fatal _ = _ |- _ => inversion H; clear H
         | H : (_, _) = (_, _) |- _ => inversion H; clear H
         | H : data_Load _ _ = _ |- _ => unfold data_Load in H
         | H : pbind _ _ = _ |- _ => progress steps
         end; subst.

Ltac Z_tests :=
  repeat match goal with
         | H : (_ <? _)%Z = true |- _ => apply Z.ltb_lt in H
         | H : (_ <? _)%Z = false |- _ => apply Z.ltb_ge in H
         end.

Section RunKMeansFacts.

Variable load_ok : String.string -> bool.
Variable c : CLI.
Variables (ipp : InitialPartitionPolicy) (ecp : EmptyClusterPolicy)
          (step : LloydStepType).

Lemma RunKMeans_Fatal t r :
  RunKMeans load_ok c ipp ecp step = (t, Fatal r) ->
  saves t = [] /\ cluster_calls t = [].
Proof.
  unfold RunKMeans. intros H. steps; step_cases; try discriminate;
    split; reflexivity.
Qed.

(** A run whose options fail a check of [RunKMeans] ends before any load. *)
Lemma RunKMeans_rejects t o :
  RunKMeans load_ok c ipp ecp step = (t, o) ->
  ~ ((1 <= clusters c)%Z /\ (0 <= GetParam_max_iterations c)%Z) ->
  loads t = [] /\ exists r, o = Fatal r.
Proof.
  unfold RunKMeans. intros H Hbad.
  destruct (clusters c <? 1)%Z eqn:E1;
    [simpl in H; inversion H; split; [reflexivity|eexists; reflexivity]|].
  destruct (GetParam_max_iterations c <? 0)%Z eqn:E2;
    [simpl in H; inversion H; split; [reflexivity|eexists; reflexivity]|].
  Z_tests. exfalso. apply Hbad. lia.
Qed.

Lemma RunKMeans_Done t u :
  RunKMeans load_ok c ipp ecp step = (t, Done u) ->
  ((1 <= clusters c)%Z /\ (0 <= GetParam_max_iterations c)%Z)
  /\ loadable load_ok c
  /\ loads t = expected_loads c
  /\ cluster_calls t
     = [Cluster ipp ecp step (GetParam_max_iterations c) (clusters c)
                (HasParam (output_file c) || in_place c)
                (HasParam (initial_centroids c))]
  /\ saves t = expected_saves c.
Proof.
  unfold RunKMeans, loadable, expected_loads, expected_saves,
    GetParam_output_file, GetParam_centroid_file, GetParam_initial_centroids.
  intros H. steps.
  destruct (clusters c <? 1)%Z eqn:E1; [discriminate|].
  destruct (GetParam_max_iterations c <? 0)%Z eqn:E2; [discriminate|].
  Z_tests.
  destruct (in_place c), (output_file c), (centroid_file c),
    (initial_centroids c), (labels_only c), (refined_start c);
    simpl in *; step_cases; try discriminate;
    (split; [lia|]); (split; [repeat constructor; assumption|]);
    repeat split.
Qed.

Lemma RunKMeans_total :
  (1 <= clusters c)%Z -> (0 <= GetParam_max_iterations c)%Z ->
  loadable load_ok c ->
  exists t, RunKMeans load_ok c ipp ecp step = (t, Done tt).
Proof.
  unfold RunKMeans, loadable, expected_loads, data_Load,
    GetParam_initial_centroids.
  intros H1 H2 Hl.
  rewrite (proj2 (Z.ltb_ge _ _) H1), (proj2 (Z.ltb_ge _ _) H2).
  inversion Hl as [|? ? Hin Hrest]; subst. rewrite Hin.
  destruct (initial_centroids c) as [f|];
    [inversion Hrest as [|? ? Hf _]; subst; simpl; rewrite Hf|];
    destruct (in_place c), (output_file c), (centroid_file c),
      (labels_only c), (refined_start c);
    simpl; eexists; reflexivity.
Qed.

End RunKMeansFacts.

Section MainFacts.

Variable load_ok : String.string -> bool.
Variable c : CLI.

Lemma FindEmptyClusterPolicy_eq (ipp : InitialPartitionPolicy) :
  FindEmptyClusterPolicy load_ok c ipp
  = RunKMeans load_ok c ipp (chosen_ecp c) (chosen_step c).
Proof.
  unfold FindEmptyClusterPolicy, FindLloydStepType, chosen_ecp, chosen_step.
  destruct (allow_empty_clusters c), (elkan c); reflexivity.
Qed.

Ltac R_tests :=
  repeat match goal with
         | H : context [Rle_dec ?x ?y] |- _ => destruct (Rle_dec x y)
         | H : context [Rgt_dec ?x ?y] |- _ => destruct (Rgt_dec x y)
         | |- context [Rle_dec ?x ?y] => destruct (Rle_dec x y)
         | |- context [Rgt_dec ?x ?y] => destruct (Rgt_dec x y)
         end.

Lemma kmeans_main_Done t u :
  kmeans_main load_ok c = (t, Done u) ->
  valid_options c
  /\ loadable load_ok c
  /\ loads t = expected_loads c
  /\ cluster_calls t
     = [Cluster (chosen_ipp c) (chosen_ecp c) (chosen_step c)
                (GetParam_max_iterations c) (clusters c)
                (HasParam (output_file c) || in_place c)
                (HasParam (initial_centroids c))]
  /\ saves t = expected_saves c.
Proof.
  unfold kmeans_main, valid_options, chosen_ipp.
  rewrite !FindEmptyClusterPolicy_eq. intros H.
  apply pbind_Done in H as (t0 & [] & t1 & Hseed & H & ->).
  assert (Hs0 : loads t0 = [] /\ cluster_calls t0 = [] /\ saves t0 = [])
    by (destruct (negb (GetParam_seed c =? 0)%Z); inversion Hseed;
        repeat split).
  destruct Hs0 as (Hl0 & Hc0 & Hv0).
  rewrite loads_app, cluster_calls_app, saves_app, Hl0, Hc0, Hv0. simpl.
  destruct (refined_start c).
  - apply pbind_Done in H as (ta & [] & tb & Ha & H & ->).
    apply pbind_Done in H as (tc & [] & td & Hb & H & ->).
    destruct (GetParam_samplings c <? 0)%Z eqn:E1; [discriminate|].
    inversion Ha; subst. Z_tests. R_tests; try discriminate.
    inversion Hb; subst. simpl.
    apply RunKMeans_Done in H as ([H1 H2] & Hload & Hl & Hc & Hv).
    repeat split; trivial; lra.
  - apply RunKMeans_Done in H as ([H1 H2] & Hload & Hl & Hc & Hv).
    repeat split; trivial; discriminate.
Qed.

Lemma kmeans_main_total :
  valid_options c -> loadable load_ok c ->
  exists t, kmeans_main load_ok c = (t, Done tt).
Proof.
  unfold kmeans_main, valid_options.
  rewrite !FindEmptyClusterPolicy_eq. intros (H1 & H2 & H3) Hl.
  destruct (refined_start c).
  - destruct (H3 eq_refl) as [Hs Hp].
    rewrite (proj2 (Z.ltb_ge _ _) Hs).
    destruct (RunKMeans_total load_ok c
                (RefinedStart (GetParam_samplings c) (GetParam_percentage c))
                (chosen_ecp c) (chosen_step c) H1 H2 Hl) as [t ->].
    R_tests; try lra.
    destruct (negb (GetParam_seed c =? 0)%Z); simpl; eexists; reflexivity.
  - destruct (RunKMeans_total load_ok c RandomPartition
                (chosen_ecp c) (chosen_step c) H1 H2 Hl) as [t ->].
    destruct (negb (GetParam_seed c =? 0)%Z); simpl; eexists; reflexivity.
Qed.

Lemma kmeans_main_Fatal t r :
  kmeans_main load_ok c = (t, Fatal r) ->
  saves t = [] /\ cluster_calls t = [].
Proof.
  unfold kmeans_main. rewrite !FindEmptyClusterPolicy_eq. intros H.
  apply pbind_Fatal in H as [H | (t0 & [] & t1 & Hseed & H & ->)];
    [destruct (negb (GetParam_seed c =? 0)%Z); discriminate|].
  assert (Hs0 : cluster_calls t0 = [] /\ saves t0 = [])
    by (destruct (negb (GetParam_seed c =? 0)%Z); inversion Hseed;
        repeat split).
  destruct Hs0 as (Hc0 & Hv0).
  rewrite cluster_calls_app, saves_app, Hc0, Hv0. simpl.
  destruct (refined_start c); [|now apply RunKMeans_Fatal in H].
  apply pbind_Fatal in H as [H | (ta & [] & tb & Ha & H & ->)].
  { destruct (GetParam_samplings c <? 0)%Z; inversion H. now split. }
  assert (ta = []) as ->
    by (destruct (GetParam_samplings c <? 0)%Z; inversion Ha; reflexivity).
  apply pbind_Fatal in H as [H | (tc & [] & td & Hb & H & ->)].
  { R_tests; inversion H; now split. }
  assert (tc = []) as -> by (R_tests; inversion Hb; reflexivity).
  now apply RunKMeans_Fatal in H.
Qed.

Lemma kmeans_main_rejects t o :
  kmeans_main load_ok c = (t, o) -> ~ valid_options c -> loads t = [].
Proof.
  unfold kmeans_main, valid_options.
  rewrite !FindEmptyClusterPolicy_eq. intros H Hbad.
  apply pbind_inv in H as [(r & H & _) | (t0 & [] & t1 & Hseed & H & ->)];
    [destruct (negb (GetParam_seed c =? 0)%Z); discriminate|].
  assert (Hl0 : loads t0 = [])
    by (destruct (negb (GetParam_seed c =? 0)%Z); inversion Hseed; reflexivity).
  rewrite loads_app, Hl0. simpl.
  destruct (refined_start c).
  - apply pbind_inv in H as [(r & H & _) | (ta & [] & tb & Ha & H & ->)].
    { destruct (GetParam_samplings c <? 0)%Z; inversion H. reflexivity. }
    destruct (GetParam_samplings c <? 0)%Z eqn:E1; [discriminate|].
    inversion Ha; subst. simpl.
    apply pbind_inv in H as [(r & H & _) | (tc & [] & td & Hb & H & ->)].
    { R_tests; inversion H; reflexivity. }
    R_tests; try discriminate. inversion Hb; subst. simpl.
    apply (RunKMeans_rejects _ _ _ _ _ _ _ H).
    intros [H1 H2]. apply Hbad. Z_tests. repeat split; trivial; lra.
  - apply (RunKMeans_rejects _ _ _ _ _ _ _ H).
    intros [H1 H2]. apply Hbad. repeat split; trivial; discriminate.
Qed.

End MainFacts.

(** X25. A run of the executable that ends at a [Log::Fatal] (an option
    that fails its check, or a file that cannot be loaded) has not
    clustered and has saved nothing: every fatal exit comes before the
    first [Cluster] and the first [data::Save]. *)
Theorem kmeans_main_fatal_saves_nothing (load_ok : String.string -> bool)
    (c : CLI) (t : list event) (r : fatal_reason) :
  kmeans_main load_ok c = (t, Fatal r) ->
  saves t = [] /\ cluster_calls t = [].
Proof. apply kmeans_main_Fatal. Qed.

(** X26. The executable runs to its end exactly when the options pass its
    checks ([clusters >= 1], [max_iterations >= 0] and, with
    [--refined_start], [samplings >= 0] and [0 < percentage <= 1]) and the
    input file and the initial centroid file, when given, can be loaded;
    when the options fail a check, no file is loaded at all. *)
Theorem kmeans_main_outcome (load_ok : String.string -> bool) (c : CLI)
    (t : list event) (o : outcome unit) :
  kmeans_main load_ok c = (t, o) ->
  (o = Done tt <-> valid_options c /\ loadable load_ok c)
  /\ (~ valid_options c -> loads t = []).
Proof.
  intros H. split; [split|].
  - intros ->. now apply kmeans_main_Done in H.
  - intros [Hv Hl].
    destruct (kmeans_main_total load_ok c Hv Hl) as [t' H'].
    rewrite H' in H. now inversion H.
  - exact (kmeans_main_rejects load_ok c t o H).
Qed.

(** X27. A run that reaches its end loads the input file and then the
    initial centroid file when one is given, calls [Cluster] exactly once,
    with the policies the flags select ([--refined_start],
    [--allow_empty_clusters], [--elkan]), and saves: with [--in_place] the
    labelled dataset into the input file, [--output_file] and
    [--labels_only] being ignored; otherwise, with [--output_file], the
    labels alone ([--labels_only]) or the labelled dataset into that file;
    and last the centroids when [--centroid_file] is given. *)
Theorem kmeans_main_effects (load_ok : String.string -> bool) (c : CLI)
    (t : list event) :
  kmeans_main load_ok c = (t, Done tt) ->
  loads t = expected_loads c
  /\ cluster_calls t
     = [Cluster (chosen_ipp c) (chosen_ecp c) (chosen_step c)
                (GetParam_max_iterations c) (clusters c)
                (HasParam (output_file c) || in_place c)
                (HasParam (initial_centroids c))]
  /\ saves t = expected_saves c.
Proof.
  intros H. now apply kmeans_main_Done in H.
Qed.

(** ** The further theorems at concrete inputs *)

Lemma box_big_well_formed : well_formed box_big.
Proof. repeat constructor; simpl; lra. Qed.

Lemma in_bound_2 (B : HRectBound) (a b : R) :
  dim B = 2%nat -> length (bounds B) = 2%nat ->
  lo (axis B 0) <= a <= hi (axis B 0) ->
  lo (axis B 1) <= b <= hi (axis B 1) ->
  in_bound B [a; b].
Proof.
  intros Hd Hl H0 H1. split; [simpl; lia|].
  apply Contains_true_iff. simpl. split; [lia|].
  intros [|[|d]] Hd'; try lia; assumption.
Qed.

Lemma box10_in_3_4 : in_bound box10 [3; 4].
Proof. apply in_bound_2; simpl; try reflexivity; lra. Qed.

Lemma box_far_in_25_0 : in_bound box_far [25; 0].
Proof. apply in_bound_2; simpl; try reflexivity; lra. Qed.

Lemma box10_inside_big : inside box10 box_big.
Proof.
  intros [|[|d]] Hd; simpl in Hd; try lia; unfold Range_le; simpl; lra.
Qed.

Lemma point_distance_bracket_witness :
  ((1 <= 3)%Z /\ allocated box10 /\ length [15; 5] = dim box10
   /\ in_bound box10 [3; 4])
  /\ exists m M,
       MinDistance 3 box10 [15; 5] = Ok m /\ MaxDistance 3 box10 [15; 5] = Ok M
       /\ m <= lpdist 3 [15; 5] [3; 4] <= M
       /\ lpdist 2 [15; 5] [3; 4] = sqdist [15; 5] [3; 4].
Proof.
  split.
  - repeat split; [lia | apply box10_in_3_4].
  - apply (point_distance_bracket 3 box10 [15; 5] [3; 4]);
      [lia | reflexivity | reflexivity | apply box10_in_3_4].
Defined.

Lemma bound_distance_bracket_witness :
  ((1 <= 3)%Z /\ allocated box10 /\ allocated box_far
   /\ dim box10 = dim box_far
   /\ in_bound box10 [3; 4] /\ in_bound box_far [25; 0])
  /\ exists m M,
       MinDistance_bound 3 box10 box_far = Ok m
       /\ MaxDistance_bound 3 box10 box_far = Ok M
       /\ m <= lpdist 3 [3; 4] [25; 0] <= M.
Proof.
  split.
  - repeat split; [lia | apply box10_in_3_4 | apply box_far_in_25_0].
  - apply (bound_distance_bracket 3 box10 box_far [3; 4] [25; 0]);
      [lia | reflexivity | reflexivity | reflexivity
       | apply box10_in_3_4 | apply box_far_in_25_0].
Defined.

Lemma point_distances_attained_witness :
  ((1 <= 3)%Z /\ allocated box10 /\ well_formed box10
   /\ length [15; 5] = dim box10)
  /\ in_bound box10 (nearest_point box10 [15; 5])
  /\ in_bound box10 (farthest_point box10 [15; 5])
  /\ MinDistance 3 box10 [15; 5]
     = Ok (lpdist 3 [15; 5] (nearest_point box10 [15; 5]))
  /\ MaxDistance 3 box10 [15; 5]
     = Ok (lpdist 3 [15; 5] (farthest_point box10 [15; 5])).
Proof.
  split.
  - repeat split; [lia | apply box10_well_formed].
  - apply (point_distances_attained 3 box10 [15; 5]);
      [lia | reflexivity | apply box10_well_formed | reflexivity].
Defined.

Lemma Contains_spec_witness :
  ((length (bounds box10) < length [3; 4; 5])%nat
   /\ forall d, (d < length (bounds box10))%nat ->
        lo (axis box10 d) <= coord [3; 4; 5] d <= hi (axis box10 d))
  /\ Contains box10 [3; 4; 5] = Fault OutOfBounds.
Proof.
  assert (Hin : forall d, (d < length (bounds box10))%nat ->
            lo (axis box10 d) <= coord [3; 4; 5] d <= hi (axis box10 d))
    by (intros [|[|d]] Hd; [| |simpl in Hd; lia]; unfold axis, coord; simpl; lra).
  split.
  - split; [simpl; lia | exact Hin].
  - apply (proj2 (Contains_spec box10 [3; 4; 5])); [simpl; lia | exact Hin].
Defined.

Lemma MinDistance_zero_iff_Contains_witness :
  ((1 <= 2)%Z /\ allocated box10 /\ length [3; 4] = dim box10)
  /\ (MinDistance 2 box10 [3; 4] = Ok 0 <-> Contains box10 [3; 4] = Ok true).
Proof.
  split.
  - repeat split. lia.
  - apply (MinDistance_zero_iff_Contains 2 box10 [3; 4]);
      [lia | reflexivity | reflexivity].
Defined.


Lemma RangeDistance_ordered_witness :
  ((1 <= 3)%Z /\ allocated box10 /\ allocated box_far
   /\ well_formed box10 /\ well_formed box_far
   /\ length [15; 5] = dim box10 /\ dim box10 = dim box_far)
  /\ (exists r, RangeDistance 3 box10 [15; 5] = Ok r /\ 0 <= lo r <= hi r)
  /\ (exists r, RangeDistance_bound 3 box10 box_far = Ok r
                /\ 0 <= lo r <= hi r).
Proof.
  split.
  - repeat split; [lia | apply box10_well_formed | apply box_far_well_formed].
  - apply (RangeDistance_ordered 3 box10 box_far [15; 5]);
      [lia | reflexivity | reflexivity | apply box10_well_formed
       | apply box_far_well_formed | reflexivity | reflexivity].
Defined.

Lemma MinDistance_filtered_all_axes_witness :
  ((1 <= 3)%Z /\ allocated box10 /\ allocated box_far
   /\ length [15; 5] = dim box10 /\ dim box10 = dim box_far
   /\ Permutation [1; 0]%nat (seq 0 (dim box10)))
  /\ (exists m, MinDistance 3 box10 [15; 5] = Ok m
                /\ MinDistance_filtered 3 box10 [15; 5] [1; 0]%nat = Ok m)
  /\ (exists m, MinDistance_bound 3 box10 box_far = Ok m
                /\ MinDistance_bound_filtered 3 box10 box_far [1; 0]%nat = Ok m).
Proof.
  assert (Hperm : Permutation [1; 0]%nat (seq 0 (dim box10)))
    by (simpl; apply perm_swap).
  split.
  - repeat split; [lia | exact Hperm].
  - apply (MinDistance_filtered_all_axes 3 box10 box_far [15; 5] [1; 0]%nat);
      [lia | reflexivity | reflexivity | reflexivity | reflexivity | exact Hperm].
Defined.

Lemma MinDistance_filtered_le_witness :
  ((1 <= 3)%Z /\ allocated box10 /\ allocated box_far
   /\ length [15; 5] = dim box10 /\ dim box10 = dim box_far
   /\ NoDup [1]%nat /\ Forall (fun i => (i < dim box10)%nat) [1]%nat)
  /\ (exists f m, MinDistance_filtered 3 box10 [15; 5] [1]%nat = Ok f
                  /\ MinDistance 3 box10 [15; 5] = Ok m /\ 0 <= f <= m)
  /\ (exists f m, MinDistance_bound_filtered 3 box10 box_far [1]%nat = Ok f
                  /\ MinDistance_bound 3 box10 box_far = Ok m /\ 0 <= f <= m).
Proof.
  assert (Hnd : NoDup [1]%nat) by (repeat constructor; simpl; tauto).
  assert (Hidx : Forall (fun i => (i < dim box10)%nat) [1]%nat)
    by (repeat constructor).
  split.
  - repeat split; [lia | exact Hnd | exact Hidx].
  - apply (MinDistance_filtered_le 3 box10 box_far [15; 5] [1]%nat);
      [lia | reflexivity | reflexivity | reflexivity | reflexivity
       | exact Hnd | exact Hidx].
Defined.

Lemma filtered_index_out_of_range_witness :
  ((1 <= 2)%Z /\ allocated box10 /\ allocated box_far
   /\ length [15; 5] = dim box10 /\ dim box10 = dim box_far
   /\ Exists (fun i => (dim box10 <= i)%nat) [0; 5]%nat)
  /\ MinDistance_filtered 2 box10 [15; 5] [0; 5]%nat = Fault OutOfBounds
  /\ MinDistance_bound_filtered 2 box10 box_far [0; 5]%nat = Fault OutOfBounds
  /\ MaxDistance_filtered 2 box10 [15; 5] [0; 5]%nat = Fault OutOfBounds
  /\ MaxDistance_bound_filtered 2 box10 box_far [0; 5]%nat = Fault OutOfBounds.
Proof.
  assert (Hbad : Exists (fun i => (dim box10 <= i)%nat) [0; 5]%nat)
    by (apply Exists_cons_tl, Exists_cons_hd; simpl; lia).
  split.
  - repeat split; [lia | exact Hbad].
  - apply (filtered_index_out_of_range 2 box10 box_far [15; 5] [0; 5]%nat);
      [lia | reflexivity | reflexivity | reflexivity | reflexivity | exact Hbad].
Defined.

Lemma union_keeps_points_witness :
  (allocated box10 /\ allocated box_far
   /\ length [15; 5] = dim box10 /\ dim box_far = dim box10)
  /\ (exists B', union_point box10 [15; 5] = Ok B'
                 /\ Contains B' [15; 5] = Ok true
                 /\ forall y, Contains box10 y = Ok true ->
                              Contains B' y = Ok true)
  /\ (exists B', union_bound box10 box_far = Ok B'
                 /\ forall y, Contains box10 y = Ok true
                              \/ Contains box_far y = Ok true ->
                              Contains B' y = Ok true).
Proof.
  split.
  - repeat split.
  - apply (union_keeps_points box10 box_far [15; 5]); reflexivity.
Defined.

Lemma union_idempotent_commutative_witness :
  (allocated box10 /\ allocated box_far /\ allocated box_big
   /\ length [15; 5] = dim box10 /\ length [3; 40] = dim box10
   /\ dim box_far = dim box10 /\ dim box_big = dim box10)
  /\ (exists B1, union_point box10 [15; 5] = Ok B1
                 /\ union_point B1 [15; 5] = Ok B1)
  /\ (exists B1 B2 B12,
         union_point box10 [15; 5] = Ok B1 /\ union_point box10 [3; 40] = Ok B2
         /\ union_point B1 [3; 40] = Ok B12 /\ union_point B2 [15; 5] = Ok B12)
  /\ (exists B1, union_bound box10 box_far = Ok B1
                 /\ union_bound B1 box_far = Ok B1)
  /\ (exists B1 B2 B12,
         union_bound box10 box_far = Ok B1 /\ union_bound box10 box_big = Ok B2
         /\ union_bound B1 box_big = Ok B12 /\ union_bound B2 box_far = Ok B12).
Proof.
  split.
  - repeat split.
  - apply (union_idempotent_commutative box10 box_far box_big [15; 5] [3; 40]);
      reflexivity.
Defined.

Lemma union_least_witness :
  (allocated box10 /\ allocated box_far
   /\ length [15; 5] = dim box10 /\ dim box_far = dim box10
   /\ inside box10 box_big)
  /\ (Contains box_big [15; 5] = Ok true ->
      exists B', union_point box10 [15; 5] = Ok B' /\ inside B' box_big)
  /\ (inside box_far box_big ->
      exists B', union_bound box10 box_far = Ok B' /\ inside B' box_big).
Proof.
  split.
  - repeat (split; [reflexivity|]). apply box10_inside_big.
  - apply (union_least box10 box_far box_big [15; 5]);
      [reflexivity | reflexivity | reflexivity | reflexivity
       | apply box10_inside_big].
Defined.

Lemma distances_monotone_in_box_witness :
  ((1 <= 3)%Z /\ allocated box10 /\ allocated box_big /\ allocated box_far
   /\ dim box_big = dim box10 /\ dim box_far = dim box10
   /\ length [150; 5] = dim box10 /\ inside box10 box_big)
  /\ (exists m m', MinDistance 3 box10 [150; 5] = Ok m
                   /\ MinDistance 3 box_big [150; 5] = Ok m' /\ m' <= m)
  /\ (exists m m', MinDistance_bound 3 box10 box_far = Ok m
                   /\ MinDistance_bound 3 box_big box_far = Ok m' /\ m' <= m)
  /\ (well_formed box10 ->
      exists M M', MaxDistance 3 box10 [150; 5] = Ok M
                   /\ MaxDistance 3 box_big [150; 5] = Ok M' /\ M <= M')
  /\ (well_formed box10 -> well_formed box_far ->
      exists M M', MaxDistance_bound 3 box10 box_far = Ok M
                   /\ MaxDistance_bound 3 box_big box_far = Ok M' /\ M <= M').
Proof.
  split.
  - split; [lia|]. repeat (split; [reflexivity|]). apply box10_inside_big.
  - apply (distances_monotone_in_box 3 box10 box_big box_far [150; 5]);
      [lia | reflexivity | reflexivity | reflexivity | reflexivity
       | reflexivity | reflexivity | apply box10_inside_big].
Defined.

Lemma union_point_distances_witness :
  ((1 <= 3)%Z /\ allocated box10 /\ length [15; 5] = dim box10
   /\ length [30; 30] = dim box10)
  /\ exists B',
       union_point box10 [15; 5] = Ok B'
       /\ MinDistance 3 B' [15; 5] = Ok 0
       /\ (exists m m', MinDistance 3 box10 [30; 30] = Ok m
                        /\ MinDistance 3 B' [30; 30] = Ok m' /\ m' <= m)
       /\ (well_formed box10 ->
           exists M M', MaxDistance 3 box10 [30; 30] = Ok M
                        /\ MaxDistance 3 B' [30; 30] = Ok M' /\ M <= M').
Proof.
  split.
  - repeat split. lia.
  - apply (union_point_distances 3 box10 [15; 5] [30; 30]);
      [lia | reflexivity | reflexivity | reflexivity].
Defined.

Lemma copy_assign_equal_witness :
  allocated box_far
  /\ HRectBound_copy Range_inverted box_far = Ok box_far
  /\ HRectBound_assign Range_inverted box10 box_far = Ok box_far.
Proof.
  split.
  - reflexivity.
  - apply (copy_assign_equal Range_inverted box10 box_far). reflexivity.
Defined.

Lemma Clear_resets_witness :
  allocated box10
  /\ Clear Range_inverted box10
     = Ok (HRectBound_sized Range_inverted (dim box10))
  /\ Clear Range_inverted (HRectBound_sized Range_inverted (dim box10))
     = Ok (HRectBound_sized Range_inverted (dim box10))
  /\ allocated (HRectBound_sized Range_inverted (dim box10)).
Proof.
  split.
  - reflexivity.
  - apply (Clear_resets Range_inverted box10). reflexivity.
Defined.

Lemma first_point_degenerate_witness :
  Forall (fun c => hi Range_inverted <= c <= lo Range_inverted) [3; 4]
  /\ exists B',
       union_point (HRectBound_sized Range_inverted (length [3; 4])) [3; 4]
       = Ok B'
       /\ B' = mkHRectBound (length [3; 4]) (map (fun c => mkRange c c) [3; 4])
       /\ forall y, length y = length [3; 4] ->
                    (Contains B' y = Ok true <-> y = [3; 4]).
Proof.
  assert (He : Forall (fun c => hi Range_inverted <= c <= lo Range_inverted)
                      [3; 4])
    by (repeat constructor; simpl; lra).
  split.
  - exact He.
  - apply (first_point_degenerate Range_inverted [3; 4] He).
Defined.

Lemma Centroid_spec_witness :
  (allocated box10 /\ length (zeros (dim box10)) = dim box10)
  /\ exists m,
       Centroid zeros box10 [7] = Ok m
       /\ length m = dim box10
       /\ (forall d, (d < dim box10)%nat ->
             coord m d = (lo (axis box10 d) + hi (axis box10 d)) / 2)
       /\ (well_formed box10 -> Contains box10 m = Ok true).
Proof.
  split.
  - repeat split.
  - apply (Centroid_spec zeros box10 [7]); reflexivity.
Defined.

Lemma Centroid_least_MaxDistance_witness :
  ((1 <= 3)%Z /\ allocated box10 /\ well_formed box10
   /\ length (zeros (dim box10)) = dim box10 /\ length [15; 5] = dim box10)
  /\ exists m Mc Mq,
       Centroid zeros box10 [7] = Ok m
       /\ MaxDistance 3 box10 m = Ok Mc /\ MaxDistance 3 box10 [15; 5] = Ok Mq
       /\ Mc <= Mq.
Proof.
  split.
  - repeat split; [lia | apply box10_well_formed].
  - apply (Centroid_least_MaxDistance 3 zeros box10 [7] [15; 5]);
      [lia | reflexivity | apply box10_well_formed | reflexivity | reflexivity].
Defined.

Lemma GaussianKernel_formula_witness :
  (2 <> 0 /\ length [1; 2] = length [4; 6])
  /\ exists k,
       GaussianKernel_new 2 = Ok k
       /\ bandwidth k = 2
       /\ gamma k = - 1 / (2 * 2 ^ 2)
       /\ Evaluate k [1; 2] [4; 6]
          = Ok (exp (- sqdist [1; 2] [4; 6] / (2 * 2 ^ 2)))
       /\ Evaluate_scalar k 5 = exp (- 5 ^ 2 / (2 * 2 ^ 2)).
Proof.
  split.
  - split; [lra | reflexivity].
  - apply (proj2 (GaussianKernel_formula 2 [1; 2] [4; 6] 5));
      [lra | reflexivity].
Defined.

Lemma GaussianKernel_new_2 :
  GaussianKernel_new 2
  = Ok (mkGaussianKernel 2 (2 * sqrt (2 * PI)) (-0.5 * / (2 * 2))).
Proof.
  unfold GaussianKernel_new. now rewrite pow_minus_2 by lra.
Qed.

Lemma GaussianKernel_Evaluate_properties_witness :
  (GaussianKernel_new 2
   = Ok (mkGaussianKernel 2 (2 * sqrt (2 * PI)) (-0.5 * / (2 * 2)))
   /\ length [1; 2] = length [4; 6] /\ length [1; 2] = length [7; 7])
  /\ exists v,
       Evaluate (mkGaussianKernel 2 (2 * sqrt (2 * PI)) (-0.5 * / (2 * 2)))
                [1; 2] [4; 6] = Ok v
       /\ Evaluate (mkGaussianKernel 2 (2 * sqrt (2 * PI)) (-0.5 * / (2 * 2)))
                   [4; 6] [1; 2] = Ok v
       /\ 0 < v <= 1
       /\ (v = 1 <-> [1; 2] = [4; 6])
       /\ (sqdist [1; 2] [4; 6] <= sqdist [1; 2] [7; 7] ->
           exists w,
             Evaluate (mkGaussianKernel 2 (2 * sqrt (2 * PI)) (-0.5 * / (2 * 2)))
                      [1; 2] [7; 7] = Ok w
             /\ w <= v).
Proof.
  split.
  - repeat split. apply GaussianKernel_new_2.
  - apply (GaussianKernel_Evaluate_properties 2 _ [1; 2] [4; 6] [7; 7]);
      [apply GaussianKernel_new_2 | reflexivity | reflexivity].
Defined.


Lemma GaussianKernel_bandwidth_sign_witness :
  2 <> 0
  /\ exists k k',
       GaussianKernel_new 2 = Ok k /\ GaussianKernel_new (- 2) = Ok k'
       /\ gamma k' = gamma k
       /\ Evaluate k' [1; 2] [4; 6] = Evaluate k [1; 2] [4; 6]
       /\ normalizer k' = - normalizer k
       /\ (0 < normalizer k <-> 0 < 2).
Proof.
  split.
  - lra.
  - apply (GaussianKernel_bandwidth_sign 2 [1; 2] [4; 6]). lra.
Defined.

Lemma kmeans_main_fatal_saves_nothing_witness :
  kmeans_main load_all cli_no_clusters = ([RandomSeed_time], Fatal BadClusters)
  /\ saves [RandomSeed_time] = [] /\ cluster_calls [RandomSeed_time] = [].
Proof.
  split.
  - reflexivity.
  - apply (kmeans_main_fatal_saves_nothing load_all cli_no_clusters
             [RandomSeed_time] BadClusters).
    reflexivity.
Defined.

Lemma kmeans_main_outcome_witness :
  kmeans_main load_all cli_no_clusters = ([RandomSeed_time], Fatal BadClusters)
  /\ (Fatal BadClusters = Done tt <->
      valid_options cli_no_clusters /\ loadable load_all cli_no_clusters)
  /\ (~ valid_options cli_no_clusters -> loads [RandomSeed_time] = []).
Proof.
  split.
  - reflexivity.
  - apply (kmeans_main_outcome load_all cli_no_clusters
             [RandomSeed_time] (Fatal BadClusters)).
    reflexivity.
Defined.

Lemma kmeans_main_effects_witness :
  kmeans_main load_all cli_labels
  = ([RandomSeed_time; Load "data.csv"%string; Timer_Start;
      Cluster RandomPartition MaxVarianceNewCluster NaiveKMeans 1000 3
              true false;
      Timer_Stop; Save "labels.csv"%string LabelsOnly;
      Save "centroids.csv"%string Centroids], Done tt)
  /\ saves [RandomSeed_time; Load "data.csv"%string; Timer_Start;
            Cluster RandomPartition MaxVarianceNewCluster NaiveKMeans 1000 3
                    true false;
            Timer_Stop; Save "labels.csv"%string LabelsOnly;
            Save "centroids.csv"%string Centroids]
     = expected_saves cli_labels.
Proof.
  split.
  - reflexivity.
  - apply (kmeans_main_effects load_all cli_labels _ eq_refl).
Defined.
